(** * Scheduling and lowering core: a shallow embedding of ScheduleFunctions.cpp

    The development follows the source file top to bottom: the loop-nest
    builder ([build_provide_loop_nest]), the legal-site analysis and
    [validate_schedule], the clean-up passes run by [schedule_functions],
    and the grouping loop of the auto-scheduler ([Partitioner]); then the
    realization injector with the builders of a production, the region
    costs and the helpers for schedule surgery of the auto-scheduler.

    The expression IR, [simplify], [substitute], [expr_uses_var] and the
    name generator live outside the file; they enter each section as
    variables, so every theorem holds for all of their behaviours.  The
    two theorems on the lets of a stage also take what [substitute] does
    at a let as a hypothesis. *)

From Stdlib Require Import ZArith String Ascii List Lia Bool.
From Stdlib Require Import Floats.SpecFloat.
From stdpp Require Import gmap strings list sorting pretty.

Local Open Scope string_scope.
Local Open Scope Z_scope.

Set Warnings "-register-all".

(** ** Strings (Util.h) *)

(** [starts_with(str, prefix)] and [ends_with(str, suffix)]. *)
Definition starts_with (str pre : string) : bool := String.prefix pre str.

Definition ends_with (str suffix : string) : bool :=
  String.prefix (String.rev suffix) (String.rev str).

(** [str.find('.')]: position of the first dot, if any. *)
Definition find_dot (str : string) : option nat := String.index 0 "." str.

(** [str.rfind('.')]: position of the last dot, if any. *)
Definition rfind_dot (str : string) : option nat :=
  match String.index 0 "." (String.rev str) with
  | Some k => Some (String.length str - 1 - k)%nat
  | None => None
  end.

(** [str.substr(pos)]: the tail of [str] from position [pos]. *)
Definition substr_from (pos : nat) (str : string) : string :=
  String.substring pos (String.length str - pos) str.

(** ** Diagnostics

    [user_error << a << b << ...] builds its message piece by piece and
    ends compilation when the statement finishes; [internal_assert] does
    the same for a broken invariant.  A message is kept as the list of the
    pieces streamed into it: text, or an expression handed to the IR
    printer. *)

Inductive TypeCode := TInt | TUInt | TFloat | THandle.

Record HType := mkType { code : TypeCode; bits : Z; width : Z }.

Definition Int32 : HType := mkType TInt 32 1.
Definition Bool1 : HType := mkType TUInt 1 1.
Definition Handle : HType := mkType THandle 64 1.

Definition TypeCode_eqb (a b : TypeCode) : bool :=
  match a, b with
  | TInt, TInt | TUInt, TUInt | TFloat, TFloat | THandle, THandle => true
  | _, _ => false
  end.

Definition HType_eqb (a b : HType) : bool :=
  TypeCode_eqb (code a) (code b) && (bits a =? bits b) && (width a =? width b).

Definition is_bool (t : HType) : bool :=
  TypeCode_eqb (code t) TUInt && (bits t =? 1).

(** ** The IR (IR.h), as far as this file builds and inspects it *)

Inductive ForType := Serial | Parallel | Vectorized | Unrolled.

Inductive DeviceAPI := Parent | Host | Default_GPU | CUDA | OpenCL | GLSL.

Inductive BinOp :=
  Add | Sub | Mul | Div | Mod | Min | Max
| EQ | NE | LT | LE | GT | GE | And | Or.

Inductive CallType := Extern | Halide | Intrinsic | Image.

Inductive Expr :=
| IntImm (value : Z)
| StringImm (value : string)
| Cast (t : HType) (value : Expr)
| Variable_ (t : HType) (name : string)
| Bin (op : BinOp) (a b : Expr)
| Not (a : Expr)
| Select (condition true_value false_value : Expr)
| Load (t : HType) (name : string) (index : Expr)
| Ramp (base stride : Expr) (w : Z)
| Broadcast (value : Expr) (w : Z)
| Call (t : HType) (name : string) (args : list Expr) (call_type : CallType)
| Let_ (name : string) (value body : Expr).

(** A [Stmt] is a handle that may be undefined ([Stmt()]): [NoStmt]. *)
Inductive Stmt :=
| NoStmt
| LetStmt (name : string) (value : Expr) (body : Stmt)
| AssertStmt (condition message : Expr)
| ProducerConsumer (name : string) (produce update consume : Stmt)
| For (name : string) (min extent : Expr) (for_type : ForType)
      (device_api : DeviceAPI) (body : Stmt)
| Store (name : string) (value index : Expr)
| Provide (name : string) (values args : list Expr)
| Allocate (name : string) (t : HType) (extents : list Expr)
           (condition : Expr) (body : Stmt)
| Free (name : string)
| Realize (name : string) (types : list HType) (bounds : list (Expr * Expr))
          (condition : Expr) (body : Stmt)
| Block (first rest : Stmt)
| IfThenElse (condition : Expr) (then_case else_case : Stmt)
| Evaluate (value : Expr).

Inductive Piece :=
| Txt (s : string)
| Num (n : Z)
| Ex (e : Expr).

(** The newline and the double quote, as one-character strings. *)
Definition nl : string := String "010"%char EmptyString.
Definition dq : string := String "034"%char EmptyString.

Inductive Error :=
| user_error (msg : list Piece)
| internal_error (msg : string)
| undefined_behaviour (what : string).

(** The result of a step that may end compilation. *)
Inductive Outcome (A : Type) :=
| Ok (a : A)
| Fail (e : Error).

Arguments Ok {A} a.
Arguments Fail {A} e.

Definition bind {A B} (m : Outcome A) (k : A -> Outcome B) : Outcome B :=
  match m with
  | Ok a => k a
  | Fail e => Fail e
  end.

Notation "'do' x <- m ; k" := (bind m (fun x => k))
  (at level 10, x pattern, m at level 100, k at level 200).

Definition is_ok {A} (m : Outcome A) : bool :=
  match m with Ok _ => true | Fail _ => false end.

(** The type an expression node carries ([Expr::type()]). *)
Fixpoint type_of (e : Expr) : HType :=
  match e with
  | IntImm _ => Int32
  | StringImm _ => Handle
  | Cast t _ => t
  | Variable_ t _ => t
  | Bin op a _ =>
      match op with
      | EQ | NE | LT | LE | GT | GE | And | Or =>
          mkType TUInt 1 (width (type_of a))
      | _ => type_of a
      end
  | Not a => type_of a
  | Select _ t _ => type_of t
  | Load t _ _ => t
  | Ramp b _ w => mkType (code (type_of b)) (bits (type_of b)) w
  | Broadcast v w => mkType (code (type_of v)) (bits (type_of v)) w
  | Call t _ _ _ => t
  | Let_ _ _ b => type_of b
  end.

(** The operators of IROperator.h used below build one node each. *)
Definition var32 (name : string) : Expr := Variable_ Int32 name.
Definition const_true : Expr := Cast Bool1 (IntImm 1).
Definition const_false : Expr := Cast Bool1 (IntImm 0).


(** [std::swap(v[a], v[b])] on a vector held as a list. *)
Definition swap_at {A} (l : list A) (a b : nat) : list A :=
  match l !! a, l !! b with
  | Some x, Some y => <[a := y]> (<[b := x]> l)
  | _, _ => l
  end.

(** ** Schedules (Schedule.h) *)

Inductive SplitType := SplitVar | RenameVar | FuseVars.

Record Split := mkSplit {
  old_var : string;
  outer : string;
  inner : string;
  factor : Expr;
  exact : bool;
  partial : bool;
  split_type : SplitType }.

Definition is_rename (s : Split) : bool :=
  match split_type s with RenameVar => true | _ => false end.
Definition is_split (s : Split) : bool :=
  match split_type s with SplitVar => true | _ => false end.
Definition is_fuse (s : Split) : bool :=
  match split_type s with FuseVars => true | _ => false end.

Record Dim := mkDim {
  dim_var : string;
  dim_for_type : ForType;
  dim_device_api : DeviceAPI;
  dim_pure : bool }.

Record Bound := mkBound {
  bound_var : string;
  bound_min : Expr;
  bound_extent : Expr }.

Record ReductionVariable := mkReductionVariable {
  rvar_var : string;
  rvar_min : Expr;
  rvar_extent : Expr }.

(** Modelled from the spec: the header that declares [LoopLevel] is not
    among the sources.  A loop level is a pair (func, var); [inline] has an
    empty var, [root] is the outermost level, and two levels match when
    they are structurally equal. *)
Record LoopLevel := mkLoopLevel {
  ll_func : string;
  ll_var : string }.

Definition root_var_name : string := "__root".
Definition outermost_name : string := "__outermost".

Definition LoopLevel_root : LoopLevel := mkLoopLevel EmptyString root_var_name.
Definition LoopLevel_inline : LoopLevel := mkLoopLevel EmptyString EmptyString.

Definition is_inline (l : LoopLevel) : bool := String.eqb (ll_var l) EmptyString.
Definition is_root (l : LoopLevel) : bool := String.eqb (ll_var l) root_var_name.
Definition ll_match (a b : LoopLevel) : bool :=
  String.eqb (ll_func a) (ll_func b) && String.eqb (ll_var a) (ll_var b).

(** A schedule holds its specializations, each a condition with a schedule
    of its own. *)
Inductive Schedule :=
| mkSchedule (splits : list Split) (dims : list Dim) (bounds : list Bound)
             (reduction_domain : option (list ReductionVariable))
             (store_level compute_level : LoopLevel)
             (specializations : list (Expr * Schedule))
             (touched memoized : bool).

Definition splits (s : Schedule) := let 'mkSchedule x _ _ _ _ _ _ _ _ := s in x.
Definition dims (s : Schedule) := let 'mkSchedule _ x _ _ _ _ _ _ _ := s in x.
Definition bounds (s : Schedule) := let 'mkSchedule _ _ x _ _ _ _ _ _ := s in x.
Definition reduction_domain (s : Schedule) :=
  let 'mkSchedule _ _ _ x _ _ _ _ _ := s in x.
Definition store_level (s : Schedule) := let 'mkSchedule _ _ _ _ x _ _ _ _ := s in x.
Definition compute_level (s : Schedule) := let 'mkSchedule _ _ _ _ _ x _ _ _ := s in x.
Definition specializations (s : Schedule) :=
  let 'mkSchedule _ _ _ _ _ _ x _ _ := s in x.
Definition touched (s : Schedule) := let 'mkSchedule _ _ _ _ _ _ _ x _ := s in x.
Definition memoized (s : Schedule) := let 'mkSchedule _ _ _ _ _ _ _ _ x := s in x.

Definition ForType_eqb (a b : ForType) : bool :=
  match a, b with
  | Serial, Serial | Parallel, Parallel
  | Vectorized, Vectorized | Unrolled, Unrolled => true
  | _, _ => false
  end.

(** ** Functions (Function.h), as far as this file reads them *)

Record UpdateDefinition := mkUpdateDefinition {
  update_values : list Expr;
  update_args : list Expr;
  update_schedule : Schedule;
  update_domain : option (list ReductionVariable) }.

Inductive Function :=
| mkFunction (name : string) (args : list string) (values : list Expr)
             (schedule : Schedule) (updates : list UpdateDefinition)
             (extern_definition : option (string * list ExternFuncArgument))
with ExternFuncArgument :=
| ExprArg (e : Expr)
| FuncArg (f : Function)
| BufferArg (name : string)
| ImageParamArg (name : string).

Definition func_name (f : Function) := let 'mkFunction x _ _ _ _ _ := f in x.
Definition func_args (f : Function) := let 'mkFunction _ x _ _ _ _ := f in x.
Definition func_values (f : Function) := let 'mkFunction _ _ x _ _ _ := f in x.
Definition func_schedule (f : Function) := let 'mkFunction _ _ _ x _ _ := f in x.
Definition func_updates (f : Function) := let 'mkFunction _ _ _ _ x _ := f in x.
Definition extern_definition (f : Function) :=
  let 'mkFunction _ _ _ _ _ x := f in x.

Definition has_extern_definition (f : Function) : bool :=
  match extern_definition f with Some _ => true | None => false end.
Definition extern_arguments (f : Function) : list ExternFuncArgument :=
  match extern_definition f with Some (_, l) => l | None => [] end.
Definition has_pure_definition (f : Function) : bool :=
  match func_values f with [] => false | _ => true end.
Definition has_update_definition (f : Function) : bool :=
  match func_updates f with [] => false | _ => true end.

(** ** build_provide_loop_nest *)

Section BuildProvideLoopNest.

(** Collaborators from other files of the compiler. *)
Variable simplify : Expr -> Expr.
Variable is_zero : Expr -> bool.
Variable likely : Expr -> Expr.
Variable substitute : string -> Expr -> Stmt -> Stmt.
Variable expr_uses_var : Expr -> string -> bool.
Variable simplify_exprs : Stmt -> Stmt.
(** [unique_name c] is the name the [c]-th call [unique_name('s')] of
    the process hands out; the counter is threaded through the builder. *)
Variable unique_name : nat -> string.
(** A default-constructed [Dim] has an empty [var]; its other members
    are not initialised. *)
Variable indeterminate_for_type : ForType.
Variable indeterminate_device_api : DeviceAPI.
Variable indeterminate_pure : bool.

(** *** Rebalancing the split tree (the two nested loops over [splits]) *)

(** [for (k = j; k > i+1; k--) swap(splits[k], splits[k-1])], given the
    number [n] of iterations left. *)
Fixpoint push_back_to (n k : nat) (l : list Split) : list Split :=
  match n with
  | O => l
  | S n' => push_back_to n' (k - 1) (swap_at l k (k - 1))
  end.

Definition rename_of_derived : Error :=
  internal_error
    "Rename of derived variable found in splits list. This should never happen.".

(** One state of the two loops: the outer index [i], the inner index
    [j], the list and the name counter.  When the inner loop runs off the
    list the outer loop moves to [i+1] and restarts [j] at [i+2]. *)
Fixpoint rebalance_from (fuel i j : nat) (l : list Split) (c : nat)
  : option (Outcome (list Split * nat)) :=
  match fuel with
  | O => None
  | S fuel' =>
    if (j <? length l)%nat then
      match l !! i, l !! j with
      | Some first, Some second =>
        if String.eqb (outer first) (old_var second) then
          if is_rename second then Some (Fail rename_of_derived)
          else if is_rename first then
            (* second.old_var = first.old_var; drop first; j = i+1,
               and then the loop's own j++ *)
            let second' :=
              mkSplit (old_var first) (outer second) (inner second)
                      (factor second) (exact second) (partial second)
                      (split_type second) in
            rebalance_from fuel' i (i + 2) (delete i (<[j := second']> l)) c
          else
            let ex := exact first || exact second in
            let s := unique_name c in
            let first' :=
              mkSplit (old_var first) (outer second) s
                      (simplify (Bin Mul (factor first) (factor second)))
                      ex (partial first) (split_type first) in
            let second' :=
              mkSplit s (inner second) (inner first) (factor first)
                      ex (partial second) (split_type second) in
            rebalance_from fuel' i (j + 1)
              (push_back_to (j - (i + 1)) j (<[i := first']> (<[j := second']> l)))
              (S c)
        else rebalance_from fuel' i (j + 1) l c
      | _, _ => Some (Fail (undefined_behaviour "splits indexed past its end"))
      end
    else if (i + 1 <? length l)%nat then rebalance_from fuel' (i + 1) (i + 2) l c
    else Some (Ok (l, c))
  end.

Definition rebalance_fuel (l : list Split) : nat :=
  S ((S (length l)) * (S (length l)) * (S (length l))).

Definition rebalance (l : list Split) (c : nat) : Outcome (list Split * nat) :=
  match rebalance_from (rebalance_fuel l) 0 1 l c with
  | Some r => r
  | None => Fail (internal_error "rebalance: out of fuel")
  end.

(** *** The innermost loop that is neither vectorized nor unrolled *)

Definition innermost_non_trivial_loop (ds : list Dim) : Dim :=
  match List.find (fun d => negb (ForType_eqb (dim_for_type d) Vectorized)
                            && negb (ForType_eqb (dim_for_type d) Unrolled)) ds with
  | Some d => d
  | None => mkDim EmptyString indeterminate_for_type
                  indeterminate_device_api indeterminate_pure
  end.

(** *** Defining the function args in terms of the loop variables *)

Definition exact_split_message (split : Split) (extent : Expr) : list Piece :=
  [ Txt "When splitting "; Txt (old_var split); Txt " into ";
    Txt (outer split); Txt " and "; Txt (inner split); Txt ", ";
    Txt "could not prove the split factor ("; Ex (factor split); Txt ") ";
    Txt "divides the extent of "; Txt (old_var split);
    Txt " ("; Ex extent; Txt "). This is required when ";
    Txt "the split originates from an RVar."; Txt nl ].

(** The base of the inner loop of a [SplitVar], and the known sizes
    after it: the chain [if proved / else if exact / else if pure and not
    partial].  [known] already holds [inner -> factor]. *)
Definition split_base (prefix : string) (is_update : bool) (innermost : Dim)
           (known : gmap string Expr) (split : Split)
  : Outcome (Expr * gmap string Expr) :=
  let outer_e := var32 (prefix +:+ outer split) in
  let old_max := var32 (prefix +:+ old_var split +:+ ".loop_max") in
  let old_min := var32 (prefix +:+ old_var split +:+ ".loop_min") in
  let base := Bin Add (Bin Mul outer_e (factor split)) old_min in
  let iter := known !! old_var split in
  let proved :=
    match iter with
    | Some extent => is_zero (simplify (Bin Mod extent (factor split)))
    | None => false
    end in
  if proved then
    match iter with
    | Some extent =>
        Ok (base, <[outer split := Bin Div extent (factor split)]> known)
    | None => Ok (base, known)
    end
  else if exact split then
    match iter with
    | Some extent => Fail (user_error (exact_split_message split extent))
    | None =>
        (* the message reads iter->second although iter is end() *)
        Fail (undefined_behaviour "known_size_dims.end() dereferenced")
    end
  else if negb is_update && negb (partial split) then
    let base1 :=
      if String.eqb (outer split) (dim_var innermost)
         && ForType_eqb (dim_for_type innermost) Serial
      then likely base else base in
    Ok (Bin Min base1 (Bin Add old_max (Bin Sub (IntImm 1) (factor split))), known)
  else Ok (base, known).

(** One iteration of [for (const Split &split : splits)]. *)
Definition apply_split (prefix : string) (is_update : bool) (innermost : Dim)
           (st : Stmt * gmap string Expr) (split : Split)
  : Outcome (Stmt * gmap string Expr) :=
  let '(stmt, known) := st in
  let outer_e := var32 (prefix +:+ outer split) in
  match split_type split with
  | SplitVar =>
      let inner_e := var32 (prefix +:+ inner split) in
      let known1 := <[inner split := factor split]> known in
      do bk <- split_base prefix is_update innermost known1 split;
      let '(base, known2) := bk in
      let base_name := prefix +:+ inner split +:+ ".base" in
      let base_var := var32 base_name in
      let stmt1 := substitute (prefix +:+ old_var split) (Bin Add base_var inner_e) stmt in
      let stmt2 := LetStmt (prefix +:+ old_var split) (Bin Add base_var inner_e) stmt1 in
      Ok (LetStmt base_name base stmt2, known2)
  | FuseVars =>
      let fused := var32 (prefix +:+ old_var split) in
      let inner_min := var32 (prefix +:+ inner split +:+ ".loop_min") in
      let outer_min := var32 (prefix +:+ outer split +:+ ".loop_min") in
      let inner_extent := var32 (prefix +:+ inner split +:+ ".loop_extent") in
      let factor_e := Bin Max inner_extent (IntImm 1) in
      let inner_e := Bin Add (Bin Mod fused factor_e) inner_min in
      let outer_e' := Bin Add (Bin Div fused factor_e) outer_min in
      let stmt1 := substitute (prefix +:+ inner split) inner_e stmt in
      let stmt2 := substitute (prefix +:+ outer split) outer_e' stmt1 in
      let stmt3 := LetStmt (prefix +:+ inner split) inner_e stmt2 in
      let stmt4 := LetStmt (prefix +:+ outer split) outer_e' stmt3 in
      let known1 :=
        match known !! inner split, known !! outer split with
        | Some ie, Some oe => <[old_var split := Bin Mul ie oe]> known
        | _, _ => known
        end in
      Ok (stmt4, known1)
  | RenameVar =>
      let stmt1 := substitute (prefix +:+ old_var split) outer_e stmt in
      Ok (LetStmt (prefix +:+ old_var split) outer_e stmt1, known)
  end.

Fixpoint apply_splits (prefix : string) (is_update : bool) (innermost : Dim)
         (st : Stmt * gmap string Expr) (l : list Split)
  : Outcome (Stmt * gmap string Expr) :=
  match l with
  | [] => Ok st
  | split :: rest =>
      do st' <- apply_split prefix is_update innermost st split;
      apply_splits prefix is_update innermost st' rest
  end.

(** The dimensions with a known static size: the bounds first, then the
    reduction domain. *)
Definition known_size_dims (s : Schedule) : gmap string Expr :=
  let from_bounds :=
    fold_left (fun m b => <[bound_var b := bound_extent b]> m) (bounds s) ∅ in
  match reduction_domain s with
  | Some domain =>
      fold_left (fun m r => <[rvar_var r := rvar_extent r]> m) domain from_bounds
  | None => from_bounds
  end.

(** *** The containing lets and loops *)

Record Container := mkContainer {
  dim_idx : Z;             (* index in the dims list, -1 for a let *)
  c_name : string;
  c_value : option Expr }. (* undefined for a loop *)

(** One container per dim, the last dim first. *)
Definition loop_containers (prefix : string) (ds : list Dim) : list Container :=
  rev (imap (fun i d => mkContainer (Z.of_nat i) (prefix +:+ dim_var d) None) ds).

(** [while (const LetStmt *let = stmt.as<LetStmt>())]: the lets peeled
    off, outermost first, and what is left. *)
Fixpoint strip_lets (stmt : Stmt) : list Container * Stmt :=
  match stmt with
  | LetStmt n v body =>
      let '(cs, rest) := strip_lets body in
      (mkContainer (-1) n (Some v) :: cs, rest)
  | _ => ([], stmt)
  end.

Definition undefined_let : Error :=
  internal_error "Condition failed: nest[i].value.defined()".
Definition bad_index : Error :=
  undefined_behaviour "vector indexed past its end".

(** [for (j = i-1; j >= 0; j--)]: push the let at [j+1] up by one while
    its value does not use the name above it.  The argument is [j+1]. *)
Fixpoint push_up (j1 : nat) (nest : list Container) : Outcome (list Container) :=
  match j1 with
  | O => Ok nest
  | S j =>
      match nest !! (S j), nest !! j with
      | Some c1, Some c0 =>
          match c_value c1 with
          | None => Fail undefined_let
          | Some v =>
              if expr_uses_var v (c_name c0) then Ok nest
              else push_up j (swap_at nest (S j) j)
          end
      | _, _ => Fail bad_index
      end
  end.

(** [for (i = dims.size(); i < nest.size(); i++)], with [n] iterations
    left. *)
Fixpoint resort (n i : nat) (nest : list Container) : Outcome (list Container) :=
  match n with
  | O => Ok nest
  | S n' =>
      match nest !! i with
      | Some c =>
          match c_value c with
          | None => Fail undefined_let
          | Some _ => do nest' <- push_up i nest; resort n' (S i) nest'
          end
      | None => Fail bad_index
      end
  end.

(** Rewrapping, from the last container to the first. *)
Fixpoint rewrap (ds : list Dim) (nest : list Container) (stmt : Stmt)
  : Outcome Stmt :=
  match nest with
  | [] => Ok stmt
  | c :: rest =>
      do inner_stmt <- rewrap ds rest stmt;
      match c_value c with
      | Some v => Ok (LetStmt (c_name c) v inner_stmt)
      | None =>
          match ds !! Z.to_nat (dim_idx c) with
          | Some d =>
              Ok (For (c_name c) (var32 (c_name c +:+ ".loop_min"))
                      (var32 (c_name c +:+ ".loop_extent"))
                      (dim_for_type d) (dim_device_api d) inner_stmt)
          | None => Fail bad_index
          end
      end
  end.

(** *** Bounds of the split dimensions *)

Definition split_bounds (prefix : string) (split : Split) (stmt : Stmt) : Stmt :=
  let old_var_extent := var32 (prefix +:+ old_var split +:+ ".loop_extent") in
  let old_var_max := var32 (prefix +:+ old_var split +:+ ".loop_max") in
  let old_var_min := var32 (prefix +:+ old_var split +:+ ".loop_min") in
  match split_type split with
  | SplitVar =>
      let inner_extent :=
        if partial split
        then Bin Min (likely (factor split)) (Bin Add old_var_max (IntImm 1))
        else factor split in
      let outer_extent :=
        Bin Div (Bin Add (Bin Sub old_var_max old_var_min) (factor split))
                (factor split) in
      LetStmt (prefix +:+ outer split +:+ ".loop_extent") outer_extent
     (LetStmt (prefix +:+ outer split +:+ ".loop_max")
              (Bin Sub outer_extent (IntImm 1))
     (LetStmt (prefix +:+ outer split +:+ ".loop_min") (IntImm 0)
     (LetStmt (prefix +:+ inner split +:+ ".loop_extent") inner_extent
     (LetStmt (prefix +:+ inner split +:+ ".loop_max")
              (Bin Sub inner_extent (IntImm 1))
     (LetStmt (prefix +:+ inner split +:+ ".loop_min") (IntImm 0) stmt)))))
  | FuseVars =>
      let inner_extent := var32 (prefix +:+ inner split +:+ ".loop_extent") in
      let outer_extent := var32 (prefix +:+ outer split +:+ ".loop_extent") in
      let fused_extent := Bin Mul inner_extent outer_extent in
      LetStmt (prefix +:+ old_var split +:+ ".loop_extent") fused_extent
     (LetStmt (prefix +:+ old_var split +:+ ".loop_max")
              (Bin Sub fused_extent (IntImm 1))
     (LetStmt (prefix +:+ old_var split +:+ ".loop_min") (IntImm 0) stmt))
  | RenameVar =>
      LetStmt (prefix +:+ outer split +:+ ".loop_extent") old_var_extent
     (LetStmt (prefix +:+ outer split +:+ ".loop_max") old_var_max
     (LetStmt (prefix +:+ outer split +:+ ".loop_min") old_var_min stmt))
  end.

Definition outermost_bounds (prefix : string) (stmt : Stmt) : Stmt :=
  let o := prefix +:+ outermost_name in
  LetStmt (o +:+ ".loop_extent") (IntImm 1)
 (LetStmt (o +:+ ".loop_max") (IntImm 1)
 (LetStmt (o +:+ ".loop_min") (IntImm 0) stmt)).

Definition arg_bounds (prefix : string) (stmt : Stmt) (arg : string) : Stmt :=
  let var := prefix +:+ arg in
  let max := var32 (var +:+ ".max") in
  let min := var32 (var +:+ ".min") in
  LetStmt (var +:+ ".loop_max") max
 (LetStmt (var +:+ ".loop_min") min
 (LetStmt (var +:+ ".loop_extent") (Bin Sub (Bin Add max (IntImm 1)) min) stmt)).

(** *** The nest of one schedule, before its specializations *)

Definition build_stage (f : Function) (prefix : string)
           (site values : list Expr) (s : Schedule) (is_update : bool)
           (c : nat) : Outcome (Stmt * nat) :=
  let stmt := Provide (func_name f) values site in
  do r <- rebalance (splits s) c;
  let '(spl, c1) := r in
  let innermost := innermost_non_trivial_loop (dims s) in
  do st <- apply_splits prefix is_update innermost (stmt, known_size_dims s) spl;
  let '(lets, store) := strip_lets (fst st) in
  let nest := (loop_containers prefix (dims s) ++ lets)%list in
  do nest' <- resort (length nest - length (dims s)) (length (dims s)) nest;
  do stmt1 <- rewrap (dims s) nest' store;
  let stmt2 := fold_right (split_bounds prefix) stmt1 spl in
  let stmt3 := outermost_bounds prefix stmt2 in
  Ok (fold_left (arg_bounds prefix) (func_args f) stmt3, c1).

(** One specialization wrapped around [stmt], given its own nest. *)
Definition specialize (condition : Expr) (then_case stmt : Stmt) : Stmt :=
  match condition with
  | Bin EQ (Variable_ _ v) b =>
      let then_case' := simplify_exprs (substitute v b then_case) in
      let else_case :=
        if is_bool (type_of b)
        then simplify_exprs (substitute v (Not b) stmt) else stmt in
      IfThenElse condition then_case' else_case
  | Variable_ _ v =>
      let then_case' := simplify_exprs (substitute v const_true then_case) in
      let else_case := simplify_exprs (substitute v const_false stmt) in
      IfThenElse condition then_case' else_case
  | _ => IfThenElse condition then_case stmt
  end.

Fixpoint build_provide_loop_nest (f : Function) (prefix : string)
         (site values : list Expr) (s : Schedule) (is_update : bool)
         (c : nat) {struct s} : Outcome (Stmt * nat) :=
  do r <- build_stage f prefix site values s is_update c;
  match s with
  | mkSchedule _ _ _ _ _ _ specs _ _ =>
      (fix specialized (l : list (Expr * Schedule)) : Outcome (Stmt * nat) :=
         match l with
         | [] => Ok r
         | (condition, sched) :: rest =>
             do r1 <- specialized rest;
             do r2 <- build_provide_loop_nest f prefix site values sched
                                              is_update (snd r1);
             Ok (specialize condition (fst r2) (fst r1), snd r2)
         end) specs
  end.

End BuildProvideLoopNest.

(** ** Legal sites of a function (ComputeLegalSchedules) *)

Record Site := mkSite {
  is_parallel : bool;
  loop_level : LoopLevel }.

(** The visitor's members that change during a walk: [sites_allowed] and
    [found].  The stack [sites] is passed down. *)
Definition Legal : Type := list Site * bool.

Definition register_use (sites : list Site) (st : Legal) : Legal :=
  let '(sites_allowed, found) := st in
  if negb found then (sites, true)
  else
    (filter (fun s1 => existsb (fun s2 => ll_match (loop_level s1) (loop_level s2))
                              sites_allowed) sites, true).

(** The site a loop stands for: parallel when the loop is [Parallel] or
    [Vectorized]; the level is (text before the first dot, text after the
    last dot) of the loop's name. *)
Definition site_of_loop (name : string) (for_type : ForType) : Outcome Site :=
  match find_dot name, rfind_dot name with
  | Some first_dot, Some last_dot =>
      Ok (mkSite (ForType_eqb for_type Parallel || ForType_eqb for_type Vectorized)
                 (mkLoopLevel (String.substring 0 first_dot name)
                              (substr_from (S last_dot) name)))
  | _, _ =>
      Fail (internal_error
              "Condition failed: first_dot != string::npos && last_dot != string::npos")
  end.

Section ComputeLegalSchedules.

Variable func : string.   (* the name of the function looked for *)

(** A handle variable named [<func>.<...>.buffer] is a use. *)
Definition is_buffer_of (t : HType) (name : string) : bool :=
  HType_eqb t Handle && starts_with name (func +:+ ".") && ends_with name ".buffer".

Fixpoint legal_expr (sites : list Site) (st : Legal) (e : Expr) : Legal :=
  match e with
  | IntImm _ | StringImm _ => st
  | Cast _ v => legal_expr sites st v
  | Variable_ t n => if is_buffer_of t n then register_use sites st else st
  | Bin _ a b => legal_expr sites (legal_expr sites st a) b
  | Not a => legal_expr sites st a
  | Select c t f => legal_expr sites (legal_expr sites (legal_expr sites st c) t) f
  | Load _ _ i => legal_expr sites st i
  | Ramp b s _ => legal_expr sites (legal_expr sites st b) s
  | Broadcast v _ => legal_expr sites st v
  | Call _ n args _ =>
      let st' := fold_left (legal_expr sites) args st in
      if String.eqb n func then register_use sites st' else st'
  | Let_ _ v b => legal_expr sites (legal_expr sites st v) b
  end.

Definition legal_exprs (sites : list Site) (st : Legal) (l : list Expr) : Legal :=
  fold_left (legal_expr sites) l st.

Fixpoint legal_stmt (sites : list Site) (st : Legal) (s : Stmt) : Outcome Legal :=
  match s with
  | NoStmt => Ok st
  | LetStmt _ v body => legal_stmt sites (legal_expr sites st v) body
  | AssertStmt c m => Ok (legal_expr sites (legal_expr sites st c) m)
  | ProducerConsumer _ produce update consume =>
      do st1 <- legal_stmt sites st produce;
      do st2 <- legal_stmt sites st1 update;
      legal_stmt sites st2 consume
  | For name min extent for_type _ body =>
      let st1 := legal_expr sites (legal_expr sites st min) extent in
      do site <- site_of_loop name for_type;
      legal_stmt (sites ++ [site])%list st1 body
  | Store _ v i => Ok (legal_expr sites (legal_expr sites st v) i)
  | Provide _ values args => Ok (legal_exprs sites (legal_exprs sites st values) args)
  | Allocate _ _ extents c body =>
      legal_stmt sites (legal_expr sites (legal_exprs sites st extents) c) body
  | Free _ => Ok st
  | Realize _ _ bnds c body =>
      let st1 := fold_left (fun acc b =>
                    legal_expr sites (legal_expr sites acc (fst b)) (snd b)) bnds st in
      legal_stmt sites (legal_expr sites st1 c) body
  | Block first rest =>
      do st1 <- legal_stmt sites st first; legal_stmt sites st1 rest
  | IfThenElse c t e =>
      do st1 <- legal_stmt sites (legal_expr sites st c) t; legal_stmt sites st1 e
  | Evaluate v => Ok (legal_expr sites st v)
  end.

(** [ComputeLegalSchedules legal(f); s.accept(&legal); legal.sites_allowed]. *)
Definition sites_allowed (s : Stmt) : Outcome (list Site) :=
  do st <- legal_stmt [] ([], false) s; Ok (fst st).

End ComputeLegalSchedules.

(** ** Printing a schedule and the uses of a function *)

Definition schedule_to_source (f : Function) (store_at compute_at : LoopLevel)
  : string :=
  func_name f +:+
  (if is_inline compute_at then ".compute_inline()"
   else
     let store_var_name :=
       if String.eqb (ll_var store_at) outermost_name
       then "Var::outermost()" else ll_var store_at in
     let compute_var_name :=
       if String.eqb (ll_var compute_at) outermost_name
       then "Var::outermost()" else ll_var compute_at in
     (if negb (ll_match store_at compute_at) then
        if is_root store_at then ".store_root()"
        else ".store_at(" +:+ ll_func store_at +:+ ", " +:+ store_var_name +:+ ")"
      else EmptyString) +:+
     (if is_root compute_at then ".compute_root()"
      else ".compute_at(" +:+ ll_func compute_at +:+ ", " +:+ compute_var_name +:+ ")"))
  +:+ ";".

Section UsesOfFunc.

Variable func : string.

(** StmtUsesFunc: some call in the statement names [func]. *)
Fixpoint expr_calls (e : Expr) : bool :=
  match e with
  | IntImm _ | StringImm _ | Variable_ _ _ => false
  | Cast _ v | Not v | Load _ _ v | Broadcast v _ => expr_calls v
  | Bin _ a b | Ramp a b _ | Let_ _ a b => expr_calls a || expr_calls b
  | Select c t f => expr_calls c || expr_calls t || expr_calls f
  | Call _ n args _ => String.eqb n func || existsb expr_calls args
  end.

Fixpoint stmt_uses_func (s : Stmt) : bool :=
  match s with
  | NoStmt | Free _ => false
  | LetStmt _ v body => expr_calls v || stmt_uses_func body
  | AssertStmt c m => expr_calls c || expr_calls m
  | ProducerConsumer _ p u c =>
      stmt_uses_func p || stmt_uses_func u || stmt_uses_func c
  | For _ min extent _ _ body =>
      expr_calls min || expr_calls extent || stmt_uses_func body
  | Store _ v i => expr_calls v || expr_calls i
  | Provide _ values args => existsb expr_calls values || existsb expr_calls args
  | Allocate _ _ extents c body =>
      existsb expr_calls extents || expr_calls c || stmt_uses_func body
  | Realize _ _ bnds c body =>
      existsb (fun b => expr_calls (fst b) || expr_calls (snd b)) bnds
      || expr_calls c || stmt_uses_func body
  | Block first rest => stmt_uses_func first || stmt_uses_func rest
  | IfThenElse c t e => expr_calls c || stmt_uses_func t || stmt_uses_func e
  | Evaluate v => expr_calls v
  end.

(** PrintUsesOfFunc.  The text written so far and
    [last_print_was_ellipsis] are threaded; [indent] and [caller] are
    passed down, as the visitor restores them on the way out. *)
Definition Printed : Type := list Piece * bool.

Definition do_indent (indent : nat) : list Piece := repeat (Txt "  ") indent.

Fixpoint print_expr (indent : nat) (caller : string) (st : Printed) (e : Expr)
  : Printed :=
  match e with
  | IntImm _ | StringImm _ | Variable_ _ _ => st
  | Cast _ v | Not v | Load _ _ v | Broadcast v _ => print_expr indent caller st v
  | Bin _ a b | Ramp a b _ | Let_ _ a b =>
      print_expr indent caller (print_expr indent caller st a) b
  | Select c t f =>
      print_expr indent caller
        (print_expr indent caller (print_expr indent caller st c) t) f
  | Call _ n args _ =>
      if String.eqb n func then
        ((fst st ++ do_indent indent
            ++ [Txt caller; Txt " uses "; Txt func; Txt nl])%list, false)
      else fold_left (print_expr indent caller) args st
  end.

Definition print_exprs (indent : nat) (caller : string) (st : Printed)
           (l : list Expr) : Printed :=
  fold_left (print_expr indent caller) l st.

Fixpoint print_stmt (indent : nat) (caller : string) (st : Printed) (s : Stmt)
  : Printed :=
  match s with
  | NoStmt | Free _ => st
  | LetStmt _ v body => print_stmt indent caller (print_expr indent caller st v) body
  | AssertStmt c m => print_expr indent caller (print_expr indent caller st c) m
  | ProducerConsumer name produce update consume =>
      let st1 := print_stmt indent name st produce in
      let st2 := print_stmt indent name st1 update in
      print_stmt indent caller st2 consume
  | For name min extent _ _ body =>
      if ends_with name outermost_name || ends_with name root_var_name then
        print_stmt indent caller
          (print_expr indent caller (print_expr indent caller st min) extent) body
      else
        let '(st1, indent1) :=
          if negb (stmt_uses_func body) then
            (if negb (snd st)
             then ((fst st ++ do_indent indent ++ [Txt "..."; Txt nl])%list, true)
             else st, indent)
          else
            ((fst st ++ do_indent indent ++ [Txt "for "; Txt name; Txt ":"; Txt nl])%list,
             false, S indent) in
        print_stmt indent1 caller
          (print_expr indent1 caller (print_expr indent1 caller st1 min) extent) body
  | Store _ v i => print_expr indent caller (print_expr indent caller st v) i
  | Provide _ values args =>
      print_exprs indent caller (print_exprs indent caller st values) args
  | Allocate _ _ extents c body =>
      print_stmt indent caller
        (print_expr indent caller (print_exprs indent caller st extents) c) body
  | Realize _ _ bnds c body =>
      let st1 := fold_left (fun acc b =>
                    print_expr indent caller
                      (print_expr indent caller acc (fst b)) (snd b)) bnds st in
      print_stmt indent caller (print_expr indent caller st1 c) body
  | Block first rest =>
      print_stmt indent caller (print_stmt indent caller st first) rest
  | IfThenElse c t e =>
      print_stmt indent caller
        (print_stmt indent caller (print_expr indent caller st c) t) e
  | Evaluate v => print_expr indent caller st v
  end.

Definition print_uses_of_func (s : Stmt) : list Piece :=
  fst (print_stmt 1 EmptyString ([], false) s).

End UsesOfFunc.

(** ** validate_schedule *)

(** [for (const ExternFuncArgument &arg : f.extern_arguments())]: the
    first function argument scheduled inline ends compilation. *)
Fixpoint extern_inputs_check (f_name : string) (args : list ExternFuncArgument)
  : Outcome unit :=
  match args with
  | [] => Ok tt
  | FuncArg g :: rest =>
      if is_inline (compute_level (func_schedule g)) then
        Fail (user_error
                [ Txt "Func "; Txt (func_name g);
                  Txt " cannot be scheduled to be computed inline, ";
                  Txt "because it is used in the externally-computed function ";
                  Txt f_name; Txt nl ])
      else extern_inputs_check f_name rest
  | _ :: rest => extern_inputs_check f_name rest
  end.

Definition extern_check (f : Function) : Outcome unit :=
  if has_extern_definition f
  then extern_inputs_check (func_name f) (extern_arguments f)
  else Ok tt.

(** The warnings written to [std::cerr] about update steps left
    unscheduled. *)
Definition update_warnings (f : Function) : list (list Piece) :=
  let any_scheduled :=
    touched (func_schedule f)
    || existsb (fun r => touched (update_schedule r)) (func_updates f) in
  if any_scheduled then
    concat (imap (fun i r =>
              if touched (update_schedule r) then []
              else [[ Txt "Warning: Update step "; Num (Z.of_nat i);
                      Txt " of function "; Txt (func_name f);
                      Txt " has not been scheduled, even though some other";
                      Txt " steps have been. You may have forgotten to";
                      Txt " schedule it. If this was intentional, call ";
                      Txt (func_name f); Txt ".update("; Num (Z.of_nat i);
                      Txt ") to suppress"; Txt " this warning."; Txt nl ]])
            (func_updates f))
  else [].

Definition output_not_root (f : Function) : list Piece :=
  [ Txt "Func "; Txt (func_name f); Txt " is the output, so must";
    Txt " be scheduled compute_root (which is the default)."; Txt nl ].

(** The loop that looks [store_at] and [compute_at] up in the legal sites:
    (store_at_ok, compute_at_ok, store_idx, compute_idx) after the sites
    from index [i] on. *)
Fixpoint match_sites (store_at compute_at : LoopLevel) (sites : list Site)
         (i : nat) (st : bool * bool * nat * nat) : bool * bool * nat * nat :=
  match sites with
  | [] => st
  | site :: rest =>
      let '(store_at_ok, compute_at_ok, store_idx, compute_idx) := st in
      let '(store_at_ok1, store_idx1) :=
        if ll_match (loop_level site) store_at then (true, i)
        else (store_at_ok, store_idx) in
      let '(compute_at_ok1, compute_idx1) :=
        if ll_match (loop_level site) compute_at then (store_at_ok1, i)
        else (compute_at_ok, compute_idx) in
      match_sites store_at compute_at rest (S i)
                  (store_at_ok1, compute_at_ok1, store_idx1, compute_idx1)
  end.

(** [for (i = store_idx + 1; i <= compute_idx; i++)], with [n] iterations
    left: the parallel sites met. *)
Fixpoint parallel_between (n i : nat) (sites : list Site) : list Site :=
  match n with
  | O => []
  | S n' =>
      match sites !! i with
      | Some site =>
          if is_parallel site then site :: parallel_between n' (S i) sites
          else parallel_between n' (S i) sites
      | None => []
      end
  end.

Definition stored_outside : string :=
  dq +:+ " is stored outside the parallel loop over ".

Definition race_message (f : Function) (site : Site) : list Piece :=
  [ Txt ("Func " +:+ dq); Txt (func_name f); Txt stored_outside;
    Txt (ll_func (loop_level site)); Txt "."; Txt (ll_var (loop_level site));
    Txt " but computed within it. This is a potential race condition.";
    Txt nl ].

Definition invalid_location (f : Function) (s : Stmt) (sites : list Site)
           (store_at compute_at : LoopLevel) : list Piece :=
  ([ Txt ("Func " +:+ dq); Txt (func_name f);
     Txt (dq +:+ " is computed at the following invalid location:"); Txt nl;
     Txt "  "; Txt (schedule_to_source f store_at compute_at); Txt nl;
     Txt "Legal locations for this function are:"; Txt nl ]
   ++ concat (map (fun site =>
                 [ Txt "  ";
                   Txt (schedule_to_source f (loop_level site) (loop_level site));
                   Txt nl ]) sites)
   ++ [ Txt dq; Txt (func_name f);
        Txt (dq +:+ " is used in the following places:"); Txt nl ]
   ++ print_uses_of_func (func_name f) s)%list.

(** A user error that opens with the race-condition note. *)
Definition is_race_error (e : Error) : bool :=
  match e with
  | user_error (_ :: _ :: Txt t :: _) => String.eqb t stored_outside
  | _ => false
  end.

(** The check of the two levels against the legal sites. *)
Definition check_sites (f : Function) (s : Stmt) (sites : list Site)
           (store_at compute_at : LoopLevel) : Outcome unit :=
  let '(store_at_ok, compute_at_ok, store_idx, compute_idx) :=
    match_sites store_at compute_at sites 0 (false, false, O, O) in
  let races :=
    if store_at_ok && compute_at_ok
    then parallel_between (compute_idx - store_idx) (S store_idx) sites
    else [] in
  let err := concat (map (race_message f) races) in
  let ok := store_at_ok && compute_at_ok
            && match races with [] => true | _ => false end in
  if ok then Ok tt
  else Fail (user_error (err ++ invalid_location f s sites store_at compute_at)).

Definition check_levels (f : Function) (s : Stmt) (is_output : bool)
  : Outcome unit :=
  let store_at := store_level (func_schedule f) in
  let compute_at := compute_level (func_schedule f) in
  if is_output then
    if is_root store_at && is_root compute_at then Ok tt
    else Fail (user_error (output_not_root f))
  else if is_inline store_at && is_inline compute_at then Ok tt
  else
    do sites <- sites_allowed (func_name f) s;
    check_sites f s sites store_at compute_at.

(** The warnings printed, and whether validation let the schedule pass. *)
Definition validate_schedule (f : Function) (s : Stmt) (is_output : bool)
  : list (list Piece) * Outcome unit :=
  match extern_check f with
  | Fail e => ([], Fail e)
  | Ok _ => (update_warnings f, check_levels f s is_output)
  end.

(** ** RemoveLoopsOverOutermost and PropagateLoopDeviceAPI *)

Definition outermost_loop : string := ".__outermost".
Definition outermost_extent : string := ".__outermost.loop_extent".
Definition outermost_min : string := ".__outermost.loop_min".
Definition outermost_max : string := ".__outermost.loop_max".

Definition is_outermost_bound (name : string) : bool :=
  ends_with name outermost_extent || ends_with name outermost_min
  || ends_with name outermost_max.

Fixpoint remove_expr (e : Expr) : Expr :=
  match e with
  | IntImm _ | StringImm _ => e
  | Cast t v => Cast t (remove_expr v)
  | Variable_ t n =>
      if ends_with n outermost_extent then IntImm 1
      else if ends_with n outermost_min then IntImm 0
      else if ends_with n outermost_max then IntImm 1
      else e
  | Bin op a b => Bin op (remove_expr a) (remove_expr b)
  | Not a => Not (remove_expr a)
  | Select c t f => Select (remove_expr c) (remove_expr t) (remove_expr f)
  | Load t n i => Load t n (remove_expr i)
  | Ramp b s w => Ramp (remove_expr b) (remove_expr s) w
  | Broadcast v w => Broadcast (remove_expr v) w
  | Call t n args ct => Call t n (map remove_expr args) ct
  | Let_ n v b => Let_ n (remove_expr v) (remove_expr b)
  end.

Fixpoint remove_stmt (s : Stmt) : Stmt :=
  match s with
  | NoStmt => NoStmt
  | LetStmt n v body =>
      if is_outermost_bound n then remove_stmt body
      else LetStmt n (remove_expr v) (remove_stmt body)
  | AssertStmt c m => AssertStmt (remove_expr c) (remove_expr m)
  | ProducerConsumer n p u c =>
      ProducerConsumer n (remove_stmt p) (remove_stmt u) (remove_stmt c)
  | For n min extent ft dev body =>
      if ends_with n outermost_loop then remove_stmt body
      else For n (remove_expr min) (remove_expr extent) ft dev (remove_stmt body)
  | Store n v i => Store n (remove_expr v) (remove_expr i)
  | Provide n values args => Provide n (map remove_expr values) (map remove_expr args)
  | Allocate n t extents c body =>
      Allocate n t (map remove_expr extents) (remove_expr c) (remove_stmt body)
  | Free n => Free n
  | Realize n ts bnds c body =>
      Realize n ts (map (fun b => (remove_expr (fst b), remove_expr (snd b))) bnds)
              (remove_expr c) (remove_stmt body)
  | Block first rest => Block (remove_stmt first) (remove_stmt rest)
  | IfThenElse c t e => IfThenElse (remove_expr c) (remove_stmt t) (remove_stmt e)
  | Evaluate v => Evaluate (remove_expr v)
  end.

Definition DeviceAPI_eqb (a b : DeviceAPI) : bool :=
  match a, b with
  | Parent, Parent | Host, Host | Default_GPU, Default_GPU
  | CUDA, CUDA | OpenCL, OpenCL | GLSL, GLSL => true
  | _, _ => false
  end.

(** The mutator rewrites loops only; expressions hold no loop. *)
Fixpoint propagate_device (for_device : DeviceAPI) (s : Stmt) : Stmt :=
  match s with
  | NoStmt | AssertStmt _ _ | Store _ _ _ | Provide _ _ _ | Free _ | Evaluate _ => s
  | LetStmt n v body => LetStmt n v (propagate_device for_device body)
  | ProducerConsumer n p u c =>
      ProducerConsumer n (propagate_device for_device p)
                       (propagate_device for_device u)
                       (propagate_device for_device c)
  | For n min extent ft dev body =>
      let for_device' := if DeviceAPI_eqb dev Parent then for_device else dev in
      For n min extent ft for_device' (propagate_device for_device' body)
  | Allocate n t extents c body =>
      Allocate n t extents c (propagate_device for_device body)
  | Realize n ts bnds c body => Realize n ts bnds c (propagate_device for_device body)
  | Block first rest =>
      Block (propagate_device for_device first) (propagate_device for_device rest)
  | IfThenElse c t e =>
      IfThenElse c (propagate_device for_device t) (propagate_device for_device e)
  end.

(** ** schedule_functions *)

Section ScheduleFunctions.

(** [inline_function] (Inline.h), the realization injector with its
    closing [internal_assert] that both levels were found, and the
    identity test [o.same_as(f)] on function handles. *)
Variable inline_function : Stmt -> Function -> Stmt.
Variable inject_realization : Function -> bool -> bool -> Stmt -> Outcome Stmt.
Variable same_as : Function -> Function -> bool.

Definition root_loop_name : string :=
  ll_func LoopLevel_root +:+ "." +:+ ll_var LoopLevel_root.

Definition root_loop : Stmt :=
  For root_loop_name (IntImm 0) (IntImm 1) Serial Host (Evaluate (IntImm 0)).

(** The state of the loop over [order]: the statement, [any_memoized]
    and the warnings printed so far. *)
Definition Lowering : Type := Stmt * bool * list (list Piece).

Definition schedule_function (outputs : list Function)
           (env : gmap string Function) (inject_asserts : bool)
           (st : Lowering) (fname : string) : Outcome Lowering :=
  let '(s, any_memoized, warnings) := st in
  match env !! fname with
  | None => Fail (undefined_behaviour "env.find(name) is env.end()")
  | Some f =>
      let is_output := existsb (fun o => same_as o f) outputs in
      let '(w, valid) := validate_schedule f s is_output in
      do _ <- valid;
      do s' <-
        (if has_pure_definition f && negb (has_update_definition f)
            && is_inline (compute_level (func_schedule f))
         then Ok (inline_function s f)
         else inject_realization f is_output inject_asserts s);
      Ok (s', any_memoized || memoized (func_schedule f), (warnings ++ w)%list)
  end.

(** [for (size_t i = order.size(); i > 0; i--)]: the last name first. *)
Fixpoint schedule_all (outputs : list Function) (env : gmap string Function)
         (inject_asserts : bool) (order : list string) (st : Lowering)
  : Outcome Lowering :=
  match order with
  | [] => Ok st
  | fname :: rest =>
      do st' <- schedule_all outputs env inject_asserts rest st;
      schedule_function outputs env inject_asserts st' fname
  end.

(** The tail of the function: drop the loop over root, remove the loops
    over [__outermost], propagate the device of each loop. *)
Definition finish (s : Stmt) : Outcome Stmt :=
  match s with
  | For _ _ _ _ _ body => Ok (propagate_device Host (remove_stmt body))
  | _ => Fail (internal_error "Condition failed: root_loop")
  end.

Definition schedule_functions (outputs : list Function) (order : list string)
           (env : gmap string Function) (inject_asserts : bool)
  : Outcome (Stmt * bool) :=
  do st <- schedule_all outputs env inject_asserts order (root_loop, false, []);
  let '(s, any_memoized, _) := st in
  do s' <- finish s;
  Ok (s', any_memoized).

End ScheduleFunctions.

(** ** Machine numbers of the auto-scheduler

    [float] is IEEE binary32, computed with the reference operations of
    [SpecFloat] (round to nearest even); [int] and [long long] wrap. *)

Definition float : Type := spec_float.
Definition prec : Z := 24.
Definition emax : Z := 128.

Definition float_of_Z (z : Z) : float := binary_normalize prec emax z 0 false.
Definition fadd : float -> float -> float := SFadd prec emax.
Definition fsub : float -> float -> float := SFsub prec emax.
Definition fmul : float -> float -> float := SFmul prec emax.
Definition fdiv : float -> float -> float := SFdiv prec emax.
Definition flt : float -> float -> bool := SFltb.
Definition feq : float -> float -> bool := SFeqb.

Definition fzero : float := S754_zero false.
Definition minus_one : float := float_of_Z (-1).

(** [std::max(a, b)] is [(a < b) ? b : a]. *)
Definition fmax (a b : float) : float := if flt a b then b else a.

(** [std::ceil] on a float. *)
Definition fceil (x : float) : float :=
  match x with
  | S754_finite s m e =>
      if 0 <=? e then x
      else
        let d := 2 ^ (- e) in
        let q := if s then - (Z.pos m / d) else (Z.pos m + d - 1) / d in
        if q =? 0 then S754_zero s else float_of_Z q
  | _ => x
  end.

(** Conversion of a float to a signed integer of [w] bits: truncation,
    undefined when the value does not fit. *)
Definition float_to_integer (w : Z) (x : float) : option Z :=
  match x with
  | S754_zero _ => Some 0
  | S754_finite s m e =>
      let a := if 0 <=? e then Z.pos m * 2 ^ e else Z.pos m / 2 ^ (- e) in
      let v := if s then - a else a in
      if (- 2 ^ (w - 1) <=? v) && (v <? 2 ^ (w - 1)) then Some v else None
  | _ => None
  end.

Definition wrap (w : Z) (z : Z) : Z :=
  (z + 2 ^ (w - 1)) mod 2 ^ w - 2 ^ (w - 1).
Definition wrap32 : Z -> Z := wrap 32.
Definition wrap64 : Z -> Z := wrap 64.

(** ** The partitioner *)

(** String keys in the order [std::map] iterates them. *)
Definition string_le (a b : string) : Prop := String.leb a b = true.

#[local] Instance string_le_dec (a b : string) : Decision (string_le a b) :=
  decide (String.leb a b = true).

Definition sorted_keys {A} (m : gmap string A) : list string :=
  merge_sort string_le (map fst (map_to_list m)).

Inductive Level := INLINE | FAST_MEM.

Record Option := mkOption {
  prod_group : string;
  cons_group : string;
  tile_sizes : list Z;
  benefit : float;
  redundant_work : float }.

Record GroupSched := mkGroupSched {
  gs_tile_sizes : list Z;
  gs_benefit : Z }.

Record MachineParams := mkMachineParams {
  parallelism : Z;
  vec_len : Z;
  fast_mem_size : Z;
  inline_size : Z;
  balance_fast_mem : Z;
  balance_inline : Z }.

(** What the partitioner reads and writes of a function in [analy.env]. *)
Record FuncInfo := mkFuncInfo {
  fi_args : list string;
  fi_output_bytes : list Z;
  fi_store_level : LoopLevel;
  fi_compute_level : LoopLevel }.

Record Partitioner := mkPartitioner {
  inlines : gmap string string;
  env : gmap string FuncInfo;
  groups : gmap string (list string);
  group_sched : gmap string GroupSched;
  children : gmap string (gset string);
  func_dim_estimates : gmap string (list Z);
  func_op : gmap string Z;
  func_mem : gmap string Z;
  option_cache : gmap (string * string) Option;
  arch_params : MachineParams }.

Definition set_benefit (opt : Option) (b : float) : Option :=
  mkOption (prod_group opt) (cons_group opt) (tile_sizes opt) b (redundant_work opt).
Definition set_redundant_work (opt : Option) (r : float) : Option :=
  mkOption (prod_group opt) (cons_group opt) (tile_sizes opt) (benefit opt) r.
Definition set_tile_sizes (opt : Option) (t : list Z) : Option :=
  mkOption (prod_group opt) (cons_group opt) t (benefit opt) (redundant_work opt).

(** [opt.benefit = -1; opt.redundant_work = -1; return;] *)
Definition discard (opt : Option) : Option :=
  set_redundant_work (set_benefit opt minus_one) minus_one.

(** The cost model at the end of [evaluate_option], from the assignment
    of [opt.redundant_work] on. *)
Definition cost_model (arch : MachineParams) (l : Level)
           (inter_s total_mem estimate_tiles original_work : Z)
           (total_work : float) (opt : Option) : Outcome Option :=
  let opt1 :=
    set_redundant_work opt (fmax (fsub total_work (float_of_Z original_work)) fzero) in
  if negb ((0 <? total_mem) && flt (float_of_Z 0) total_work) then
    Fail (internal_error "Assertion failed: total_mem > 0 && total_work > 0")
  else
    let opt2 :=
      match l with
      | INLINE =>
          if inter_s <=? inline_size arch then
            set_benefit opt1
              (fsub (float_of_Z (wrap64 (total_mem * balance_inline arch)))
                    (redundant_work opt1))
          else if inter_s <=? wrap64 (2 * inline_size arch) then
            let hit :=
              fdiv (float_of_Z (Z.max (wrap64 (wrap64 (2 * inline_size arch) - inter_s)) 0))
                   (float_of_Z inter_s) in
            let loads_saved := fmul hit (float_of_Z total_mem) in
            set_benefit opt1
              (fsub (fmul loads_saved (float_of_Z (balance_inline arch)))
                    (redundant_work opt1))
          else opt1
      | FAST_MEM =>
          if inter_s <=? fast_mem_size arch then
            set_benefit opt1
              (fsub (float_of_Z (wrap64 (total_mem * balance_fast_mem arch)))
                    (redundant_work opt1))
          else if inter_s <=? wrap64 (2 * fast_mem_size arch) then
            let hit :=
              fdiv (float_of_Z (Z.max (wrap64 (wrap64 (2 * fast_mem_size arch) - inter_s)) 0))
                   (float_of_Z inter_s) in
            let loads_saved := fmul hit (float_of_Z total_mem) in
            set_benefit opt1
              (fsub (fmul loads_saved (float_of_Z (balance_fast_mem arch)))
                    (redundant_work opt1))
          else opt1
      end in
    if estimate_tiles <? parallelism arch
    then Ok (set_benefit opt2 minus_one)
    else Ok opt2.

Section Grouping.

(** The region analysis behind [evaluate_option]: from the producers of
    the option, the consumer group and the tile bounds of each of its
    dimensions, the size of the intermediates ([region_size] of
    [mem_reg]; the level and the inline map decide which producers
    count) and the work of one tile ([region_cost] of [prod_comp]). *)
Variable inter_s_of :
  list string -> string -> list (Z * Z) -> Level -> gmap string string -> Z.
Variable work_per_tile_of : list string -> string -> list (Z * Z) -> Z.
(** The value of a float member that was never assigned. *)
Variable indeterminate_float : float.

(** The tile size kept on one dimension: a tile larger than the
    dimension is switched off. *)
Definition fit_tile (tile dim_estimate : Z) : Z :=
  if negb (tile =? -1) then
    if tile <=? dim_estimate then tile else -1
  else tile.

Definition tile_bound (tile dim_estimate : Z) : Z * Z :=
  if negb (tile =? -1) then (0, wrap32 (tile - 1))
  else (0, wrap32 (dim_estimate - 1)).

(** Counting the tiles: [estimate_tiles] and [partial_tiles]. *)
Fixpoint count_tiles (tiles dim_estimates : list Z) (st : Z * float)
  : Outcome (Z * float) :=
  match tiles, dim_estimates with
  | t :: tiles', d :: dim_estimates' =>
      if negb (t =? -1) then
        let q := fdiv (float_of_Z d) (float_of_Z t) in
        match float_to_integer 64 (fmul (float_of_Z (fst st)) (fceil q)) with
        | Some n => count_tiles tiles' dim_estimates' (n, fmul (snd st) q)
        | None => Fail (undefined_behaviour "float out of the range of long long")
        end
      else count_tiles tiles' dim_estimates' st
  | _, _ => Ok st
  end.

(** [original_work] and [total_mem] over the producers; [None] when
    some producer has no cost ([func_op[f] == -1]). *)
Fixpoint sum_costs (ops mems : gmap string Z) (prod_funcs : list string)
         (st : Z * Z) : option (Z * Z) :=
  match prod_funcs with
  | [] => Some st
  | f :: rest =>
      if negb (default 0 (ops !! f) =? -1) then
        sum_costs ops mems rest
                  (wrap64 (fst st + default 0 (ops !! f)),
                   wrap64 (snd st + default 0 (mems !! f)))
      else None
  end.

Definition evaluate_option (p : Partitioner) (opt : Option) (l : Level)
  : Outcome Option :=
  let prod_funcs :=
    (default [] (groups p !! prod_group opt)
     ++ filter (fun f => negb (String.eqb f (cons_group opt)))
               (default [] (groups p !! cons_group opt)))%list in
  let args := default [] (fi_args <$> env p !! cons_group opt) in
  if negb (length (tile_sizes opt) =? length args)%nat then
    Fail (internal_error "Assertion failed: opt.tile_sizes.size() == args.size()")
  else
  let estimates := default [] (func_dim_estimates p !! cons_group opt) in
  if (length estimates <? length args)%nat then Fail bad_index
  else
  let dim_estimates_cons := take (length args) estimates in
  if existsb (Z.eqb (-1)) dim_estimates_cons then Ok (discard opt)
  else
  let tiles := zip_with fit_tile (tile_sizes opt) dim_estimates_cons in
  let opt1 := set_tile_sizes opt tiles in
  let tile_bounds := zip_with tile_bound tiles dim_estimates_cons in
  do counted <- count_tiles tiles dim_estimates_cons (1, float_of_Z 1);
  let '(estimate_tiles, partial_tiles) := counted in
  let inter_s :=
    inter_s_of prod_funcs (cons_group opt) tile_bounds l (inlines p) in
  let work_per_tile := work_per_tile_of prod_funcs (cons_group opt) tile_bounds in
  let total_work := fmul (float_of_Z work_per_tile) partial_tiles in
  match sum_costs (func_op p) (func_mem p) prod_funcs (0, 0) with
  | None => Ok (discard opt1)
  | Some (original_work, total_mem0) =>
      let total_mem :=
        if negb (total_mem0 =? -1)
        then wrap64 (total_mem0 + default 0 (func_mem p !! cons_group opt))
        else total_mem0 in
      cost_model (arch_params p) l inter_s total_mem estimate_tiles
                 original_work total_work opt1
  end.

(** A default-constructed [Option] whose [benefit] is then set to -1. *)
Definition no_option : Option :=
  mkOption EmptyString EmptyString [] minus_one indeterminate_float.

Definition fresh_option (pr : string * string) (tiles : list Z) : Option :=
  mkOption (fst pr) (snd pr) tiles minus_one indeterminate_float.

(** [if (best_opt.benefit < cand_opt.benefit) best_opt = cand_opt;] *)
Definition better (best_opt cand_opt : Option) : Option :=
  if flt (benefit best_opt) (benefit cand_opt) then cand_opt else best_opt.

Definition num_args (p : Partitioner) (f : string) : nat :=
  length (default [] (fi_args <$> env p !! f)).

(** The candidate of one pair in the INLINE phase. *)
Definition inline_candidate (p : Partitioner) (pr : string * string)
  : Outcome Option :=
  let n := num_args p (snd pr) in
  do cand_opt <- evaluate_option p (fresh_option pr (repeat 1 n)) INLINE;
  Ok (set_tile_sizes cand_opt (repeat 1 n)).

Definition size_variants : list Z := [256; 128; 64; 32; 16; 8].

(** The options of one pair in the FAST_MEM phase, in the order they are
    tried: the dimension index from the last to the first, and the size
    variants for each. *)
Definition tilings (n : nat) : list (list Z) :=
  concat (map (fun i => map (fun s => (repeat (-1) i ++ repeat s (n - i))%list)
                            size_variants)
              (rev (seq 0 n))).

Fixpoint best_tiling (p : Partitioner) (pr : string * string)
         (cand_best_opt : Option) (tries : list (list Z)) : Outcome Option :=
  match tries with
  | [] => Ok cand_best_opt
  | tiles :: rest =>
      do opt <- evaluate_option p (fresh_option pr tiles) FAST_MEM;
      best_tiling p pr (better cand_best_opt opt) rest
  end.

(** The producer's output size, and whether a dimension has no
    estimate. *)
Fixpoint prod_size (n : nat) (estimates : list Z) (st : bool * Z)
  : Outcome (bool * Z) :=
  match n with
  | O => Ok st
  | S n' =>
      match estimates with
      | d :: rest =>
          if d =? -1 then prod_size n' rest (true, snd st)
          else prod_size n' rest (fst st, wrap64 (snd st * d))
      | [] => Fail bad_index
      end
  end.

Definition fast_mem_candidate (p : Partitioner) (pr : string * string)
  : Outcome Option :=
  let n := num_args p (snd pr) in
  let bytes :=
    fold_left (fun acc b => wrap64 (acc + b))
              (default [] (fi_output_bytes <$> env p !! fst pr)) 0 in
  do sized <- prod_size (num_args p (fst pr))
                        (default [] (func_dim_estimates p !! fst pr))
                        (false, bytes);
  let invalid :=
    fst sized || (snd sized <? fast_mem_size (arch_params p)) in
  let cand_best_opt := fresh_option pr [] in
  if negb invalid then best_tiling p pr cand_best_opt (tilings n)
  else Ok cand_best_opt.

(** [choose_candidate_inline] and [choose_candidate]: the best option
    over the candidate pairs, and the option cache after the call. *)
Fixpoint choose (candidate : Partitioner -> string * string -> Outcome Option)
         (p : Partitioner) (cand_pairs : list (string * string))
         (st : Option * gmap (string * string) Option)
  : Outcome (Option * gmap (string * string) Option) :=
  match cand_pairs with
  | [] => Ok st
  | pr :: rest =>
      let '(best_opt, cache) := st in
      match cache !! pr with
      | Some cand_opt => choose candidate p rest (better best_opt cand_opt, cache)
      | None =>
          do cand_opt <- candidate p pr;
          choose candidate p rest
                 (better best_opt cand_opt, <[pr := cand_opt]> cache)
      end
  end.

Definition choose_candidate_inline (p : Partitioner)
           (cand_pairs : list (string * string)) :=
  choose inline_candidate p cand_pairs (no_option, option_cache p).

Definition choose_candidate (p : Partitioner)
           (cand_pairs : list (string * string)) :=
  choose fast_mem_candidate p cand_pairs (no_option, option_cache p).

(** The groups that have exactly one child, with that child. *)
Definition candidate_pairs (p : Partitioner) : list (string * string) :=
  omap (fun g =>
          match children p !! g with
          | Some cs =>
              match elements cs with
              | [c] => Some (g, c)
              | _ => None
              end
          | None => None
          end)
       (sorted_keys (groups p)).

Definition merge_groups (p : Partitioner) (cand_group child_group : string)
  : Outcome Partitioner :=
  match groups p !! child_group with
  | None =>
      Fail (internal_error
              "Assertion failed: groups.find(child_group) != groups.end()")
  | Some _ =>
      let cand_funcs := default [] (groups p !! cand_group) in
      let groups1 := delete cand_group (groups p) in
      let groups2 :=
        <[child_group := (default [] (groups1 !! child_group) ++ cand_funcs)%list]>
          groups1 in
      let children1 := delete cand_group (children p) in
      let children2 :=
        (fun cs : gset string =>
           if decide (cand_group ∈ cs)
           then {[child_group]} ∪ (cs ∖ {[cand_group]}) else cs) <$> children1 in
      let cache :=
        filter (fun kv : (string * string) * Option =>
                  ¬ (snd (fst kv) = child_group ∨ fst (fst kv) = child_group))
               (option_cache p) in
      Ok (mkPartitioner (inlines p) (env p) groups2 (group_sched p) children2
                        (func_dim_estimates p) (func_op p) (func_mem p)
                        cache (arch_params p))
  end.

(** Inlining the producer group: it joins the inline map and its levels
    lose their variable. *)
Definition inline_producer (p : Partitioner) (best : Option) : Partitioner :=
  let info :=
    default (mkFuncInfo [] [] LoopLevel_inline LoopLevel_inline)
            (env p !! prod_group best) in
  let info' :=
    mkFuncInfo (fi_args info) (fi_output_bytes info)
               (mkLoopLevel (ll_func (fi_store_level info)) EmptyString)
               (mkLoopLevel (ll_func (fi_compute_level info)) EmptyString) in
  mkPartitioner (<[prod_group best := cons_group best]> (inlines p))
                (<[prod_group best := info']> (env p))
                (groups p) (group_sched p) (children p)
                (func_dim_estimates p) (func_op p) (func_mem p)
                (option_cache p) (arch_params p).

Definition set_cache (p : Partitioner) (cache : gmap (string * string) Option)
  : Partitioner :=
  mkPartitioner (inlines p) (env p) (groups p) (group_sched p) (children p)
                (func_dim_estimates p) (func_op p) (func_mem p)
                cache (arch_params p).

Definition set_group_sched (p : Partitioner) (g : string) (sched : GroupSched)
  : Partitioner :=
  mkPartitioner (inlines p) (env p) (groups p) (<[g := sched]> (group_sched p))
                (children p) (func_dim_estimates p) (func_op p) (func_mem p)
                (option_cache p) (arch_params p).

(** One iteration of [while (!fixpoint)]: the partitioner after it, and
    the option merged ([None] when the fixpoint is reached). *)
Definition group_step (p : Partitioner) (level : Level)
  : Outcome (Partitioner * option Option) :=
  let cand_pairs := candidate_pairs p in
  do chosen <-
    match level with
    | INLINE => choose_candidate_inline p cand_pairs
    | FAST_MEM => choose_candidate p cand_pairs
    end;
  let '(best, cache) := chosen in
  let p1 := set_cache p cache in
  if negb (feq (benefit best) minus_one) then
    let p2 :=
      match level with
      | INLINE => inline_producer p1 best
      | FAST_MEM => p1
      end in
    do p3 <- merge_groups p2 (prod_group best) (cons_group best);
    match float_to_integer 32 (benefit best) with
    | Some b =>
        Ok (set_group_sched p3 (cons_group best)
                            (mkGroupSched (tile_sizes best) b),
            Some best)
    | None => Fail (undefined_behaviour "float out of the range of int")
    end
  else Ok (p1, None).

(** [Partitioner::group]: the iterations run until the fixpoint, with the
    options merged on the way, in order.  [None] when [fuel] iterations
    do not reach the fixpoint. *)
Fixpoint group (fuel : nat) (p : Partitioner) (level : Level)
  : option (Outcome (Partitioner * list Option)) :=
  match fuel with
  | O => None
  | S fuel' =>
      match group_step p level with
      | Fail e => Some (Fail e)
      | Ok (p', None) => Some (Ok (p', []))
      | Ok (p', Some best) =>
          match group fuel' p' level with
          | Some (Ok (p'', merged)) => Some (Ok (p'', best :: merged))
          | other => other
          end
      end
  end.

End Grouping.

(** * Vocabulary of the statements and concrete inputs

    Simple instances of the functions the sections above take as
    variables, the predicates the theorems are stated with, and the
    concrete schedules, statements and pipelines the closed lemmas run
    on. *)

(** ** Instances of the IR helpers *)

(** [is_zero] of IROperator.h on the nodes of this IR. *)
Fixpoint is_zero_imm (e : Expr) : bool :=
  match e with
  | IntImm v => v =? 0
  | Cast _ v | Broadcast v _ => is_zero_imm v
  | _ => false
  end.

Definition likely_call (e : Expr) : Expr :=
  Call (type_of e) "likely" [e] Intrinsic.

(** Replacing the free occurrences of a variable. *)
Fixpoint subst_expr (x : string) (r : Expr) (e : Expr) : Expr :=
  match e with
  | IntImm _ | StringImm _ => e
  | Cast t v => Cast t (subst_expr x r v)
  | Variable_ _ n => if String.eqb n x then r else e
  | Bin op a b => Bin op (subst_expr x r a) (subst_expr x r b)
  | Not a => Not (subst_expr x r a)
  | Select c t f => Select (subst_expr x r c) (subst_expr x r t) (subst_expr x r f)
  | Load t n i => Load t n (subst_expr x r i)
  | Ramp b s w => Ramp (subst_expr x r b) (subst_expr x r s) w
  | Broadcast v w => Broadcast (subst_expr x r v) w
  | Call t n args ct => Call t n (map (subst_expr x r) args) ct
  | Let_ n v b =>
      Let_ n (subst_expr x r v) (if String.eqb n x then b else subst_expr x r b)
  end.

Fixpoint subst_stmt (x : string) (r : Expr) (s : Stmt) : Stmt :=
  match s with
  | NoStmt => NoStmt
  | LetStmt n v body =>
      LetStmt n (subst_expr x r v)
              (if String.eqb n x then body else subst_stmt x r body)
  | AssertStmt c m => AssertStmt (subst_expr x r c) (subst_expr x r m)
  | ProducerConsumer n p u c =>
      ProducerConsumer n (subst_stmt x r p) (subst_stmt x r u) (subst_stmt x r c)
  | For n min extent ft dev body =>
      For n (subst_expr x r min) (subst_expr x r extent) ft dev
          (if String.eqb n x then body else subst_stmt x r body)
  | Store n v i => Store n (subst_expr x r v) (subst_expr x r i)
  | Provide n values args =>
      Provide n (map (subst_expr x r) values) (map (subst_expr x r) args)
  | Allocate n t extents c body =>
      Allocate n t (map (subst_expr x r) extents) (subst_expr x r c)
               (subst_stmt x r body)
  | Free n => Free n
  | Realize n ts bnds c body =>
      Realize n ts (map (fun b => (subst_expr x r (fst b), subst_expr x r (snd b))) bnds)
              (subst_expr x r c) (subst_stmt x r body)
  | Block first rest => Block (subst_stmt x r first) (subst_stmt x r rest)
  | IfThenElse c t e =>
      IfThenElse (subst_expr x r c) (subst_stmt x r t) (subst_stmt x r e)
  | Evaluate v => Evaluate (subst_expr x r v)
  end.

Fixpoint uses_var (e : Expr) (x : string) : bool :=
  match e with
  | IntImm _ | StringImm _ => false
  | Variable_ _ n => String.eqb n x
  | Cast _ v | Not v | Load _ _ v | Broadcast v _ => uses_var v x
  | Bin _ a b | Ramp a b _ => uses_var a x || uses_var b x
  | Select c t f => uses_var c x || uses_var t x || uses_var f x
  | Call _ _ args _ => existsb (fun a => uses_var a x) args
  | Let_ n v b => uses_var v x || (negb (String.eqb n x) && uses_var b x)
  end.

(** The names ["s0"], ["s1"], ... *)
Definition s_name (n : nat) : string :=
  "s" +:+ String (ascii_of_nat (48 + n)) EmptyString.

(** ** The value of an integer expression

    The value of an [Int(32)] expression under an assignment of its
    variables: [None] when a division or a modulus by zero is met, or a
    node that is not integer arithmetic. *)
Fixpoint eval_expr (rho : string -> Z) (e : Expr) : option Z :=
  match e with
  | IntImm v => Some v
  | Variable_ _ n => Some (rho n)
  | Bin op a b =>
      match eval_expr rho a, eval_expr rho b with
      | Some x, Some y =>
          match op with
          | Add => Some (wrap32 (x + y))
          | Sub => Some (wrap32 (x - y))
          | Mul => Some (wrap32 (x * y))
          | Div => if y =? 0 then None else Some (wrap32 (x / y))
          | Mod => if y =? 0 then None else Some (x mod y)
          | Min => Some (Z.min x y)
          | Max => Some (Z.max x y)
          | _ => None
          end
      | _, _ => None
      end
  | _ => None
  end.

(** ** Schedules for the loop-nest builder *)

(** [d] is the first dim of [ds] that is Serial or Parallel: every dim
    before it is Vectorized or Unrolled. *)
Definition first_serial_or_parallel (ds : list Dim) (d : Dim) : Prop :=
  exists pre post,
    ds = (pre ++ d :: post)%list
    /\ Forall (fun x => dim_for_type x = Vectorized \/ dim_for_type x = Unrolled) pre
    /\ (dim_for_type d = Serial \/ dim_for_type d = Parallel).

Definition ex_dims : list Dim :=
  [ mkDim "xi" Vectorized Parent true;
    mkDim "xo" Serial Parent true;
    mkDim "__outermost" Serial Parent true ].

Definition ex_split : Split := mkSplit "x" "xo" "xi" (IntImm 8) false false SplitVar.

(** An RVar of extent 7 split by 4: the split is exact. *)
Definition ex_exact_split : Split :=
  mkSplit "r" "ro" "ri" (IntImm 4) true false SplitVar.

Definition ex_update_schedule : Schedule :=
  mkSchedule [ex_exact_split]
             [ mkDim "ri" Serial Parent false; mkDim "ro" Serial Parent false;
               mkDim "__outermost" Serial Parent true ]
             []
             (Some [mkReductionVariable "r" (IntImm 0) (IntImm 7)])
             LoopLevel_root LoopLevel_root [] true false.

Definition ex_func : Function :=
  mkFunction "f" ["x"] [var32 "x"] ex_update_schedule [] None.

Definition ex_fuse : Split :=
  mkSplit "t" "y" "x" (IntImm 1) false false FuseVars.

(** What is left of the two loops over a list of [n] splits at the
    indices [i] and [j]. *)
Definition rebalance_measure (n i j : nat) : nat :=
  (n * n * n + (n - i) * (n + 1) + (n + 1 - j))%nat.

(** ** Sites and pipelines for the validation *)

(** The site at index [i] is the last one of [sites] that matches [lvl]. *)
Definition last_site_at (lvl : LoopLevel) (sites : list Site) (i : nat) : Prop :=
  (exists site, sites !! i = Some site /\ ll_match (loop_level site) lvl = true)
  /\ forall j site, (i < j)%nat -> sites !! j = Some site ->
                    ll_match (loop_level site) lvl = false.

Definition matches (lvl : LoopLevel) (site : Site) : bool :=
  ll_match (loop_level site) lvl.

(** What the look-up loop has found after a prefix of the sites. *)
Definition found_so_far (store_at compute_at : LoopLevel) (l : list Site)
           (st : bool * bool * nat * nat) : Prop :=
  let '(store_at_ok, compute_at_ok, store_idx, compute_idx) := st in
  store_at_ok = existsb (matches store_at) l
  /\ (store_at_ok = true -> last_site_at store_at l store_idx)
  /\ (existsb (matches compute_at) l = true ->
      last_site_at compute_at l compute_idx
      /\ compute_at_ok = existsb (matches store_at) (take (S compute_idx) l))
  /\ (existsb (matches compute_at) l = false -> compute_at_ok = false).

Definition ex_fx : LoopLevel := mkLoopLevel "f" "x".

(** [f(x) = g(x)] in a loop over [x] of the given type, under the root
    loop. *)
Definition ex_nest (ft : ForType) : Stmt :=
  For ".__root" (IntImm 0) (IntImm 1) Serial Host
    (For "f.s0.x" (var32 "f.s0.x.loop_min") (var32 "f.s0.x.loop_extent") ft Parent
       (Provide "f" [Call Int32 "g" [var32 "f.s0.x"] Halide] [var32 "f.s0.x"])).

Definition ex_g_schedule (store_at compute_at : LoopLevel) : Schedule :=
  mkSchedule [] [mkDim "x" Serial Parent true; mkDim "__outermost" Serial Parent true]
             [] None store_at compute_at [] false false.

(** [g.store_root().compute_at(f, x)] *)
Definition ex_g : Function :=
  mkFunction "g" ["x"] [var32 "x"] (ex_g_schedule LoopLevel_root ex_fx) [] None.

Definition ex_sites (ft : ForType) : list Site :=
  [ mkSite false LoopLevel_root;
    mkSite (ForType_eqb ft Parallel || ForType_eqb ft Vectorized) ex_fx ].

(** An output defined by an extern call on [h], with [h] left inline. *)
Definition ex_h : Function :=
  mkFunction "h" ["x"] [var32 "x"]
             (ex_g_schedule LoopLevel_inline LoopLevel_inline) [] None.

Definition ex_extern_output : Function :=
  mkFunction "out" ["x"] []
             (ex_g_schedule LoopLevel_root LoopLevel_root) []
             (Some ("blur_extern", [FuncArg ex_h])).

Definition ex_plain_output : Function :=
  mkFunction "out" ["x"] [var32 "x"]
             (ex_g_schedule LoopLevel_root LoopLevel_root) [] None.

(** ** Statements without [__outermost] loops *)

(** No reference to a bound of an [__outermost] loop is left. *)
Fixpoint expr_clean (e : Expr) : bool :=
  match e with
  | IntImm _ | StringImm _ => true
  | Variable_ _ n => negb (is_outermost_bound n)
  | Cast _ v | Not v | Load _ _ v | Broadcast v _ => expr_clean v
  | Bin _ a b | Ramp a b _ | Let_ _ a b => expr_clean a && expr_clean b
  | Select c t f => expr_clean c && expr_clean t && expr_clean f
  | Call _ _ args _ => forallb expr_clean args
  end.

(** No loop over [__outermost], no let of one of its bounds and no
    reference to them is left. *)
Fixpoint stmt_clean (s : Stmt) : bool :=
  match s with
  | NoStmt | Free _ => true
  | LetStmt n v body => negb (is_outermost_bound n) && expr_clean v && stmt_clean body
  | AssertStmt c m => expr_clean c && expr_clean m
  | ProducerConsumer _ p u c => stmt_clean p && stmt_clean u && stmt_clean c
  | For n min extent _ _ body =>
      negb (ends_with n outermost_loop) && expr_clean min && expr_clean extent
      && stmt_clean body
  | Store _ v i => expr_clean v && expr_clean i
  | Provide _ values args => forallb expr_clean values && forallb expr_clean args
  | Allocate _ _ extents c body =>
      forallb expr_clean extents && expr_clean c && stmt_clean body
  | Realize _ _ bnds c body =>
      forallb (fun b => expr_clean (fst b) && expr_clean (snd b)) bnds
      && expr_clean c && stmt_clean body
  | Block first rest => stmt_clean first && stmt_clean rest
  | IfThenElse c t e => expr_clean c && stmt_clean t && stmt_clean e
  | Evaluate v => expr_clean v
  end.

(** A stand-in for the injector that realises a function at root: the
    nest of its pure stage goes around the body of the top loop. *)
Definition ex_inject (f : Function) (is_output inject_asserts : bool) (s : Stmt)
  : Outcome Stmt :=
  match s with
  | For n min extent ft dev body =>
      let prefix := func_name f +:+ ".s0." in
      do r <- build_provide_loop_nest (fun e => e) is_zero_imm likely_call
                subst_stmt uses_var (fun x => x) s_name Serial Host false
                f prefix (map (fun a => var32 (prefix +:+ a)) (func_args f))
                (map (fun a => var32 (prefix +:+ a)) (func_args f))
                (func_schedule f) false 0;
      Ok (For n min extent ft dev (ProducerConsumer (func_name f) (fst r) NoStmt body))
  | _ => Fail (internal_error "no loop to inject into")
  end.

Definition ex_lowered : Outcome (Stmt * bool) :=
  schedule_functions (fun s _ => s) ex_inject
                     (fun a b => String.eqb (func_name a) (func_name b))
                     [ex_plain_output] ["out"]
                     (<["out" := ex_plain_output]> ∅) false.

(** ** A partitioner state *)

(** The machine parameters the partitioner starts with. *)
Definition default_arch : MachineParams :=
  mkMachineParams 8 8 (32 * 1024 * 8) (32 * 4) 10 4.

(** The best option so far is the -1 it started with, or lies above -1. *)
Definition sentinel_or_above (opt : Option) : Prop :=
  benefit opt = minus_one \/ flt minus_one (benefit opt) = true.

(** [a] feeds [b]; both run over 65536 points.  The intermediates take
    1000 bytes whatever the tile, and the work of a tile is its number of
    points, so that tiling adds 65440 operations to the 96 of [a]. *)
Definition ex_inter_s (_ : list string) (_ : string) (_ : list (Z * Z))
           (_ : Level) (_ : gmap string string) : Z := 1000.

Definition ex_work_per_tile (_ : list string) (_ : string)
           (tile_bounds : list (Z * Z)) : Z :=
  fold_left (fun acc b => acc * (snd b - fst b + 1)) tile_bounds 1.

Definition ex_partitioner : Partitioner :=
  mkPartitioner
    ∅
    (<["a" := mkFuncInfo ["x"] [4] LoopLevel_root LoopLevel_root]>
       (<["b" := mkFuncInfo ["x"] [4] LoopLevel_root LoopLevel_root]> ∅))
    (<["a" := ["a"]]> (<["b" := ["b"]]> ∅))
    (<["a" := mkGroupSched [-1] (-1)]> (<["b" := mkGroupSched [-1] (-1)]> ∅))
    (<["a" := {["b"]}]> ∅)
    (<["a" := [65536]]> (<["b" := [65536]]> ∅))
    (<["a" := 96]> (<["b" := 65536]> ∅))
    (<["a" := 6000]> (<["b" := 544]> ∅))
    ∅
    default_arch.

(** ** Split lists without chains, and a two-dimensional nest *)

(** No split of [l] derives the old variable of a later split. *)
Definition chain_free (l : list Split) : Prop :=
  forall i j a b, (i < j)%nat -> l !! i = Some a -> l !! j = Some b ->
                  String.eqb (outer a) (old_var b) = false.

Definition ex_rebalanced : list Split :=
  [ mkSplit "x" "p" "s1" (Bin Mul (Bin Mul (IntImm 4) (IntImm 2)) (IntImm 3))
            false false SplitVar;
    mkSplit "s1" "q" "s0" (Bin Mul (IntImm 4) (IntImm 2)) false false SplitVar;
    mkSplit "s0" "xoi" "xi" (IntImm 4) false false SplitVar ].

(** [g] stored at the Parallel loop over [y] and computed at the Serial
    loop over [x] inside it: the only site after the store site is the
    compute site, which is not parallel, and the schedule is accepted. *)
Definition ex_nest_2d : Stmt :=
  For ".__root" (IntImm 0) (IntImm 1) Serial Host
    (For "f.s0.y" (var32 "f.s0.y.loop_min") (var32 "f.s0.y.loop_extent") Parallel Parent
       (For "f.s0.x" (var32 "f.s0.x.loop_min") (var32 "f.s0.x.loop_extent") Serial Parent
          (Provide "f" [Call Int32 "g" [var32 "f.s0.x"; var32 "f.s0.y"] Halide]
                   [var32 "f.s0.x"; var32 "f.s0.y"]))).

Definition ex_g_2d : Function :=
  mkFunction "g" ["x"; "y"] [var32 "x"]
             (ex_g_schedule (mkLoopLevel "f" "y") ex_fx) [] None.

(** * Realizations, region costs and schedule surgery *)

(** ** Uses of a function (IsUsedInStmt) *)

Section IsUsedInStmt.

Variable func : string.

(** A call to [func] is a use, its arguments being visited first; so is
    a reference to one of the function's buffers. *)
Fixpoint expr_is_used (e : Expr) : bool :=
  match e with
  | IntImm _ | StringImm _ => false
  | Variable_ t n => is_buffer_of func t n
  | Cast _ v | Not v | Load _ _ v | Broadcast v _ => expr_is_used v
  | Bin _ a b | Ramp a b _ | Let_ _ a b => expr_is_used a || expr_is_used b
  | Select c t f => expr_is_used c || expr_is_used t || expr_is_used f
  | Call _ n args _ => existsb expr_is_used args || String.eqb n func
  end.

Fixpoint stmt_is_used (s : Stmt) : bool :=
  match s with
  | NoStmt | Free _ => false
  | LetStmt _ v body => expr_is_used v || stmt_is_used body
  | AssertStmt c m => expr_is_used c || expr_is_used m
  | ProducerConsumer _ p u c => stmt_is_used p || stmt_is_used u || stmt_is_used c
  | For _ min extent _ _ body =>
      expr_is_used min || expr_is_used extent || stmt_is_used body
  | Store _ v i => expr_is_used v || expr_is_used i
  | Provide _ values args => existsb expr_is_used values || existsb expr_is_used args
  | Allocate _ _ extents c body =>
      existsb expr_is_used extents || expr_is_used c || stmt_is_used body
  | Realize _ _ bnds c body =>
      existsb (fun b => expr_is_used (fst b) || expr_is_used (snd b)) bnds
      || expr_is_used c || stmt_is_used body
  | Block first rest => stmt_is_used first || stmt_is_used rest
  | IfThenElse c t e => expr_is_used c || stmt_is_used t || stmt_is_used e
  | Evaluate v => expr_is_used v
  end.

End IsUsedInStmt.

Definition function_is_used_in_stmt (f : Function) (s : Stmt) : bool :=
  stmt_is_used (func_name f) s.

(** ** Explicit bounds *)

(** The assertion of one stage for one bound of the schedule. *)
Definition explicit_bound_check (f : Function) (stage : nat) (b : Bound) : Stmt :=
  let max_val := Bin Sub (Bin Add (bound_extent b) (bound_min b)) (IntImm 1) in
  let min_val := bound_min b in
  let prefix := func_name f +:+ ".s" +:+ pretty stage +:+ "." +:+ bound_var b in
  let min_name := prefix +:+ ".min_unbounded" in
  let max_name := prefix +:+ ".max_unbounded" in
  let min_var := var32 min_name in
  let max_var := var32 max_name in
  let check := Bin And (Bin LE min_val min_var) (Bin GE max_val max_var) in
  let error_msg :=
    Call Int32 "halide_error_explicit_bounds_too_small"
         [ StringImm (bound_var b); StringImm (func_name f);
           min_val; max_val; min_var; max_var ] Extern in
  AssertStmt check error_msg.

(** [for (stage = 0; stage <= updates.size(); stage++) for (i < bounds.size())]:
    the pairs (stage, bound) in the order the loops meet them. *)
Definition stage_bounds (f : Function) : list (nat * Bound) :=
  flat_map (fun stage => map (pair stage) (bounds (func_schedule f)))
           (seq 0 (S (length (func_updates f)))).

Definition inject_explicit_bounds (body : Stmt) (f : Function) : Stmt :=
  fold_left (fun body sb => Block (explicit_bound_check f (fst sb) (snd sb)) body)
            (stage_bounds f) body.

(** ** Realizations: build_produce, build_update, build_production,
       InjectRealization *)

(** What the injector has found so far. *)
Record Found := mkFound {
  found_store_level : bool;
  found_compute_level : bool }.

Section Realization.

(** The collaborators of the loop-nest builder. *)
Variable simplify : Expr -> Expr.
Variable is_zero : Expr -> bool.
Variable likely : Expr -> Expr.
Variable substitute : string -> Expr -> Stmt -> Stmt.
Variable expr_uses_var : Expr -> string -> bool.
Variable simplify_exprs : Stmt -> Stmt.
Variable unique_name : nat -> string.
Variable indeterminate_for_type : ForType.
Variable indeterminate_device_api : DeviceAPI.
Variable indeterminate_pure : bool.

(** [qualify(prefix, e)] (Qualify.h), [make_zero(t)] (IROperator.h), the
    names [unique_name('t')] hands out, the names of the two intrinsics
    ([Call::address_of] and [Call::create_buffer_t]), and three members
    declared outside this file: [Function::output_types()],
    [Function::is_pure()] and [LoopLevel::match(const string &loop)]. *)
Variable qualify : string -> Expr -> Expr.
Variable make_zero : HType -> Expr.
Variable unique_name_t : nat -> string.
Variable address_of : string.
Variable create_buffer_t : string.
Variable output_types : Function -> list HType.
Variable is_pure : Function -> bool.
Variable level_matches_loop : LoopLevel -> string -> bool.

(** [f.outputs()] *)
Definition outputs (f : Function) : nat := length (output_types f).

(** The buffer of each output of [f]: [<name>.buffer], or
    [<name>.<k>.buffer] when there are several. *)
Definition output_buffers (f : Function) : list Expr :=
  map (fun k =>
         Variable_ Handle
           (func_name f
            +:+ (if (1 <? outputs f)%nat then "." +:+ pretty k else EmptyString)
            +:+ ".buffer"))
      (seq 0 (outputs f)).

(** The arguments one [ExternFuncArgument] adds to the extern call. *)
Definition extern_call_arg (arg : ExternFuncArgument) : list Expr :=
  match arg with
  | ExprArg e => [e]
  | FuncArg input => output_buffers input
  | BufferArg name => [Variable_ Handle (name +:+ ".buffer")]
  | ImageParamArg name => [Variable_ Handle (name +:+ ".buffer")]
  end.

(** The [create_buffer_t] call for output [j] of type [t], when the
    store level differs from the compute level. *)
Definition output_buffer_t (f : Function) (j : nat) (t : HType) : Expr :=
  let stride_name :=
    func_name f +:+ (if (1 <? outputs f)%nat then ".0" else EmptyString) in
  let stage_name := func_name f +:+ ".s0." in
  let top_left :=
    map (fun a => var32 (stage_name +:+ a +:+ ".min")) (func_args f) in
  let host_ptr :=
    Call Handle address_of [Call t (func_name f) top_left Halide] Intrinsic in
  let buffer_args :=
    ([host_ptr; make_zero t]
     ++ concat (imap (fun k a =>
                        let var := stage_name +:+ a in
                        let min := var32 (var +:+ ".min") in
                        let max := var32 (var +:+ ".max") in
                        let stride :=
                          var32 (stride_name +:+ ".stride." +:+ pretty k) in
                        [min; Bin Add (Bin Sub max min) (IntImm 1); stride])
                     (func_args f)))%list in
  Call Handle create_buffer_t buffer_args Intrinsic.

Definition tmp_buffer_name (f : Function) (j : nat) : string :=
  func_name f +:+ "." +:+ pretty j +:+ ".tmp_buffer".

(** The call of an extern stage with the check of its result.  [t] counts
    the names [unique_name('t')] has handed out. *)
Definition build_extern_produce (f : Function) (extern_name : string)
           (args : list ExternFuncArgument) (t : nat) : Stmt * nat :=
  let input_args := concat (map extern_call_arg args) in
  let same_level :=
    ll_match (store_level (func_schedule f)) (compute_level (func_schedule f)) in
  let output_args :=
    if same_level then output_buffers f
    else imap (fun j _ => Variable_ Handle (tmp_buffer_name f j)) (output_types f) in
  let lets :=
    if same_level then []
    else imap (fun j ty => (tmp_buffer_name f j, output_buffer_t f j ty))
              (output_types f) in
  let e := Call Int32 extern_name (input_args ++ output_args)%list Extern in
  let result_name := unique_name_t t in
  let result := var32 result_name in
  let error :=
    Call Int32 "halide_error_extern_stage_failed"
         [StringImm extern_name; result] Extern in
  let check := AssertStmt (Bin EQ result (IntImm 0)) error in
  let check1 := LetStmt result_name e check in
  (fold_left (fun c l => LetStmt (fst l) (snd l) c) lets check1, S t).

(** The counters of the two name generators are threaded: [c] for
    [unique_name('s')] in the loop-nest builder, [t] for
    [unique_name('t')]. *)
Definition build_produce (f : Function) (c t : nat) : Outcome (Stmt * nat * nat) :=
  match extern_definition f with
  | Some (extern_name, args) =>
      let '(check, t1) := build_extern_produce f extern_name args t in
      Ok (check, c, t1)
  | None =>
      let prefix := func_name f +:+ ".s0." in
      let values := map (qualify prefix) (func_values f) in
      let site := map (fun a => var32 (prefix +:+ a)) (func_args f) in
      do r <- build_provide_loop_nest simplify is_zero likely substitute
                expr_uses_var simplify_exprs unique_name indeterminate_for_type
                indeterminate_device_api indeterminate_pure
                f prefix site values (func_schedule f) false c;
      Ok (fst r, snd r, t)
  end.

(** The lets that define the loop bounds of a reduction domain. *)
Definition domain_bounds (prefix : string) (loop : Stmt) (rv : ReductionVariable)
  : Stmt :=
  let p := prefix +:+ rvar_var rv in
  let rmin := var32 (p +:+ ".min") in
  let rmax := var32 (p +:+ ".max") in
  LetStmt (p +:+ ".loop_extent") (Bin Add (Bin Sub rmax rmin) (IntImm 1))
 (LetStmt (p +:+ ".loop_max") rmax
 (LetStmt (p +:+ ".loop_min") rmin loop)).

(** The nest of update [i] (numbered from 0). *)
Definition build_update_stage (f : Function) (i : nat) (r : UpdateDefinition)
           (c : nat) : Outcome (Stmt * nat) :=
  let prefix := func_name f +:+ ".s" +:+ pretty (i + 1)%nat +:+ "." in
  let values := map (qualify prefix) (update_values r) in
  let site := map (qualify prefix) (update_args r) in
  do l <- build_provide_loop_nest simplify is_zero likely substitute
            expr_uses_var simplify_exprs unique_name indeterminate_for_type
            indeterminate_device_api indeterminate_pure
            f prefix site values (update_schedule r) true c;
  Ok (match update_domain r with
      | Some dom => fold_left (domain_bounds prefix) dom (fst l)
      | None => fst l
      end, snd l).

(** [build_update] from update [i] on. *)
Fixpoint build_update_from (f : Function) (i : nat) (rs : list UpdateDefinition)
         (c : nat) : Outcome (list Stmt * nat) :=
  match rs with
  | [] => Ok ([], c)
  | r :: rest =>
      do u <- build_update_stage f i r c;
      do us <- build_update_from f (S i) rest (snd u);
      Ok (fst u :: fst us, snd us)
  end.

Definition build_update (f : Function) (c : nat) : Outcome (list Stmt * nat) :=
  build_update_from f 0 (func_updates f) c.

(** The produce step and the updates merged into blocks, the last stage
    innermost; [NoStmt] when there is no update. *)
Definition build_production (f : Function) (c t : nat)
  : Outcome (Stmt * Stmt * nat * nat) :=
  do p <- build_produce f c t;
  let '(produce, c1, t1) := p in
  do us <- build_update f c1;
  Ok (produce, fold_right Block NoStmt (fst us), snd us, t1).

(** *** InjectRealization *)

Variable func : Function.
Variable is_output : bool.
Variable inject_asserts : bool.

(** The members that change during a walk, with the two counters. *)
Definition Injector : Type := Found * nat * nat.

Definition build_pipeline (s : Stmt) (c t : nat) : Outcome (Stmt * nat * nat) :=
  do r <- build_production func c t;
  let '(produce, update, c1, t1) := r in
  Ok (ProducerConsumer (func_name func) produce update s, c1, t1).

Definition build_realize (s : Stmt) : Stmt :=
  let s1 :=
    if negb is_output then
      let name := func_name func in
      let bnds :=
        map (fun arg =>
               (var32 (name +:+ "." +:+ arg +:+ ".min_realized"),
                var32 (name +:+ "." +:+ arg +:+ ".extent_realized")))
            (func_args func) in
      Realize name (output_types func) bnds const_true s
    else s in
  if inject_asserts then inject_explicit_bounds s1 func else s1.

(** [stmt = build_realize(build_pipeline(s)); found_store_level =
    found_compute_level = true;] *)
Definition realize_here (s : Stmt) (st : Injector) : Outcome (Stmt * Injector) :=
  let '(_, c, t) := st in
  do r <- build_pipeline s c t;
  let '(s1, c1, t1) := r in
  Ok (build_realize s1, (mkFound true true, c1, t1)).

(** The body of a loop once it has been mutated: the compute level, then
    the store level. *)
Definition at_loop (name : string) (body : Stmt) (st : Injector)
  : Outcome (Stmt * Injector) :=
  let compute_level := compute_level (func_schedule func) in
  let store_level := store_level (func_schedule func) in
  let '(found, c, t) := st in
  do r1 <-
    (if level_matches_loop compute_level name then
       do b <-
         (if stmt_is_used (func_name func) body || is_output
          then build_pipeline body c t else Ok (body, c, t));
       Ok (b, mkFound (found_store_level found) true)
     else Ok (body, c, t, found));
  let '(body1, c1, t1, found1) := r1 in
  if level_matches_loop store_level name then
    if negb (found_compute_level found1) then
      Fail (internal_error
              ("The compute loop level was not found within the store loop level!"
               +:+ nl))
    else
      let body2 :=
        if stmt_is_used (func_name func) body1 || is_output
        then build_realize body1 else body1 in
      Ok (body2, (mkFound true (found_compute_level found1), c1, t1))
  else Ok (body1, (found1, c1, t1)).

Fixpoint mutate (st : Injector) (s : Stmt) {struct s} : Outcome (Stmt * Injector) :=
  match s with
  | NoStmt | AssertStmt _ _ | Store _ _ _ | Free _ | Evaluate _ => Ok (s, st)
  | LetStmt n v body =>
      do r <- mutate st body; Ok (LetStmt n v (fst r), snd r)
  | ProducerConsumer n produce update consume =>
      do p <- mutate st produce;
      do u <- mutate (snd p) update;
      do c <- mutate (snd u) consume;
      Ok (ProducerConsumer n (fst p) (fst u) (fst c), snd c)
  | For name min extent ft dev body =>
      if has_extern_definition func
         && is_inline (compute_level (func_schedule func))
         && ForType_eqb ft Vectorized
         && stmt_is_used (func_name func) s
      then realize_here s st
      else
        do r <-
          (fix under_lets (b : Stmt) : Outcome (Stmt * Injector) :=
             match b with
             | LetStmt n v b' =>
                 do r <- under_lets b'; Ok (LetStmt n v (fst r), snd r)
             | _ => do m <- mutate st b; at_loop name (fst m) (snd m)
             end) body;
        Ok (For name min extent ft dev (fst r), snd r)
  | Provide n values args =>
      if negb (String.eqb n (func_name func))
         && negb (is_pure func)
         && is_inline (compute_level (func_schedule func))
         && stmt_is_used (func_name func) s
      then realize_here s st
      else Ok (s, st)
  | Allocate n ty extents c body =>
      do r <- mutate st body; Ok (Allocate n ty extents c (fst r), snd r)
  | Realize n tys bnds c body =>
      do r <- mutate st body; Ok (Realize n tys bnds c (fst r), snd r)
  | Block first rest =>
      do a <- mutate st first;
      do b <- mutate (snd a) rest;
      Ok (Block (fst a) (fst b), snd b)
  | IfThenElse c then_case else_case =>
      do a <- mutate st then_case;
      do b <- mutate (snd a) else_case;
      Ok (IfThenElse c (fst a) (fst b), snd b)
  end.

(** [InjectRealization injector(f, is_output, inject_asserts);
    s = injector.mutate(s);
    internal_assert(injector.found_store_level && injector.found_compute_level);] *)
Definition inject_realization (s : Stmt) (c t : nat) : Outcome (Stmt * nat * nat) :=
  do r <- mutate (mkFound false false, c, t) s;
  let '(s', (found, c1, t1)) := r in
  if found_store_level found && found_compute_level found then Ok (s', c1, t1)
  else Fail (internal_error
               "Condition failed: injector.found_store_level && injector.found_compute_level").

End Realization.

(** ** Sizes of regions *)

(** An [Interval] is its [min] and [max]; a [Box] one interval per
    dimension. *)
Definition Interval : Type := Expr * Expr.
Definition Box : Type := list Interval.

(** The [int] the 64-bit difference is returned as. *)
Definition get_extent (i : Interval) : Z :=
  match fst i, snd i with
  | IntImm bmin, IntImm bmax =>
      if bmin <=? bmax then wrap32 (bmax - bmin + 1) else 0
  | _, _ => -1
  end.

(** The loop of [box_area] from the running value [area] on. *)
Fixpoint box_area_from (area : Z) (b : Box) : Z :=
  match b with
  | [] => area
  | i :: rest =>
      let extent := get_extent i in
      if (0 <? extent) && (0 <? area)
      then box_area_from (wrap64 (area * extent)) rest
      else if extent =? 0 then 0
      else box_area_from (-1) rest
  end.

Definition box_area (b : Box) : Z := box_area_from 1 b.

(** The cost of a function is a pair (ops, loads) per value. *)
Definition get_func_op_cost (costs : list (Z * Z)) : Z :=
  fold_left (fun acc c => wrap32 (acc + fst c)) costs 1.

(** [region_cost(func, region, func_cost)]; [func_cost[func]] is empty
    for a function without an entry. *)
Definition region_cost (func : string) (region : Box)
           (func_cost : gmap string (list (Z * Z))) : Z :=
  let area := box_area region in
  if area <? 0 then -1
  else wrap64 (area * get_func_op_cost (default [] (func_cost !! func))).

(** The loop of the second [region_cost]: each cost is narrowed to an
    [int] before it is tested and added. *)
Fixpoint region_cost_from (total : Z) (regions : list (string * Box))
         (func_cost : gmap string (list (Z * Z))) : Z :=
  match regions with
  | [] => total
  | (f, b) :: rest =>
      let cost := wrap32 (region_cost f b func_cost) in
      if cost <? 0 then -1
      else region_cost_from (wrap64 (total + cost)) rest func_cost
  end.

(** The regions in the order [std::map] iterates them. *)
Definition regions_in_order (regions : gmap string Box) : list (string * Box) :=
  omap (fun k => pair k <$> regions !! k) (sorted_keys regions).

Definition region_cost_all (regions : gmap string Box)
           (func_cost : gmap string (list (Z * Z))) : Z :=
  region_cost_from 0 (regions_in_order regions) func_cost.

(** A vector indexed with an [int]. *)
Definition at_index {A} (l : list A) (i : Z) : option A :=
  if i <? 0 then None else l !! Z.to_nat i.

Definition null_bound : Error :=
  undefined_behaviour "as<IntImm>() returned null and was dereferenced".

(** The loop over the bounds of [get_extent_estimate]; [var] is
    [vars[dim]], read when a bound is compared with it. *)
Fixpoint bound_estimate (var : option string) (bs : list Bound) (estimate : Z)
  : Outcome Z :=
  match bs with
  | [] => Ok estimate
  | b :: rest =>
      match var with
      | None => Fail bad_index
      | Some v =>
          if String.eqb (bound_var b) v then
            match bound_min b, bound_extent b with
            | IntImm bmin, IntImm bextent =>
                bound_estimate var rest (wrap32 (bmin + bextent - 1))
            | _, _ => Fail null_bound
            end
          else bound_estimate var rest estimate
      end
  end.

Definition get_extent_estimate (f : Function) (bnds : gmap string Box) (dim : Z)
  : Outcome Z :=
  do estimate <-
    bound_estimate (at_index (func_args f) dim) (bounds (func_schedule f)) (-1);
  match bnds !! func_name f with
  | Some box =>
      match at_index box dim with
      | None => Fail bad_index
      | Some itv =>
          let extent := get_extent itv in
          if 0 <? extent then Ok (Z.max estimate extent) else Ok estimate
      end
  | None => Ok estimate
  end.

(** ** Helpers for schedule surgery *)

Definition set_dims (s : Schedule) (ds : list Dim) : Schedule :=
  mkSchedule (splits s) ds (bounds s) (reduction_domain s) (store_level s)
             (compute_level s) (specializations s) (touched s) (memoized s).

Definition set_splits (s : Schedule) (l : list Split) : Schedule :=
  mkSchedule l (dims s) (bounds s) (reduction_domain s) (store_level s)
             (compute_level s) (specializations s) (touched s) (memoized s).

Definition set_schedule (f : Function) (s : Schedule) : Function :=
  mkFunction (func_name f) (func_args f) (func_values f) s (func_updates f)
             (extern_definition f).

Definition set_for_type (d : Dim) (ft : ForType) : Dim :=
  mkDim (dim_var d) ft (dim_device_api d) (dim_pure d).

Definition set_var (d : Dim) (v : string) : Dim :=
  mkDim v (dim_for_type d) (dim_device_api d) (dim_pure d).

(** [v.insert(v.begin() + i, x)] *)
Definition insert_at {A} (i : nat) (x : A) (l : list A) : list A :=
  (take i l ++ x :: drop i l)%list.

Definition parallelize_dim (ds : list Dim) (dim : Z) : Outcome (list Dim) :=
  match at_index ds dim with
  | Some d => Ok (<[Z.to_nat dim := set_for_type d Parallel]> ds)
  | None => Fail bad_index
  end.

(** [dims.insert(dims.end() - 1, dims[dim]); dims.erase(dims.begin() + dim);] *)
Definition move_dim_to_outermost (ds : list Dim) (dim : Z) : Outcome (list Dim) :=
  match at_index ds dim with
  | Some d => Ok (delete (Z.to_nat dim) (insert_at (length ds - 1) d ds))
  | None => Fail bad_index
  end.

(** The last index whose dim is named [var], -1 when there is none. *)
Definition find_cand_dim (ds : list Dim) (var : string) : Z :=
  fold_left (fun cand id => if String.eqb (dim_var (snd id)) var
                            then Z.of_nat (fst id) else cand)
            (imap (fun i d => (i, d)) ds) (-1).

(** [move_dim_to_var] on [func.schedule().dims()]. *)
Definition move_dim_to_var (ds : list Dim) (dim : Z) (var : string)
  : Outcome (list Dim) :=
  let cand_dim := find_cand_dim ds var in
  if cand_dim =? -1 then Fail (internal_error "Assertion failed: cand_dim != -1")
  else
    match at_index ds dim with
    | Some d => Ok (delete (Z.to_nat dim) (insert_at (Z.to_nat cand_dim) d ds))
    | None => Fail bad_index
    end.

(** [swap_dim] on [func.schedule().dims()]: the name, the loop type and
    the purity change places. *)
Definition swap_dim (ds : list Dim) (dim1 dim2 : Z) : Outcome (list Dim) :=
  match at_index ds dim1, at_index ds dim2 with
  | Some d1, Some d2 =>
      let ds1 :=
        <[Z.to_nat dim1 :=
            mkDim (dim_var d2) (dim_for_type d2) (dim_device_api d1) (dim_pure d2)]> ds in
      match at_index ds1 dim2 with
      | Some d2' =>
          Ok (<[Z.to_nat dim2 :=
                  mkDim (dim_var d1) (dim_for_type d1) (dim_device_api d2')
                        (dim_pure d1)]> ds1)
      | None => Fail bad_index
      end
  | _, _ => Fail bad_index
  end.

(** [std::map::operator[]] on a map of [int]: a missing key reads 0. *)
Definition estimate_of (dim_estimates : gmap string Z) (k : string) : Z :=
  default 0 (dim_estimates !! k).

(** The estimates after [split_dim]. *)
Definition split_estimates (dim_estimates : gmap string Z)
           (old_name inner_name outer_name : string) (split_size : Z)
  : Outcome (gmap string Z) :=
  let m1 := <[inner_name := split_size]> dim_estimates in
  do m2 <-
    (if negb (estimate_of m1 old_name =? -1) then
       match float_to_integer 32
               (fceil (fdiv (float_of_Z (estimate_of m1 old_name))
                            (float_of_Z split_size))) with
       | Some n => Ok (<[outer_name := n]> (<[old_name := estimate_of m1 old_name]> m1))
       | None => Fail (undefined_behaviour "float out of the range of int")
       end
     else Ok (<[inner_name := -1]> m1));
  Ok (delete old_name m2).

Definition split_dim (f : Function) (dim : Z) (split_size : Z)
           (dim_estimates : gmap string Z) (prefix : string) (partial : bool)
  : Outcome (Function * gmap string Z) :=
  let ds := dims (func_schedule f) in
  match at_index ds dim with
  | None => Fail bad_index
  | Some d =>
      let old_name := dim_var d in
      let inner_name := old_name +:+ "." +:+ prefix +:+ "." +:+ "in" in
      let outer_name := old_name +:+ "." +:+ prefix +:+ "." +:+ "out" in
      let ds1 := insert_at (Z.to_nat dim) d ds in
      let ds2 := <[Z.to_nat dim := set_var d inner_name]> ds1 in
      let ds3 :=
        <[S (Z.to_nat dim) :=
            mkDim outer_name (dim_for_type d) (dim_device_api d) (dim_pure d)]> ds2 in
      let split :=
        mkSplit old_name outer_name inner_name (IntImm split_size)
                false partial SplitVar in
      let s1 := set_dims (func_schedule f) ds3 in
      let s2 := set_splits s1 (splits s1 ++ [split])%list in
      do m <- split_estimates dim_estimates old_name inner_name outer_name split_size;
      Ok (set_schedule f s2, m)
  end.

Definition vectorize_dim (f : Function) (dim_estimates : gmap string Z)
           (dim : Z) (vec_width : Z) : Outcome (Function * gmap string Z) :=
  do r <-
    (if negb (vec_width =? -1)
     then split_dim f dim vec_width dim_estimates "vec" false
     else Ok (f, dim_estimates));
  let '(f1, m) := r in
  let ds := dims (func_schedule f1) in
  match at_index ds dim with
  | Some d =>
      Ok (set_schedule f1
            (set_dims (func_schedule f1)
                      (<[Z.to_nat dim := set_for_type d Vectorized]> ds)), m)
  | None => Fail bad_index
  end.

(** [check_dim_size]: the first argument named as the dim decides. *)
Fixpoint check_dim_var (var : string) (vars : list string) (b : Box) (min_size : Z)
  : Outcome bool :=
  match vars with
  | [] => Ok true
  | v :: rest =>
      if String.eqb var v then
        match b with
        | itv :: _ =>
            let extent := get_extent itv in
            if 0 <=? extent then Ok (min_size <=? extent) else Ok true
        | [] => Fail bad_index
        end
      else check_dim_var var rest (tl b) min_size
  end.

Definition check_dim_size (f : Function) (dim : Z) (min_size : Z)
           (pipeline_bounds : gmap string Box) : Outcome bool :=
  match pipeline_bounds !! func_name f with
  | None => Ok true
  | Some b =>
      match func_args f with
      | [] => Ok true
      | _ =>
          match at_index (dims (func_schedule f)) dim with
          | Some d => check_dim_var (dim_var d) (func_args f) b min_size
          | None => Fail bad_index
          end
      end
  end.

Definition is_int_imm (e : Expr) : bool :=
  match e with IntImm _ => true | _ => false end.

(** The inner loop of [check_bounds_on_outputs]: whether it leaves
    [bounds_avail] alone. *)
Definition bounds_usable (vars : list string) (bs : list Bound) : bool :=
  forallb (fun b => existsb (String.eqb (bound_var b)) vars
                    && is_int_imm (bound_min b) && is_int_imm (bound_extent b)) bs.

Fixpoint check_bounds_from (bounds_avail : bool) (outs : list Function) : bool :=
  match outs with
  | [] => bounds_avail
  | out :: rest =>
      let bs := bounds (func_schedule out) in
      if negb (length bs =? length (func_args out))%nat then false
      else
        check_bounds_from
          (if bounds_usable (func_args out) bs then bounds_avail else false) rest
  end.

Definition check_bounds_on_outputs (outs : list Function) : bool :=
  check_bounds_from true outs.

(** ** Predicates of the statements below *)

(** No loop is left with [DeviceAPI::Parent]. *)
Fixpoint no_parent_loop (s : Stmt) : bool :=
  match s with
  | NoStmt | AssertStmt _ _ | Store _ _ _ | Provide _ _ _ | Free _ | Evaluate _ => true
  | LetStmt _ _ body | Allocate _ _ _ _ body | Realize _ _ _ _ body =>
      no_parent_loop body
  | ProducerConsumer _ p u c =>
      no_parent_loop p && no_parent_loop u && no_parent_loop c
  | For _ _ _ _ dev body => negb (DeviceAPI_eqb dev Parent) && no_parent_loop body
  | Block a b | IfThenElse _ a b => no_parent_loop a && no_parent_loop b
  end.

(** The functions of all the groups. *)
Definition all_members (gs : gmap string (list string)) : list string :=
  concat (map snd (map_to_list gs)).

(** ** Instances of the collaborators of the injector *)

(** The output types of a function with a pure definition are the types
    of its values. *)
Definition ex_output_types (f : Function) : list HType :=
  map type_of (func_values f).

Definition ex_is_pure (f : Function) : bool :=
  has_pure_definition f && negb (has_update_definition f)
  && negb (has_extern_definition f).

(** A level matches the loops named [<func>. ... .<var>]. *)
Definition ex_level_matches_loop (l : LoopLevel) (loop : string) : bool :=
  starts_with loop (ll_func l +:+ ".") && ends_with loop ("." +:+ ll_var l).

Definition ex_inject_realization (f : Function) (is_output inject_asserts : bool)
           (s : Stmt) (c t : nat) : Outcome (Stmt * nat * nat) :=
  inject_realization (fun e => e) is_zero_imm likely_call subst_stmt uses_var
                     (fun x => x) s_name Serial Host false
                     (fun _ e => e) (fun _ => IntImm 0) s_name
                     "address_of" "create_buffer_t"
                     ex_output_types ex_is_pure ex_level_matches_loop
                     f is_output inject_asserts s c t.

(** The call an extern stage is lowered to, under the lets of its
    temporary buffers: the callee and the arguments. *)
Fixpoint extern_call (s : Stmt) : option (string * list Expr) :=
  match s with
  | LetStmt _ (Call _ n args Extern) (AssertStmt _ _) => Some (n, args)
  | LetStmt _ _ body => extern_call body
  | _ => None
  end.

(** The number of arguments an [ExternFuncArgument] stands for. *)
Definition extern_arity (output_types : Function -> list HType)
           (arg : ExternFuncArgument) : nat :=
  match arg with
  | FuncArg input => length (output_types input)
  | _ => 1%nat
  end.

(** The product of the extents of a box. *)
Definition extent_product (b : Box) : Z :=
  fold_right (fun i acc => get_extent i * acc) 1 b.

(** The names [split_dim] gives the two loops of a dim named [old]. *)
Definition inner_name_of (old prefix : string) : string :=
  old +:+ "." +:+ prefix +:+ "." +:+ "in".
Definition outer_name_of (old prefix : string) : string :=
  old +:+ "." +:+ prefix +:+ "." +:+ "out".

(** An output whose bounds [check_bounds_on_outputs] lets pass. *)
Definition has_constant_bounds (out : Function) : Prop :=
  length (bounds (func_schedule out)) = length (func_args out)
  /\ Forall (fun b => In (bound_var b) (func_args out)
                      /\ (exists n, bound_min b = IntImm n)
                      /\ (exists n, bound_extent b = IntImm n))
            (bounds (func_schedule out)).

(** An output over [x] and [y] with the default schedule. *)
Definition ex_out_2d : Function :=
  mkFunction "out" ["x"; "y"] [var32 "x"]
    (mkSchedule [] [ mkDim "x" Serial Parent true; mkDim "y" Serial Parent true;
                     mkDim "__outermost" Serial Parent true ]
                [] None LoopLevel_root LoopLevel_root [] false false)
    [] None.

(** Whether the function of that name in the environment has a memoized
    schedule. *)
Definition is_memoized (env : gmap string Function) (name : string) : bool :=
  match env !! name with
  | Some f => memoized (func_schedule f)
  | None => false
  end.

(** The assertion of the injector at a store level. *)
Definition store_outside_compute : Error :=
  internal_error
    ("The compute loop level was not found within the store loop level!" +:+ nl).

(** The walk gave the statement back and drew no name, or stopped on the
    assertion of the store level. *)
Definition left_alone (s : Stmt) (st : Injector) (r : Outcome (Stmt * Injector))
  : Prop :=
  (exists found, r = Ok (s, (found, snd (fst st), snd st)))
  \/ r = Fail store_outside_compute.

(** ** The lets of a nest *)

(** The substitutions one iteration of the loop over the splits makes in
    the statement built so far, in the order it makes them. *)
Definition substitutions (prefix : string) (split : Split) : list (string * Expr) :=
  match split_type split with
  | SplitVar =>
      [ (prefix +:+ old_var split,
         Bin Add (var32 (prefix +:+ inner split +:+ ".base"))
                 (var32 (prefix +:+ inner split))) ]
  | FuseVars =>
      let fused := var32 (prefix +:+ old_var split) in
      let factor_e :=
        Bin Max (var32 (prefix +:+ inner split +:+ ".loop_extent")) (IntImm 1) in
      [ (prefix +:+ inner split,
         Bin Add (Bin Mod fused factor_e)
                 (var32 (prefix +:+ inner split +:+ ".loop_min")));
        (prefix +:+ outer split,
         Bin Add (Bin Div fused factor_e)
                 (var32 (prefix +:+ outer split +:+ ".loop_min"))) ]
  | RenameVar =>
      [ (prefix +:+ old_var split, var32 (prefix +:+ outer split)) ]
  end.

(** A value after some substitutions, the first of the list first. *)
Definition substitute_all (substitute_expr : string -> Expr -> Expr -> Expr)
           (subs : list (string * Expr)) (v : Expr) : Expr :=
  fold_left (fun v xe => substitute_expr (fst xe) (snd xe) v) subs v.

(** The nest binds [name] to [value]: a let of that name and value stands
    among the lets and loops around the innermost statement. *)
Fixpoint binds (name : string) (value : Expr) (s : Stmt) : Prop :=
  match s with
  | LetStmt n v body => (n = name /\ v = value) \/ binds name value body
  | For _ _ _ _ _ body => binds name value body
  | _ => False
  end.

(** The container [strip_lets] makes of a let. *)
Definition let_container (name : string) (value : Expr) : Container :=
  mkContainer (-1) name (Some value).

(** ** Two schedules with a later split *)

(** [f(x, y)] split by 8 in [x], the inner loop vectorized, and by 4 in
    [y]. *)
Definition ex_split_y : Split := mkSplit "y" "yo" "yi" (IntImm 4) false false SplitVar.

Definition ex_tiled_schedule : Schedule :=
  mkSchedule [ex_split; ex_split_y]
             [ mkDim "xi" Vectorized Parent true; mkDim "xo" Serial Parent true;
               mkDim "yi" Serial Parent true; mkDim "yo" Serial Parent true;
               mkDim "__outermost" Serial Parent true ]
             [] None LoopLevel_root LoopLevel_root [] true false.

Definition ex_tiled : Function :=
  mkFunction "f" ["x"; "y"] [Bin Add (var32 "x") (var32 "y")]
             ex_tiled_schedule [] None.

(** [f(x, y, z)] with [x] and [y] fused into [t], and [z] split by 4. *)
Definition ex_split_z : Split := mkSplit "z" "zo" "zi" (IntImm 4) false false SplitVar.

Definition ex_fused_schedule : Schedule :=
  mkSchedule [ex_fuse; ex_split_z]
             [ mkDim "t" Serial Parent true;
               mkDim "zi" Serial Parent true; mkDim "zo" Serial Parent true;
               mkDim "__outermost" Serial Parent true ]
             [] None LoopLevel_root LoopLevel_root [] true false.

Definition ex_fused : Function :=
  mkFunction "f" ["x"; "y"; "z"] [Bin Add (var32 "x") (var32 "z")]
             ex_fused_schedule [] None.

(** ** Chains of Blocks and the devices of loops *)

(** The first [n] statements of a chain of Blocks, the outermost first,
    and the statement that follows them. *)
Fixpoint leading (n : nat) (s : Stmt) : option (list Stmt * Stmt) :=
  match n with
  | O => Some ([], s)
  | S n' =>
      match s with
      | Block first rest =>
          match leading n' rest with
          | Some (l, r) => Some (first :: l, r)
          | None => None
          end
      | _ => None
      end
  end.

(** The loops of a statement in the order they are met: the device of
    each loop, and the devices of the loops around it, the nearest
    first. *)
Fixpoint loops_in (around : list DeviceAPI) (s : Stmt)
  : list (DeviceAPI * list DeviceAPI) :=
  match s with
  | NoStmt | AssertStmt _ _ | Store _ _ _ | Provide _ _ _ | Free _ | Evaluate _ => []
  | LetStmt _ _ body | Allocate _ _ _ _ body | Realize _ _ _ _ body =>
      loops_in around body
  | ProducerConsumer _ p u c =>
      loops_in around p ++ loops_in around u ++ loops_in around c
  | For _ _ _ _ dev body => (dev, around) :: loops_in (dev :: around) body
  | Block a b | IfThenElse _ a b => loops_in around a ++ loops_in around b
  end.

(** The device of the nearest loop that names one, the loop itself
    first; [top] when none does. *)
Definition nearest_device (top : DeviceAPI) (loop : DeviceAPI * list DeviceAPI)
  : DeviceAPI :=
  match List.find (fun d => negb (DeviceAPI_eqb d Parent)) (fst loop :: snd loop) with
  | Some d => d
  | None => top
  end.

(** * Properties of the loop-nest builder *)

Section LoopNestFacts.

Variable simplify : Expr -> Expr.
Variable is_zero : Expr -> bool.
Variable likely : Expr -> Expr.
Variable substitute : string -> Expr -> Stmt -> Stmt.
Variable expr_uses_var : Expr -> string -> bool.
Variable simplify_exprs : Stmt -> Stmt.
Variable unique_name : nat -> string.
Variable indeterminate_for_type : ForType.
Variable indeterminate_device_api : DeviceAPI.
Variable indeterminate_pure : bool.

Lemma innermost_is_first_serial_or_parallel ds d :
  first_serial_or_parallel ds d ->
  innermost_non_trivial_loop indeterminate_for_type indeterminate_device_api
                             indeterminate_pure ds = d.
Proof.
  intros (pre & post & -> & Hpre & Hd).
  unfold innermost_non_trivial_loop.
  induction Hpre as [|x pre Hx Hpre IH]; simpl.
  - destruct Hd as [-> | ->]; reflexivity.
  - destruct Hx as [-> | ->]; simpl; exact IH.
Qed.

(** One iteration of the loop over the splits, on a [SplitVar] of a pure
    stage that is neither partial nor exact and whose factor is not
    proved to divide the known extent of the old variable. *)
Lemma apply_split_clamps_base prefix (ds : list Dim) (d : Dim) stmt
        (known : gmap string Expr) split :
  first_serial_or_parallel ds d ->
  split_type split = SplitVar ->
  partial split = false ->
  exact split = false ->
  match (<[inner split := factor split]> known) !! old_var split with
  | Some extent => is_zero (simplify (Bin Mod extent (factor split)))
  | None => false
  end = false ->
  let outer_e := var32 (prefix +:+ outer split) in
  let inner_e := var32 (prefix +:+ inner split) in
  let old_max := var32 (prefix +:+ old_var split +:+ ".loop_max") in
  let old_min := var32 (prefix +:+ old_var split +:+ ".loop_min") in
  let base_var := var32 (prefix +:+ inner split +:+ ".base") in
  let base := Bin Add (Bin Mul outer_e (factor split)) old_min in
  let marked :=
    if String.eqb (outer split) (dim_var d) && ForType_eqb (dim_for_type d) Serial
    then likely base else base in
  apply_split simplify is_zero likely substitute prefix false
    (innermost_non_trivial_loop indeterminate_for_type indeterminate_device_api
                                indeterminate_pure ds)
    (stmt, known) split
  = Ok (LetStmt (prefix +:+ inner split +:+ ".base")
          (Bin Min marked (Bin Add old_max (Bin Sub (IntImm 1) (factor split))))
          (LetStmt (prefix +:+ old_var split) (Bin Add base_var inner_e)
             (substitute (prefix +:+ old_var split) (Bin Add base_var inner_e) stmt)),
        <[inner split := factor split]> known).
Proof.
  intros Hd Hsplit Hpartial Hexact Hproved.
  rewrite (innermost_is_first_serial_or_parallel ds d Hd).
  unfold apply_split, split_base. rewrite Hsplit.
  rewrite Hproved, Hexact, Hpartial. reflexivity.
Qed.

(** What the loop over the splits returns once a split fails. *)
Lemma apply_splits_app prefix is_update innermost st pre post :
  apply_splits simplify is_zero likely substitute prefix is_update innermost
               st (pre ++ post)
  = do st' <- apply_splits simplify is_zero likely substitute prefix is_update
                           innermost st pre;
    apply_splits simplify is_zero likely substitute prefix is_update innermost
                 st' post.
Proof.
  revert st. induction pre as [|x pre IH]; intros st; simpl; [reflexivity|].
  destruct (apply_split _ _ _ _ _ _ _ st x); simpl; [apply IH | reflexivity].
Qed.

Lemma build_provide_loop_nest_stage f prefix site values s is_update c e :
  build_stage simplify is_zero likely substitute expr_uses_var unique_name
              indeterminate_for_type indeterminate_device_api indeterminate_pure
              f prefix site values s is_update c = Fail e ->
  build_provide_loop_nest simplify is_zero likely substitute expr_uses_var
              simplify_exprs unique_name
              indeterminate_for_type indeterminate_device_api indeterminate_pure
              f prefix site values s is_update c = Fail e.
Proof.
  intros H. destruct s; simpl. rewrite H. reflexivity.
Qed.

(** C4: an exact [SplitVar] whose factor is not proved to divide the
    known extent of its old variable ends compilation with a user error
    that names the old variable, the outer and the inner variable and
    the factor; [build_provide_loop_nest] returns no statement. *)
Theorem exact_split_is_rejected f prefix site values s is_update c
        spl c1 pre split post st extent :
  rebalance simplify unique_name (splits s) c = Ok (spl, c1) ->
  spl = (pre ++ split :: post)%list ->
  apply_splits simplify is_zero likely substitute prefix is_update
    (innermost_non_trivial_loop indeterminate_for_type indeterminate_device_api
                                indeterminate_pure (dims s))
    (Provide (func_name f) values site, known_size_dims s) pre = Ok st ->
  split_type split = SplitVar ->
  exact split = true ->
  (<[inner split := factor split]> (snd st)) !! old_var split = Some extent ->
  is_zero (simplify (Bin Mod extent (factor split))) = false ->
  exists msg,
    build_provide_loop_nest simplify is_zero likely substitute expr_uses_var
      simplify_exprs unique_name
      indeterminate_for_type indeterminate_device_api indeterminate_pure
      f prefix site values s is_update c = Fail (user_error msg)
    /\ In (Txt (old_var split)) msg /\ In (Txt (outer split)) msg
    /\ In (Txt (inner split)) msg /\ In (Ex (factor split)) msg.
Proof.
  intros Hreb -> Hpre Hsplit Hexact Hknown Hnot.
  exists (exact_split_message split extent). split.
  - apply build_provide_loop_nest_stage. unfold build_stage.
    rewrite Hreb. simpl. rewrite apply_splits_app, Hpre. simpl.
    destruct st as [stmt known]. simpl in Hknown.
    unfold apply_split, split_base. rewrite Hsplit, Hknown, Hnot, Hexact.
    reflexivity.
  - unfold exact_split_message. simpl. tauto.
Qed.

(** One iteration of the loop over the splits, on a [FuseVars]: the two
    lets, and their values under every assignment of the variables. *)
Lemma apply_split_fuses prefix is_update innermost stmt
        (known : gmap string Expr) split :
  split_type split = FuseVars ->
  let fused := var32 (prefix +:+ old_var split) in
  let inner_min := var32 (prefix +:+ inner split +:+ ".loop_min") in
  let outer_min := var32 (prefix +:+ outer split +:+ ".loop_min") in
  let inner_extent := var32 (prefix +:+ inner split +:+ ".loop_extent") in
  let factor_e := Bin Max inner_extent (IntImm 1) in
  let inner_e := Bin Add (Bin Mod fused factor_e) inner_min in
  let outer_e := Bin Add (Bin Div fused factor_e) outer_min in
  (exists known',
     apply_split simplify is_zero likely substitute prefix is_update innermost
                 (stmt, known) split
     = Ok (LetStmt (prefix +:+ outer split) outer_e
             (LetStmt (prefix +:+ inner split) inner_e
                (substitute (prefix +:+ outer split) outer_e
                   (substitute (prefix +:+ inner split) inner_e stmt))),
           known'))
  /\ (forall rho : string -> Z,
        eval_expr rho factor_e
        = Some (Z.max (rho (prefix +:+ inner split +:+ ".loop_extent")) 1)
        /\ (exists vi vo,
              eval_expr rho inner_e = Some vi /\ eval_expr rho outer_e = Some vo))
  /\ (forall rho : string -> Z,
        rho (prefix +:+ inner split +:+ ".loop_extent") = 0 ->
        eval_expr rho factor_e = Some 1
        /\ eval_expr rho inner_e
           = Some (wrap32 (rho (prefix +:+ old_var split) mod 1
                           + rho (prefix +:+ inner split +:+ ".loop_min")))
        /\ eval_expr rho outer_e
           = Some (wrap32 (wrap32 (rho (prefix +:+ old_var split) / 1)
                           + rho (prefix +:+ outer split +:+ ".loop_min")))).
Proof.
  intros Hfuse. cbv zeta. split; [|split].
  - unfold apply_split. rewrite Hfuse. eexists. reflexivity.
  - intros rho. split; [reflexivity|]. simpl.
    destruct (Z.eqb_spec (Z.max (rho (prefix +:+ inner split +:+ ".loop_extent")) 1) 0)
      as [H0 | _]; [lia|].
    eexists. eexists. split; reflexivity.
  - intros rho H0. simpl. rewrite H0. simpl. repeat split; reflexivity.
Qed.

(** C7, at the failing input: a rename followed by two chained splits.
    The first run coalesces the rename and skips the pair that follows
    it; a second run rewrites that pair, so it returns another list. *)
Theorem rebalance_twice_differs :
  let l :=
    [ mkSplit "x" "y" EmptyString (IntImm 1) false false RenameVar;
      mkSplit "y" "yo" "yi" (IntImm 4) false false SplitVar;
      mkSplit "yo" "yoo" "yoi" (IntImm 2) false false SplitVar ] in
  let once :=
    [ mkSplit "x" "yo" "yi" (IntImm 4) false false SplitVar;
      mkSplit "yo" "yoo" "yoi" (IntImm 2) false false SplitVar ] in
  let twice :=
    [ mkSplit "x" "yoo" (unique_name 0)
              (simplify (Bin Mul (IntImm 4) (IntImm 2))) false false SplitVar;
      mkSplit (unique_name 0) "yoi" "yi" (IntImm 4) false false SplitVar ] in
  rebalance simplify unique_name l 0 = Ok (once, O)
  /\ rebalance simplify unique_name once 0 = Ok (twice, 1%nat)
  /\ (outer <$> once) = ["yo"; "yoo"]
  /\ (outer <$> twice) = ["yoo"; "yoi"].
Proof. cbv zeta. repeat split; reflexivity. Qed.

End LoopNestFacts.

(** ** The builder on concrete schedules *)

Lemma exact_split_is_rejected_witness :
  exists msg,
    build_provide_loop_nest (fun e => e) is_zero_imm likely_call subst_stmt
      uses_var (fun s => s) s_name Serial Host false
      ex_func "f.s1." [var32 "f.s1.r"] [var32 "f.s1.r"] ex_update_schedule true 0
    = Fail (user_error msg)
    /\ In (Txt "r") msg /\ In (Txt "ro") msg /\ In (Txt "ri") msg
    /\ In (Ex (IntImm 4)) msg.
Proof.
  apply (exact_split_is_rejected (fun e => e) is_zero_imm likely_call subst_stmt
           uses_var (fun s => s) s_name Serial Host false
           ex_func "f.s1." [var32 "f.s1.r"] [var32 "f.s1.r"] ex_update_schedule
           true 0%nat [ex_exact_split] 0%nat [] ex_exact_split []
           (Provide "f" [var32 "f.s1.r"] [var32 "f.s1.r"],
            known_size_dims ex_update_schedule)
           (IntImm 7)).
  - reflexivity.
  - reflexivity.
  - reflexivity.
  - reflexivity.
  - reflexivity.
  - vm_compute. reflexivity.
  - reflexivity.
Defined.

(** ** The rebalancing loops terminate *)

Lemma swap_at_length {A} (l : list A) a b : length (swap_at l a b) = length l.
Proof.
  unfold swap_at. destruct (l !! a), (l !! b); try reflexivity.
  rewrite !length_insert. reflexivity.
Qed.

Lemma push_back_to_length n k l : length (push_back_to n k l) = length l.
Proof.
  revert k l. induction n as [|n IH]; intros k l; simpl; [reflexivity|].
  rewrite IH. apply swap_at_length.
Qed.

Lemma rebalance_from_total simplify unique_name fuel :
  forall i j l c,
    (i < j)%nat ->
    (rebalance_measure (length l) i j < fuel)%nat ->
    is_Some (rebalance_from simplify unique_name fuel i j l c).
Proof.
  unfold rebalance_measure.
  induction fuel as [|fuel IH]; intros i j l c Hij Hfuel;
    [exfalso; exact (Nat.nlt_0_r _ Hfuel)|].
  simpl.
  destruct (Nat.ltb_spec j (length l)) as [Hj | Hj].
  - destruct (lookup_lt_is_Some_2 l i ltac:(lia)) as [first Hfirst].
    destruct (lookup_lt_is_Some_2 l j Hj) as [second Hsecond].
    rewrite Hfirst, Hsecond.
    destruct (String.eqb (outer first) (old_var second)).
    + destruct (is_rename second); [eexists; reflexivity|].
      destruct (is_rename first).
      * apply IH; [lia|].
        rewrite length_delete
          by (apply lookup_lt_is_Some_2; rewrite length_insert; lia).
        rewrite length_insert. nia.
      * apply IH; [lia|].
        rewrite push_back_to_length, !length_insert. lia.
    + apply IH; lia.
  - destruct (Nat.ltb_spec (i + 1) (length l)) as [Hi | Hi].
    + apply IH; [lia|]. nia.
    + eexists; reflexivity.
Qed.

(** [rebalance] never runs out of fuel: its result is the loops' own. *)
Lemma rebalance_returns simplify unique_name l c :
  exists r,
    rebalance_from simplify unique_name (rebalance_fuel l) 0 1 l c = Some r
    /\ rebalance simplify unique_name l c = r.
Proof.
  destruct (rebalance_from_total simplify unique_name (rebalance_fuel l) 0 1 l c)
    as [r Hr].
  - lia.
  - unfold rebalance_measure, rebalance_fuel. nia.
  - exists r. split; [exact Hr|]. unfold rebalance. rewrite Hr. reflexivity.
Qed.

(** * Properties of validate_schedule *)

Lemma last_site_at_unique lvl sites i j :
  last_site_at lvl sites i -> last_site_at lvl sites j -> i = j.
Proof.
  intros [(si & Hi & Hmi) Hlast_i] [(sj & Hj & Hmj) Hlast_j].
  destruct (Nat.lt_trichotomy i j) as [Hlt | [Heq | Hgt]]; [|exact Heq|].
  - rewrite (Hlast_i j sj Hlt Hj) in Hmj. discriminate.
  - rewrite (Hlast_j i si Hgt Hi) in Hmi. discriminate.
Qed.

Lemma last_site_at_snoc_match lvl sites x :
  matches lvl x = true -> last_site_at lvl (sites ++ [x]) (length sites).
Proof.
  intros Hx. split.
  - exists x. split; [|exact Hx].
    rewrite lookup_app_r by lia. rewrite Nat.sub_diag. reflexivity.
  - intros j site Hj Hlook. apply lookup_lt_Some in Hlook.
    rewrite length_app in Hlook. simpl in Hlook. lia.
Qed.

Lemma last_site_at_snoc_other lvl sites x i :
  matches lvl x = false ->
  last_site_at lvl sites i -> last_site_at lvl (sites ++ [x]) i.
Proof.
  intros Hx [(si & Hi & Hmi) Hlast]. split.
  - exists si. split; [|exact Hmi]. rewrite lookup_app_l; [exact Hi|].
    eapply lookup_lt_Some; exact Hi.
  - intros j site Hj Hlook.
    destruct (Nat.lt_ge_cases j (length sites)) as [Hin | Hout].
    + rewrite lookup_app_l in Hlook by exact Hin. eapply Hlast; eassumption.
    + rewrite lookup_app_r in Hlook by exact Hout.
      destruct (j - length sites)%nat; simpl in Hlook; [|discriminate].
      inversion Hlook; subst. exact Hx.
Qed.

Lemma match_sites_app store_at compute_at l1 l2 i st :
  match_sites store_at compute_at (l1 ++ l2) i st
  = match_sites store_at compute_at l2 (i + length l1)
                (match_sites store_at compute_at l1 i st).
Proof.
  revert i st. induction l1 as [|x l1 IH]; intros i st; simpl.
  - rewrite Nat.add_0_r. reflexivity.
  - destruct st as [[[a b] c] d].
    destruct (ll_match (loop_level x) store_at),
             (ll_match (loop_level x) compute_at);
      rewrite IH; f_equal; lia.
Qed.

Lemma match_sites_found store_at compute_at sites :
  found_so_far store_at compute_at sites
               (match_sites store_at compute_at sites 0 (false, false, O, O)).
Proof.
  induction sites as [|x l IH] using rev_ind.
  - simpl. repeat split; try discriminate; reflexivity.
  - rewrite match_sites_app. simpl.
    destruct (match_sites store_at compute_at l 0 (false, false, O, O))
      as [[[sok cok] sidx] cidx].
    destruct IH as (Hs & Hslast & Hc & Hnc).
    unfold found_so_far. rewrite !existsb_app. simpl. rewrite !orb_false_r.
    fold (matches store_at x). fold (matches compute_at x).
    destruct (matches store_at x) eqn:Hms, (matches compute_at x) eqn:Hmc;
      simpl; rewrite ?orb_true_r, ?orb_false_r.
    + refine (conj eq_refl (conj _ (conj _ _))).
      * intros _. apply last_site_at_snoc_match. exact Hms.
      * intros _. split; [apply last_site_at_snoc_match; exact Hmc|].
        rewrite firstn_all2 by (rewrite length_app; simpl; lia).
        rewrite existsb_app. simpl. rewrite Hms. rewrite orb_true_r. reflexivity.
      * discriminate.
    + refine (conj eq_refl (conj _ (conj _ _))).
      * intros _. apply last_site_at_snoc_match. exact Hms.
      * intros H. destruct (Hc H) as [Hlast Hcok]. split.
        -- apply last_site_at_snoc_other; [exact Hmc | exact Hlast].
        -- destruct Hlast as [(sc & Hlook & _) _].
           apply lookup_lt_Some in Hlook.
           rewrite take_app_le by lia. exact Hcok.
      * exact Hnc.
    + refine (conj Hs (conj _ (conj _ _))).
      * intros H. apply last_site_at_snoc_other; [exact Hms | apply Hslast; exact H].
      * intros _. split; [apply last_site_at_snoc_match; exact Hmc|].
        rewrite firstn_all2 by (rewrite length_app; simpl; lia).
        rewrite existsb_app. simpl. rewrite Hms, !orb_false_r. exact Hs.
      * discriminate.
    + refine (conj Hs (conj _ (conj _ _))).
      * intros H. apply last_site_at_snoc_other; [exact Hms | apply Hslast; exact H].
      * intros H. destruct (Hc H) as [Hlast Hcok]. split.
        -- apply last_site_at_snoc_other; [exact Hmc | exact Hlast].
        -- destruct Hlast as [(sc & Hlook & _) _].
           apply lookup_lt_Some in Hlook.
           rewrite take_app_le by lia. exact Hcok.
      * exact Hnc.
Qed.

Lemma existsb_lookup {A} (p : A -> bool) (l : list A) :
  existsb p l = true <-> exists j x, l !! j = Some x /\ p x = true.
Proof.
  rewrite existsb_exists. split.
  - intros (x & Hin & Hp). apply list_elem_of_In, list_elem_of_lookup in Hin.
    destruct Hin as [j Hj]. exists j, x. split; assumption.
  - intros (j & x & Hj & Hp). exists x. split; [|exact Hp].
    apply list_elem_of_In, list_elem_of_lookup. exists j. exact Hj.
Qed.

Lemma last_site_at_exists lvl sites i :
  last_site_at lvl sites i -> existsb (matches lvl) sites = true.
Proof.
  intros [(site & Hlook & Hm) _]. apply existsb_lookup. exists i, site.
  split; assumption.
Qed.

Lemma parallel_between_nil n : forall i sites,
  parallel_between n i sites = [] <->
  forall k site, (i <= k < i + n)%nat -> sites !! k = Some site ->
                 is_parallel site = false.
Proof.
  induction n as [|n IH]; intros i sites; simpl.
  - split; [intros _ k site Hk; lia | reflexivity].
  - destruct (sites !! i) as [site0|] eqn:Hi.
    + destruct (is_parallel site0) eqn:Hp.
      * split; [discriminate|]. intros H. rewrite (H i site0) in Hp by (lia || assumption).
        discriminate.
      * rewrite IH. split.
        -- intros H k site Hk Hlook.
           destruct (Nat.eq_dec k i) as [-> | Hne].
           ++ rewrite Hi in Hlook. inversion Hlook; subst. exact Hp.
           ++ apply (H k site); [lia | exact Hlook].
        -- intros H k site Hk Hlook. apply (H k site); [lia | exact Hlook].
    + split; [|reflexivity]. intros _ k site Hk Hlook.
      apply lookup_ge_None in Hi. apply lookup_lt_Some in Hlook. lia.
Qed.

Lemma parallel_between_cons n : forall i sites site0 rest,
  parallel_between n i sites = site0 :: rest ->
  exists k site, (i <= k < i + n)%nat /\ sites !! k = Some site
                 /\ is_parallel site = true.
Proof.
  induction n as [|n IH]; intros i sites site0 rest; simpl; [discriminate|].
  destruct (sites !! i) as [site|] eqn:Hi; [|discriminate].
  destruct (is_parallel site) eqn:Hp.
  - intros _. exists i, site. repeat split; (lia || assumption).
  - intros H. destruct (IH _ _ _ _ H) as (k & site' & Hk & Hlook & Hp').
    exists k, site'. repeat split; (lia || assumption).
Qed.

(** The levels were checked against the sites: the extern inputs passed,
    the function is no output and is not fully inline. *)
Lemma validate_schedule_checks_sites f s sites :
  extern_check f = Ok tt ->
  is_inline (store_level (func_schedule f))
  && is_inline (compute_level (func_schedule f)) = false ->
  sites_allowed (func_name f) s = Ok sites ->
  snd (validate_schedule f s false)
  = check_sites f s sites (store_level (func_schedule f))
                (compute_level (func_schedule f)).
Proof.
  intros Hextern Hinline Hsites. unfold validate_schedule. rewrite Hextern.
  simpl. unfold check_levels. rewrite Hinline, Hsites. reflexivity.
Qed.

Lemma invalid_location_is_no_race f s sites store_at compute_at :
  is_race_error (user_error (invalid_location f s sites store_at compute_at))
  = false.
Proof. reflexivity. Qed.

(** C1, as the code has it.  For a function that is no output, passes the
    check of its extern inputs and is not fully inline, with [si] and [ci]
    the last sites matching [store_at] and [compute_at]: the race-condition
    error is raised exactly when a parallel site lies after [si] and at or
    before [ci], the [compute_at] site included; and when [si <= ci] and no
    site in that window is parallel, the schedule is accepted. *)
Theorem race_window_includes_compute_site f s sites :
  extern_check f = Ok tt ->
  is_inline (store_level (func_schedule f))
  && is_inline (compute_level (func_schedule f)) = false ->
  sites_allowed (func_name f) s = Ok sites ->
  let store_at := store_level (func_schedule f) in
  let compute_at := compute_level (func_schedule f) in
  let result := snd (validate_schedule f s false) in
  ((exists e, result = Fail e /\ is_race_error e = true) <->
   (exists si ci i site,
      last_site_at store_at sites si /\ last_site_at compute_at sites ci
      /\ (si < i <= ci)%nat /\ sites !! i = Some site
      /\ is_parallel site = true))
  /\ (forall si ci,
        last_site_at store_at sites si -> last_site_at compute_at sites ci ->
        (si <= ci)%nat ->
        (forall i site, (si < i <= ci)%nat -> sites !! i = Some site ->
                        is_parallel site = false) ->
        result = Ok tt).
Proof.
  intros Hextern Hinline Hsites. cbv zeta.
  rewrite (validate_schedule_checks_sites f s sites Hextern Hinline Hsites).
  unfold check_sites.
  pose proof (match_sites_found (store_level (func_schedule f))
                (compute_level (func_schedule f)) sites) as Hfound.
  destruct (match_sites _ _ sites 0 (false, false, O, O))
    as [[[sok cok] sidx] cidx].
  destruct Hfound as (Hs & Hslast & Hc & Hnc).
  assert (Hboth : forall si ci,
             last_site_at (store_level (func_schedule f)) sites si ->
             last_site_at (compute_level (func_schedule f)) sites ci ->
             (si <= ci)%nat ->
             sok = true /\ cok = true /\ sidx = si /\ cidx = ci).
  { intros si ci Hsi Hci Hle.
    pose proof (last_site_at_exists _ _ _ Hsi) as Hes.
    pose proof (last_site_at_exists _ _ _ Hci) as Hec.
    rewrite Hes in Hs. subst sok.
    destruct (Hc Hec) as [Hclast Hcok].
    pose proof (last_site_at_unique _ _ _ _ (Hslast eq_refl) Hsi) as ->.
    pose proof (last_site_at_unique _ _ _ _ Hclast Hci) as ->.
    repeat split; try reflexivity.
    rewrite Hcok. apply existsb_lookup.
    destruct Hsi as [(site & Hlook & Hm) _]. exists si, site. split; [|exact Hm].
    rewrite lookup_take_lt by lia. exact Hlook. }
  split; [split|].
  - intros (e & Hres & Hrace).
    destruct sok; [|simpl in Hres; inversion Hres; subst e;
                    rewrite invalid_location_is_no_race in Hrace; discriminate].
    destruct cok; [|simpl in Hres; inversion Hres; subst e;
                    rewrite invalid_location_is_no_race in Hrace; discriminate].
    simpl in Hres.
    destruct (parallel_between (cidx - sidx) (S sidx) sites) as [|site0 rest] eqn:Hpar;
      [discriminate|].
    destruct (parallel_between_cons _ _ _ _ _ Hpar) as (k & site & Hk & Hlook & Hp).
    assert (Hec : existsb (matches (compute_level (func_schedule f))) sites = true).
    { destruct (existsb (matches (compute_level (func_schedule f))) sites);
        [reflexivity | specialize (Hnc eq_refl); discriminate]. }
    exists sidx, cidx, k, site.
    refine (conj (Hslast eq_refl) (conj (proj1 (Hc Hec)) (conj _ (conj Hlook Hp)))).
    lia.
  - intros (si & ci & i & site & Hsi & Hci & Hi & Hlook & Hp).
    destruct (Hboth si ci Hsi Hci ltac:(lia)) as (-> & -> & -> & ->). simpl.
    destruct (parallel_between (ci - si) (S si) sites) as [|site0 rest] eqn:Hpar.
    + rewrite parallel_between_nil in Hpar.
      rewrite (Hpar i site) in Hp by (lia || assumption). discriminate.
    + eexists. split; reflexivity.
  - intros si ci Hsi Hci Hle Hnone.
    destruct (Hboth si ci Hsi Hci Hle) as (-> & -> & -> & ->). simpl.
    assert (Hpar : parallel_between (ci - si) (S si) sites = []).
    { apply parallel_between_nil. intros k site Hk Hlook.
      apply (Hnone k site); [lia | exact Hlook]. }
    rewrite Hpar. reflexivity.
Qed.

(** ** A consumer loop and a producer scheduled inside it *)

(** C1 as stated fails: [store_at] is site 0 and [compute_at] is site 1, so
    no site lies strictly between them, and the parallel [compute_at] site
    itself makes the schedule a race. *)
Lemma race_at_compute_site :
  sites_allowed "g" (ex_nest Parallel) = Ok (ex_sites Parallel)
  /\ ex_sites Parallel !! 0%nat = Some (mkSite false (store_level (func_schedule ex_g)))
  /\ ex_sites Parallel !! 1%nat = Some (mkSite true (compute_level (func_schedule ex_g)))
  /\ snd (validate_schedule ex_g (ex_nest Parallel) false)
     = Fail (user_error
               (race_message ex_g (mkSite true ex_fx)
                ++ invalid_location ex_g (ex_nest Parallel) (ex_sites Parallel)
                                    LoopLevel_root ex_fx))
  /\ is_race_error
       (user_error
          (race_message ex_g (mkSite true ex_fx)
           ++ invalid_location ex_g (ex_nest Parallel) (ex_sites Parallel)
                               LoopLevel_root ex_fx)) = true.
Proof. repeat split; reflexivity. Qed.

Lemma race_window_includes_compute_site_witness :
  ((exists e, snd (validate_schedule ex_g (ex_nest Parallel) false) = Fail e
              /\ is_race_error e = true) <->
   (exists si ci i site,
      last_site_at LoopLevel_root (ex_sites Parallel) si
      /\ last_site_at ex_fx (ex_sites Parallel) ci
      /\ (si < i <= ci)%nat /\ ex_sites Parallel !! i = Some site
      /\ is_parallel site = true))
  /\ (forall si ci,
        last_site_at LoopLevel_root (ex_sites Parallel) si ->
        last_site_at ex_fx (ex_sites Parallel) ci ->
        (si <= ci)%nat ->
        (forall i site, (si < i <= ci)%nat -> ex_sites Parallel !! i = Some site ->
                        is_parallel site = false) ->
        snd (validate_schedule ex_g (ex_nest Parallel) false) = Ok tt).
Proof.
  apply (race_window_includes_compute_site ex_g (ex_nest Parallel) (ex_sites Parallel));
    reflexivity.
Defined.

Lemma extern_inputs_check_names f_name args e :
  extern_inputs_check f_name args = Fail e ->
  exists msg, e = user_error msg /\ In (Txt f_name) msg.
Proof.
  induction args as [|arg args IH]; simpl; [discriminate|].
  destruct arg as [x | g | n | n]; try exact IH.
  destruct (is_inline (compute_level (func_schedule g))); [|exact IH].
  intros H. inversion H; subst. eexists. split; [reflexivity|].
  simpl. tauto.
Qed.

(** C8, as the code has it.  An output whose levels are not both root is
    rejected with a user error that names it.  When both are root and the
    check of its extern inputs has passed, validation succeeds whatever
    the statement is. *)
Theorem output_must_be_root f :
  (is_root (store_level (func_schedule f))
   && is_root (compute_level (func_schedule f)) = false ->
   forall s, exists msg,
     snd (validate_schedule f s true) = Fail (user_error msg)
     /\ In (Txt (func_name f)) msg)
  /\ (extern_check f = Ok tt ->
      is_root (store_level (func_schedule f))
      && is_root (compute_level (func_schedule f)) = true ->
      forall s, validate_schedule f s true = (update_warnings f, Ok tt)).
Proof.
  split.
  - intros Hroot s. unfold validate_schedule.
    destruct (extern_check f) as [[]|e] eqn:Hextern.
    + simpl. unfold check_levels. rewrite Hroot.
      eexists. split; [reflexivity|]. simpl. tauto.
    + unfold extern_check in Hextern.
      destruct (has_extern_definition f); [|discriminate].
      destruct (extern_inputs_check_names _ _ _ Hextern) as (msg & -> & Hin).
      exists msg. split; [reflexivity | exact Hin].
  - intros Hextern Hroot s. unfold validate_schedule. rewrite Hextern.
    unfold check_levels. rewrite Hroot. reflexivity.
Qed.

(** C8 as stated fails: this output is store_root and compute_root, and
    validation ends with a user error all the same. *)
Lemma root_output_with_inline_extern_input :
  is_root (store_level (func_schedule ex_extern_output))
  && is_root (compute_level (func_schedule ex_extern_output)) = true
  /\ validate_schedule ex_extern_output (ex_nest Serial) true
     = ([], Fail (user_error
                    [ Txt "Func "; Txt "h";
                      Txt " cannot be scheduled to be computed inline, ";
                      Txt "because it is used in the externally-computed function ";
                      Txt "out"; Txt nl ])).
Proof. split; reflexivity. Qed.

Lemma output_must_be_root_witness :
  (exists msg,
     snd (validate_schedule ex_g (ex_nest Serial) true) = Fail (user_error msg)
     /\ In (Txt "g") msg)
  /\ validate_schedule ex_plain_output (Evaluate (IntImm 0)) true = ([], Ok tt).
Proof.
  split.
  - exact (proj1 (output_must_be_root ex_g) eq_refl (ex_nest Serial)).
  - exact (proj2 (output_must_be_root ex_plain_output) eq_refl eq_refl
                 (Evaluate (IntImm 0))).
Defined.

(** C9: the site of a loop is flagged parallel exactly when the loop is
    Parallel or Vectorized; the legal-site walk cannot tell a Vectorized
    loop from a Parallel one; and storing [g] at root while computing it
    inside the loop over [x] is a race when that loop is Parallel or
    Vectorized, and is accepted when it is Serial or Unrolled. *)
Theorem vectorized_loop_is_a_parallel_site :
  (forall name ft site,
      site_of_loop name ft = Ok site ->
      (is_parallel site = true <-> ft = Parallel \/ ft = Vectorized))
  /\ (forall func sites st name min extent dev body,
        legal_stmt func sites st (For name min extent Vectorized dev body)
        = legal_stmt func sites st (For name min extent Parallel dev body))
  /\ (forall ft,
        snd (validate_schedule ex_g (ex_nest ft) false)
        = if ForType_eqb ft Parallel || ForType_eqb ft Vectorized
          then Fail (user_error
                       (race_message ex_g (mkSite true ex_fx)
                        ++ invalid_location ex_g (ex_nest ft) (ex_sites ft)
                                            LoopLevel_root ex_fx))
          else Ok tt).
Proof.
  split; [|split].
  - intros name ft site. unfold site_of_loop.
    destruct (find_dot name), (rfind_dot name); try discriminate.
    intros H. inversion H; subst; simpl.
    destruct ft; simpl; split; intros H'; try discriminate;
      try (destruct H'; discriminate); auto.
  - reflexivity.
  - intros ft. destruct ft; reflexivity.
Qed.

(** * Properties of the clean-up passes *)

(** Induction on expressions, with the arguments of a call covered. *)
Lemma Expr_nested_ind (P : Expr -> Prop)
      (HIntImm : forall v, P (IntImm v))
      (HStringImm : forall v, P (StringImm v))
      (HCast : forall t v, P v -> P (Cast t v))
      (HVariable : forall t n, P (Variable_ t n))
      (HBin : forall op a b, P a -> P b -> P (Bin op a b))
      (HNot : forall a, P a -> P (Not a))
      (HSelect : forall c t f, P c -> P t -> P f -> P (Select c t f))
      (HLoad : forall t n i, P i -> P (Load t n i))
      (HRamp : forall b s w, P b -> P s -> P (Ramp b s w))
      (HBroadcast : forall v w, P v -> P (Broadcast v w))
      (HCall : forall t n args ct, Forall P args -> P (Call t n args ct))
      (HLet : forall n v b, P v -> P b -> P (Let_ n v b)) :
  forall e, P e.
Proof.
  fix IH 1. intros [v|v|t v|t n|op a b|a|c t f|t n i|b s w|v w|t n args ct|n v b].
  - apply HIntImm.
  - apply HStringImm.
  - apply HCast, IH.
  - apply HVariable.
  - apply HBin; apply IH.
  - apply HNot, IH.
  - apply HSelect; apply IH.
  - apply HLoad, IH.
  - apply HRamp; apply IH.
  - apply HBroadcast, IH.
  - apply HCall. induction args as [|a args IHargs]; constructor; [apply IH | exact IHargs].
  - apply HLet; apply IH.
Qed.

Lemma remove_expr_clean e : expr_clean (remove_expr e) = true.
Proof.
  induction e using Expr_nested_ind; simpl;
    rewrite ?IHe, ?IHe1, ?IHe2, ?IHe3; try reflexivity.
  - destruct (ends_with n outermost_extent) eqn:He; [reflexivity|].
    destruct (ends_with n outermost_min) eqn:Hm; [reflexivity|].
    destruct (ends_with n outermost_max) eqn:Hx; [reflexivity|].
    simpl. unfold is_outermost_bound. rewrite He, Hm, Hx. reflexivity.
  - induction H as [|a args Ha Hargs IH]; simpl; [reflexivity|].
    rewrite Ha. exact IH.
Qed.

Lemma remove_exprs_clean l : forallb expr_clean (map remove_expr l) = true.
Proof.
  induction l as [|e l IH]; simpl; [reflexivity|].
  rewrite remove_expr_clean. exact IH.
Qed.

Lemma remove_stmt_clean s : stmt_clean (remove_stmt s) = true.
Proof.
  induction s; simpl;
    rewrite ?remove_expr_clean, ?remove_exprs_clean, ?IHs, ?IHs1, ?IHs2, ?IHs3;
    try reflexivity.
  - destruct (is_outermost_bound name) eqn:Hn; [exact IHs|].
    simpl. rewrite Hn, remove_expr_clean, IHs. reflexivity.
  - destruct (ends_with name outermost_loop) eqn:Hn; [exact IHs|].
    simpl. rewrite Hn, !remove_expr_clean, IHs. reflexivity.
  - induction bounds0 as [|b l IH]; simpl; [reflexivity|].
    rewrite !remove_expr_clean. exact IH.
Qed.

Lemma propagate_device_clean s :
  forall dev, stmt_clean (propagate_device dev s) = stmt_clean s.
Proof.
  induction s; intros dev; simpl;
    rewrite ?IHs, ?IHs1, ?IHs2, ?IHs3; reflexivity.
Qed.

Lemma prefix_first_letter a s c m :
  String.prefix (String a s) (String c m) = true -> a = c.
Proof.
  simpl. destruct (ascii_dec a c) as [Heq | _]; [intros _; exact Heq | discriminate].
Qed.

(** A name ends in at most one of the three bounds: their last letters
    differ. *)
Lemma ends_with_min_not_extent n :
  ends_with n outermost_min = true -> ends_with n outermost_extent = false.
Proof.
  unfold ends_with.
  change (String.rev outermost_min) with "nim_pool.tsomretuo__.".
  change (String.rev outermost_extent) with "tnetxe_pool.tsomretuo__.".
  destruct (String.rev n) as [|c m]; [discriminate|].
  intros H. apply prefix_first_letter in H. subst c. reflexivity.
Qed.

Lemma ends_with_max_not_extent n :
  ends_with n outermost_max = true -> ends_with n outermost_extent = false.
Proof.
  unfold ends_with.
  change (String.rev outermost_max) with "xam_pool.tsomretuo__.".
  change (String.rev outermost_extent) with "tnetxe_pool.tsomretuo__.".
  destruct (String.rev n) as [|c m]; [discriminate|].
  intros H. apply prefix_first_letter in H. subst c. reflexivity.
Qed.

Lemma ends_with_max_not_min n :
  ends_with n outermost_max = true -> ends_with n outermost_min = false.
Proof.
  unfold ends_with.
  change (String.rev outermost_max) with "xam_pool.tsomretuo__.".
  change (String.rev outermost_min) with "nim_pool.tsomretuo__.".
  destruct (String.rev n) as [|c m]; [discriminate|].
  intros H. apply prefix_first_letter in H. subst c. reflexivity.
Qed.


(** ** Lowering one output *)


(** * Properties of the partitioner *)

Lemma wrap64_id z : - 2 ^ 63 <= z < 2 ^ 63 -> wrap64 z = z.
Proof.
  intros Hz. unfold wrap64, wrap.
  change (64 - 1) with 63.
  rewrite Z.mod_small; [lia|].
  change (2 ^ 64) with (2 * 2 ^ 63). lia.
Qed.

(** The cost model at the end of [evaluate_option], when both quantities
    it asserts positive are so and the [long long] products do not
    overflow. *)
Lemma cost_model_benefit arch l inter_s total_mem estimate_tiles
        original_work total_work opt :
  let cap := match l with
             | INLINE => inline_size arch
             | FAST_MEM => fast_mem_size arch
             end in
  let balance := match l with
                 | INLINE => balance_inline arch
                 | FAST_MEM => balance_fast_mem arch
                 end in
  let work := fmax (fsub total_work (float_of_Z original_work)) fzero in
  0 < total_mem ->
  flt (float_of_Z 0) total_work = true ->
  - 2 ^ 63 <= total_mem * balance < 2 ^ 63 ->
  - 2 ^ 63 <= 2 * cap < 2 ^ 63 ->
  - 2 ^ 63 <= 2 * cap - inter_s < 2 ^ 63 ->
  benefit opt = minus_one ->
  exists opt',
    cost_model arch l inter_s total_mem estimate_tiles original_work total_work opt
    = Ok opt'
    /\ redundant_work opt' = work
    /\ benefit opt'
       = if parallelism arch >? estimate_tiles then minus_one
         else if inter_s <=? cap then
           fsub (float_of_Z (total_mem * balance)) work
         else if inter_s <=? 2 * cap then
           fsub (fmul (fmul (fdiv (float_of_Z (Z.max (2 * cap - inter_s) 0))
                                  (float_of_Z inter_s))
                            (float_of_Z total_mem))
                      (float_of_Z balance))
                work
         else minus_one.
Proof.
  intros cap balance work Hmem Hwork Hprod Hcap Hdiff Hentry.
  unfold cost_model.
  assert (Hmem' : (0 <? total_mem) = true) by (apply Z.ltb_lt; exact Hmem).
  rewrite Hmem', Hwork. simpl negb. cbv iota.
  rewrite Z.gtb_ltb.
  destruct l; subst cap balance; cbv beta iota zeta in *;
    rewrite ?(wrap64_id _ Hprod), ?(wrap64_id _ Hcap), ?(wrap64_id _ Hdiff);
    destruct (estimate_tiles <? parallelism arch);
    destruct (inter_s <=? _); try (eexists; split; [reflexivity|]; split; reflexivity);
    destruct (inter_s <=? _); try (eexists; split; [reflexivity|]; split; reflexivity);
    (eexists; split; [reflexivity|]; split; [reflexivity | simpl; exact Hentry]).
Qed.

(** Above -1, the order of floats carries on. *)
Lemma flt_above_minus_one a b :
  flt minus_one a = true -> flt a b = true -> flt minus_one b = true.
Proof.
  unfold flt, SFltb, minus_one.
  change (float_of_Z (-1)) with (S754_finite true 8388608 (-23)).
  unfold SFcompare.
  destruct a as [sa|sa| |sa ma ea], b as [sb|sb| |sb mb eb];
    try destruct sa; try destruct sb; cbv beta iota;
    try (intros; reflexivity); intros H1 H2;
    try (exfalso; clear -H1; congruence);
    try (exfalso; clear -H2; congruence).
  change (PosDef.Pos.compare_cont Eq 8388608 ma) with (Pos.compare 8388608 ma) in H1.
  change (PosDef.Pos.compare_cont Eq 8388608 mb) with (Pos.compare 8388608 mb).
  change (PosDef.Pos.compare_cont Eq ma mb) with (Pos.compare ma mb) in H2.
  destruct (Z.compare_spec (-23) ea) as [He1 | He1 | He1];
    try (exfalso; clear -H1; congruence);
    destruct (Z.compare_spec ea eb) as [He2 | He2 | He2];
    try (exfalso; clear -H2; congruence);
    destruct (Z.compare_spec (-23) eb) as [He3 | He3 | He3];
    try (exfalso; lia); try reflexivity.
  destruct (8388608 ?= ma)%positive eqn:E1; try discriminate H1.
  destruct (ma ?= mb)%positive eqn:E2; try discriminate H2.
  apply Pos.compare_gt_iff in E1, E2.
  assert (E3 : (8388608 ?= mb)%positive = Gt)
    by (apply Pos.compare_gt_iff; exact (Pos.lt_trans _ _ _ E2 E1)).
  rewrite E3. reflexivity.
Qed.

Section GroupingFacts.

Variable inter_s_of :
  list string -> string -> list (Z * Z) -> Level -> gmap string string -> Z.
Variable work_per_tile_of : list string -> string -> list (Z * Z) -> Z.
Variable indeterminate_float : float.

Lemma better_sentinel_or_above best_opt cand_opt :
  sentinel_or_above best_opt -> sentinel_or_above (better best_opt cand_opt).
Proof.
  intros Hbest. unfold better.
  destruct (flt (benefit best_opt) (benefit cand_opt)) eqn:Hlt; [|exact Hbest].
  right. destruct Hbest as [Heq | Habove].
  - rewrite Heq in Hlt. exact Hlt.
  - exact (flt_above_minus_one _ _ Habove Hlt).
Qed.

Lemma choose_sentinel_or_above candidate p cand_pairs :
  forall st best cache,
    choose candidate p cand_pairs st = Ok (best, cache) ->
    sentinel_or_above (fst st) -> sentinel_or_above best.
Proof.
  induction cand_pairs as [|pr rest IH]; intros [best_opt cache0] best cache; simpl.
  - intros H Hst. inversion H; subst. exact Hst.
  - intros H Hst. destruct (cache0 !! pr) as [cand_opt|].
    + eapply IH; [exact H|]. apply better_sentinel_or_above. exact Hst.
    + destruct (candidate p pr) as [cand_opt|e]; simpl in H; [|discriminate].
      eapply IH; [exact H|]. apply better_sentinel_or_above. exact Hst.
Qed.

Lemma chosen_sentinel_or_above p level best cache :
  match level with
  | INLINE =>
      choose_candidate_inline inter_s_of work_per_tile_of indeterminate_float
                              p (candidate_pairs p)
  | FAST_MEM =>
      choose_candidate inter_s_of work_per_tile_of indeterminate_float
                       p (candidate_pairs p)
  end = Ok (best, cache) ->
  sentinel_or_above best.
Proof.
  destruct level; intros H;
    (eapply choose_sentinel_or_above; [exact H | left; reflexivity]).
Qed.

(** What one iteration of the grouping loop has done when it merged. *)
Lemma group_step_merges p level p' best :
  group_step inter_s_of work_per_tile_of indeterminate_float p level
  = Ok (p', Some best) ->
  feq (benefit best) minus_one = false
  /\ flt minus_one (benefit best) = true
  /\ exists b,
      float_to_integer 32 (benefit best) = Some b
      /\ group_sched p' !! cons_group best
         = Some (mkGroupSched (tile_sizes best) b).
Proof.
  unfold group_step. intros H.
  destruct (match level with
            | INLINE => choose_candidate_inline _ _ _ p (candidate_pairs p)
            | FAST_MEM => choose_candidate _ _ _ p (candidate_pairs p)
            end) as [[best0 cache]|e] eqn:Hchosen; simpl in H; [|discriminate].
  pose proof (chosen_sentinel_or_above p level best0 cache Hchosen) as Hinv.
  destruct (feq (benefit best0) minus_one) eqn:Hfeq; simpl in H; [discriminate|].
  destruct (merge_groups _ _ _) as [p3|e]; simpl in H; [|discriminate].
  destruct (float_to_integer 32 (benefit best0)) as [b|] eqn:Hb; [|discriminate].
  inversion H; subst. split; [exact Hfeq|]. split.
  - destruct Hinv as [Heq | Habove]; [|exact Habove].
    rewrite Heq in Hfeq. discriminate.
  - exists b. split; [exact Hb|]. simpl. apply lookup_insert_eq.
Qed.

(** C2, as the code has it: the option an iteration of the grouping loop
    merges, and records as the schedule of the consumer group, has a
    benefit that differs from the sentinel -1 and lies strictly above
    it; it need not be positive.  So has every option merged by a run
    of the loop, in either phase. *)
Theorem accepted_merge_beats_the_sentinel :
  (forall p level p' best,
      group_step inter_s_of work_per_tile_of indeterminate_float p level
      = Ok (p', Some best) ->
      feq (benefit best) minus_one = false
      /\ flt minus_one (benefit best) = true
      /\ exists b,
          float_to_integer 32 (benefit best) = Some b
          /\ group_sched p' !! cons_group best
             = Some (mkGroupSched (tile_sizes best) b))
  /\ (forall fuel p level p' merged,
        group inter_s_of work_per_tile_of indeterminate_float fuel p level
        = Some (Ok (p', merged)) ->
        Forall (fun best => feq (benefit best) minus_one = false
                            /\ flt minus_one (benefit best) = true) merged).
Proof.
  split; [exact group_step_merges|].
  induction fuel as [|fuel IH]; intros p level p' merged; simpl; [discriminate|].
  destruct (group_step _ _ _ p level) as [[p1 [best|]]|e] eqn:Hstep.
  - destruct (group _ _ _ fuel p1 level) as [[[p2 rest]|e]|] eqn:Hrest;
      try discriminate.
    intros H. inversion H; subst. constructor.
    + destruct (group_step_merges _ _ _ _ Hstep) as (Hne & Habove & _).
      split; assumption.
    + eapply IH. exact Hrest.
  - intros H. inversion H; subst. constructor.
  - discriminate.
Qed.

End GroupingFacts.

(** ** A producer and its single consumer *)

(** C2 as stated fails: the loop merges [a] into [b] on an option whose
    benefit is 0, which is not strictly positive, and records it as the
    schedule of [b]. *)
Lemma merge_with_zero_benefit :
  match group_step ex_inter_s ex_work_per_tile fzero ex_partitioner FAST_MEM with
  | Ok (p', Some best) =>
      prod_group best = "a" /\ cons_group best = "b"
      /\ tile_sizes best = [256]
      /\ benefit best = S754_zero false
      /\ flt fzero (benefit best) = false
      /\ group_sched p' !! "b" = Some (mkGroupSched [256] 0)
      /\ groups p' !! "b" = Some ["b"; "a"]
      /\ groups p' !! "a" = None
  | _ => False
  end.
Proof. vm_compute. repeat split. Qed.

Lemma accepted_merge_beats_the_sentinel_witness :
  match group_step ex_inter_s ex_work_per_tile fzero ex_partitioner FAST_MEM with
  | Ok (p', Some best) =>
      feq (benefit best) minus_one = false
      /\ flt minus_one (benefit best) = true
      /\ exists b,
          float_to_integer 32 (benefit best) = Some b
          /\ group_sched p' !! cons_group best
             = Some (mkGroupSched (tile_sizes best) b)
  | _ => False
  end.
Proof.
  pose proof (proj1 (accepted_merge_beats_the_sentinel
                       ex_inter_s ex_work_per_tile fzero)
                    ex_partitioner FAST_MEM) as H.
  destruct (group_step ex_inter_s ex_work_per_tile fzero ex_partitioner FAST_MEM)
    as [[p' [best|]]|e] eqn:E.
  - exact (H p' best eq_refl).
  - vm_compute in E. discriminate E.
  - vm_compute in E. discriminate E.
Defined.

(** * Further properties *)

Lemma rebalance_from_chain_free simplify unique_name fuel :
  forall i j l c,
    (i < j)%nat ->
    (rebalance_measure (length l) i j < fuel)%nat ->
    chain_free l ->
    rebalance_from simplify unique_name fuel i j l c = Some (Ok (l, c)).
Proof.
  unfold rebalance_measure.
  induction fuel as [|fuel IH]; intros i j l c Hij Hfuel Hfree;
    [exfalso; exact (Nat.nlt_0_r _ Hfuel)|].
  simpl.
  destruct (Nat.ltb_spec j (length l)) as [Hj | Hj].
  - destruct (lookup_lt_is_Some_2 l i ltac:(lia)) as [first Hfirst].
    destruct (lookup_lt_is_Some_2 l j Hj) as [second Hsecond].
    rewrite Hfirst, Hsecond, (Hfree i j first second Hij Hfirst Hsecond).
    apply IH; [lia | lia | exact Hfree].
  - destruct (Nat.ltb_spec (i + 1) (length l)) as [Hi | Hi]; [|reflexivity].
    apply IH; [lia | nia | exact Hfree].
Qed.

(** A list in which no split derives the old variable of a later one is
    left as it is, and no name is drawn. *)
Theorem rebalance_keeps_chain_free simplify unique_name l c :
  chain_free l -> rebalance simplify unique_name l c = Ok (l, c).
Proof.
  intros Hfree. unfold rebalance.
  rewrite (rebalance_from_chain_free simplify unique_name (rebalance_fuel l) 0 1 l c);
    [reflexivity | lia | | exact Hfree].
  unfold rebalance_measure, rebalance_fuel. nia.
Qed.

Lemma chain_free_decide l :
  forallb (fun ia =>
             forallb (fun b => negb (String.eqb (outer (snd ia)) (old_var b)))
                     (drop (S (fst ia)) l))
          (imap (fun i a => (i, a)) l) = true ->
  chain_free l.
Proof.
  intros H i j a b Hij Hi Hj.
  rewrite forallb_forall in H.
  assert (Hin : In (i, a) (imap (fun i a => (i, a)) l)).
  { apply list_elem_of_In, list_elem_of_lookup. exists i.
    rewrite list_lookup_imap, Hi. reflexivity. }
  specialize (H _ Hin). simpl in H. rewrite forallb_forall in H.
  assert (Hinb : In b (drop (S i) l)).
  { apply list_elem_of_In, list_elem_of_lookup. exists (j - S i)%nat.
    rewrite lookup_drop. replace (S i + (j - S i))%nat with j by lia. exact Hj. }
  specialize (H _ Hinb). apply negb_true_iff in H. exact H.
Qed.

(** Three chained splits, rebalanced, stay as they are when rebalanced
    again. *)
Lemma rebalance_keeps_chain_free_witness :
  rebalance (fun e => e) s_name
            [ mkSplit "x" "xo" "xi" (IntImm 4) false false SplitVar;
              mkSplit "xo" "xoo" "xoi" (IntImm 2) false false SplitVar;
              mkSplit "xoo" "p" "q" (IntImm 3) false false SplitVar ] 0
  = Ok (ex_rebalanced, 2%nat)
  /\ rebalance (fun e => e) s_name ex_rebalanced 2 = Ok (ex_rebalanced, 2%nat).
Proof.
  split; [reflexivity|].
  apply (rebalance_keeps_chain_free (fun e => e) s_name ex_rebalanced 2%nat).
  apply chain_free_decide. reflexivity.
Defined.

(** The loops over the splits always come to an end. *)
Theorem rebalance_terminates simplify unique_name l c :
  exists r,
    rebalance_from simplify unique_name (rebalance_fuel l) 0 1 l c = Some r
    /\ rebalance simplify unique_name l c = r.
Proof. apply rebalance_returns. Qed.

(** Storing at a Parallel loop and computing at a Serial loop inside it is
    accepted: the race check starts after the store site. *)
Theorem store_at_parallel_loop_is_accepted :
  sites_allowed "g" ex_nest_2d
  = Ok [ mkSite false LoopLevel_root; mkSite true (mkLoopLevel "f" "y");
         mkSite false ex_fx ]
  /\ validate_schedule ex_g_2d ex_nest_2d false = ([], Ok tt).
Proof. split; reflexivity. Qed.

(** * Uses of a function and its legal sites *)

Ltac split_unused :=
  repeat match goal with
         | H : (_ || _)%bool = false |- _ => apply orb_false_iff in H as [? ?]
         end.

Lemma legal_expr_unused func e :
  expr_is_used func e = false ->
  forall sites st, legal_expr func sites st e = st.
Proof.
  induction e using Expr_nested_ind; simpl; intros Hu sites st;
    try reflexivity; auto.
  - rewrite Hu. reflexivity.
  - apply orb_false_iff in Hu as [Ha Hb]. rewrite IHe1, IHe2; auto.
  - apply orb_false_iff in Hu as [Hu Hf]. apply orb_false_iff in Hu as [Hc Ht].
    rewrite IHe1, IHe2, IHe3; auto.
  - apply orb_false_iff in Hu as [Ha Hb]. rewrite IHe1, IHe2; auto.
  - apply orb_false_iff in Hu as [Hargs Hn]. rewrite Hn.
    revert st. induction H as [|a args Ha _ IH]; simpl; intros st; [reflexivity|].
    simpl in Hargs. apply orb_false_iff in Hargs as [Hua Hargs].
    rewrite Ha; auto.
  - apply orb_false_iff in Hu as [Ha Hb]. rewrite IHe1, IHe2; auto.
Qed.

Lemma legal_exprs_unused func l :
  existsb (expr_is_used func) l = false ->
  forall sites st, legal_exprs func sites st l = st.
Proof.
  unfold legal_exprs. induction l as [|e l IH]; simpl; intros Hu sites st;
    [reflexivity|].
  apply orb_false_iff in Hu as [He Hl]. rewrite legal_expr_unused; auto.
Qed.

(** The walk over a statement that does not use the function leaves the
    visitor as it was, unless it stops at a loop whose name has no dot. *)
Lemma legal_stmt_unused func s :
  stmt_is_used func s = false ->
  forall sites st,
    legal_stmt func sites st s = Ok st
    \/ exists m, legal_stmt func sites st s = Fail (internal_error m).
Proof.
  induction s; simpl; intros Hu sites st; split_unused;
    rewrite ?legal_expr_unused by assumption;
    try (left; reflexivity); auto.
  - (* ProducerConsumer *)
    destruct (IHs1 ltac:(assumption) sites st) as [-> | [m ->]]; simpl;
      [|right; eauto].
    destruct (IHs2 ltac:(assumption) sites st) as [-> | [m ->]]; simpl;
      [|right; eauto].
    auto.
  - (* For *)
    unfold site_of_loop.
    destruct (find_dot name), (rfind_dot name); simpl; eauto.
  - (* Provide *)
    left. rewrite !legal_exprs_unused by assumption. reflexivity.
  - (* Allocate *)
    fold (legal_exprs func sites st extents).
    rewrite ?legal_exprs_unused by assumption.
    rewrite ?legal_expr_unused by assumption. auto.
  - (* Realize *)
    match goal with
    | H : existsb _ ?bs = false |- _ =>
        assert (Hb : fold_left (fun acc b =>
                       legal_expr func sites (legal_expr func sites acc (fst b)) (snd b))
                     bs st = st);
        [ revert H; clear; revert st;
          induction bs as [|b l IH]; simpl; intros st Hu;
          [ reflexivity
          | split_unused; rewrite !legal_expr_unused by assumption; auto ]
        | rewrite ?Hb ]
    end.
    rewrite ?legal_expr_unused by assumption. auto.
  - (* Block *)
    destruct (IHs1 ltac:(assumption) sites st) as [-> | [m ->]]; simpl;
      [|right; eauto].
    auto.
  - (* IfThenElse *)
    destruct (IHs1 ltac:(assumption) sites st) as [-> | [m ->]]; simpl;
      [|right; eauto].
    auto.
Qed.

(** A function that is not used in the statement has no legal site, so
    that any schedule of it that is not fully inline is rejected. *)
Theorem unused_function_is_rejected (f : Function) (s : Stmt) :
  function_is_used_in_stmt f s = false ->
  extern_check f = Ok tt ->
  is_inline (store_level (func_schedule f))
  && is_inline (compute_level (func_schedule f)) = false ->
  (sites_allowed (func_name f) s = Ok []
   /\ snd (validate_schedule f s false)
      = Fail (user_error
                (invalid_location f s [] (store_level (func_schedule f))
                                  (compute_level (func_schedule f)))))
  \/ (exists m,
        sites_allowed (func_name f) s = Fail (internal_error m)
        /\ snd (validate_schedule f s false) = Fail (internal_error m)).
Proof.
  intros Hu Hext Hinl.
  unfold validate_schedule, check_levels. rewrite Hext, Hinl. simpl.
  unfold sites_allowed.
  destruct (legal_stmt_unused (func_name f) s Hu [] ([], false)) as [-> | [m ->]];
    simpl; [left | right; eauto].
  split; reflexivity.
Qed.

Lemma unused_function_is_rejected_witness :
  function_is_used_in_stmt ex_g root_loop = false
  /\ snd (validate_schedule ex_g root_loop false)
     = Fail (user_error
               (invalid_location ex_g root_loop [] LoopLevel_root ex_fx)).
Proof.
  split; [reflexivity|].
  destruct (unused_function_is_rejected ex_g root_loop)
    as [[_ H] | [m [H _]]];
    [reflexivity | reflexivity | reflexivity | exact H | discriminate H].
Defined.
(** * The realization injector *)

Section InjectorFacts.

Variable simplify : Expr -> Expr.
Variable is_zero : Expr -> bool.
Variable likely : Expr -> Expr.
Variable substitute : string -> Expr -> Stmt -> Stmt.
Variable expr_uses_var : Expr -> string -> bool.
Variable simplify_exprs : Stmt -> Stmt.
Variable unique_name : nat -> string.
Variable indeterminate_for_type : ForType.
Variable indeterminate_device_api : DeviceAPI.
Variable indeterminate_pure : bool.
Variable qualify : string -> Expr -> Expr.
Variable make_zero : HType -> Expr.
Variable unique_name_t : nat -> string.
Variable address_of : string.
Variable create_buffer_t : string.
Variable output_types : Function -> list HType.
Variable is_pure : Function -> bool.
Variable level_matches_loop : LoopLevel -> string -> bool.
Variable func : Function.
Variable inject_asserts : bool.

Lemma at_loop_unused name body st :
  stmt_is_used (func_name func) body = false ->
  left_alone body st
    (at_loop simplify is_zero likely substitute expr_uses_var simplify_exprs
             unique_name indeterminate_for_type indeterminate_device_api
             indeterminate_pure qualify make_zero unique_name_t address_of
             create_buffer_t output_types level_matches_loop
             func false inject_asserts name body st).
Proof.
  intros Hu. destruct st as [[found c] t]. unfold at_loop, left_alone.
  rewrite Hu. simpl.
  destruct (level_matches_loop (compute_level (func_schedule func)) name); simpl;
    destruct (level_matches_loop (store_level (func_schedule func)) name); simpl;
    rewrite ?Hu; simpl; eauto.
  destruct (found_compute_level found); simpl; eauto.
Qed.

Lemma mutate_unused s :
  stmt_is_used (func_name func) s = false ->
  forall st,
    left_alone s st
      (mutate simplify is_zero likely substitute expr_uses_var simplify_exprs
            unique_name indeterminate_for_type indeterminate_device_api
            indeterminate_pure qualify make_zero unique_name_t address_of
            create_buffer_t output_types is_pure level_matches_loop
            func false inject_asserts st s).
Proof.
  induction s; intros Hu st; simpl in Hu; split_unused; simpl;
    try (left; destruct st as [[? ?] ?]; eexists; reflexivity).
  - (* LetStmt *)
    destruct (IHs ltac:(assumption) st) as [[found ->] | ->]; simpl;
      [left; eauto | right; reflexivity].
  - (* ProducerConsumer *)
    destruct (IHs1 ltac:(assumption) st) as [[f1 ->] | ->]; simpl;
      [|right; reflexivity].
    destruct (IHs2 ltac:(assumption) (f1, snd (fst st), snd st)) as [[f2 ->] | ->];
      simpl; [|right; reflexivity].
    destruct (IHs3 ltac:(assumption) (f2, snd (fst st), snd st)) as [[f3 ->] | ->];
      simpl; [left; eauto | right; reflexivity].
  - (* For *)
    repeat match goal with H : _ = false |- _ => rewrite H end.
    simpl. rewrite !andb_false_r.
    match goal with H : stmt_is_used _ s = false |- _ => rename H into Hbody end.
    match goal with
    | |- left_alone _ _ (bind (?F s) _) => set (under_lets := F)
    end.
    assert (Hlet : forall n v b,
               under_lets (LetStmt n v b)
               = do r <- under_lets b; Ok (LetStmt n v (fst r), snd r))
      by reflexivity.
    assert (Hbody_eq : forall b,
               match b with LetStmt _ _ _ => False | _ => True end ->
               under_lets b
               = do m <- mutate simplify is_zero likely substitute expr_uses_var
                           simplify_exprs unique_name indeterminate_for_type
                           indeterminate_device_api indeterminate_pure qualify
                           make_zero unique_name_t address_of create_buffer_t
                           output_types is_pure level_matches_loop func false
                           inject_asserts st b;
                 at_loop simplify is_zero likely substitute expr_uses_var
                         simplify_exprs unique_name indeterminate_for_type
                         indeterminate_device_api indeterminate_pure qualify
                         make_zero unique_name_t address_of create_buffer_t
                         output_types level_matches_loop func false
                         inject_asserts name (fst m) (snd m))
      by (intros []; simpl; intros []; reflexivity).
    assert (HF : left_alone s st (under_lets s)); [|
      destruct HF as [[found ->] | ->]; simpl;
      [left; eauto | right; reflexivity]].
    specialize (IHs Hbody).
    clearbody under_lets. revert IHs Hbody.
    clear -Hlet Hbody_eq.
    induction s; intros IH Hbody;
      try (rewrite Hbody_eq by exact I;
           destruct (IH st) as [[found E] | E]; rewrite E; simpl;
           [exact (at_loop_unused name _ (found, snd (fst st), snd st) Hbody)
           | right; reflexivity]).
    (* a let: go under it *)
    rewrite Hlet.
    simpl in Hbody. apply orb_false_iff in Hbody as [Hv Hb].
    assert (IH' : forall st', left_alone s st'
                      (mutate simplify is_zero likely substitute expr_uses_var
                         simplify_exprs unique_name indeterminate_for_type
                         indeterminate_device_api indeterminate_pure qualify
                         make_zero unique_name_t address_of create_buffer_t
                         output_types is_pure level_matches_loop func false
                         inject_asserts st' s)).
    { intros st'. specialize (IH st'). simpl in IH. unfold left_alone in *.
      destruct (mutate _ _ _ _ _ _ _ _ _ _ _ _ _ _ _ _ _ _ _ _ _ st' s)
        as [[s' st'']|e]; simpl in IH.
      - destruct IH as [[found E] | E]; [|discriminate E].
        left. exists found. inversion E. reflexivity.
      - destruct IH as [[found E] | E]; [discriminate E|].
        right. exact E. }
    destruct (IHs IH' Hb) as [[found ->] | ->]; simpl;
      [left; eauto | right; reflexivity].
  - (* Provide *)
    match goal with
    | |- context [existsb ?p values || existsb ?q args] =>
        replace (existsb p values || existsb q args)%bool with false
          by (repeat match goal with H : _ = false |- _ => rewrite H end;
              reflexivity)
    end.
    rewrite !andb_false_r.
    left; destruct st as [[? ?] ?]; eexists; reflexivity.
  - (* Allocate *)
    destruct (IHs ltac:(assumption) st) as [[found ->] | ->]; simpl;
      [left; eauto | right; reflexivity].
  - (* Realize *)
    destruct (IHs ltac:(assumption) st) as [[found ->] | ->]; simpl;
      [left; eauto | right; reflexivity].
  - (* Block *)
    destruct (IHs1 ltac:(assumption) st) as [[f1 ->] | ->]; simpl;
      [|right; reflexivity].
    destruct (IHs2 ltac:(assumption) (f1, snd (fst st), snd st)) as [[f2 ->] | ->];
      simpl; [left; eauto | right; reflexivity].
  - (* IfThenElse *)
    destruct (IHs1 ltac:(assumption) st) as [[f1 ->] | ->]; simpl;
      [|right; reflexivity].
    destruct (IHs2 ltac:(assumption) (f1, snd (fst st), snd st)) as [[f2 ->] | ->];
      simpl; [left; eauto | right; reflexivity].
Qed.

(** A function that is no output and is not used in the statement is
    never realized: the injector gives the statement back as it is and
    draws no name, unless it stops on one of its internal assertions. *)
Theorem unused_function_is_not_realized (s : Stmt) (c t : nat) :
  function_is_used_in_stmt func s = false ->
  inject_realization simplify is_zero likely substitute expr_uses_var
    simplify_exprs unique_name indeterminate_for_type indeterminate_device_api
    indeterminate_pure qualify make_zero unique_name_t address_of
    create_buffer_t output_types is_pure level_matches_loop
    func false inject_asserts s c t = Ok (s, c, t)
  \/ exists m,
       inject_realization simplify is_zero likely substitute expr_uses_var
         simplify_exprs unique_name indeterminate_for_type
         indeterminate_device_api indeterminate_pure qualify make_zero
         unique_name_t address_of create_buffer_t output_types is_pure
         level_matches_loop func false inject_asserts s c t
       = Fail (internal_error m).
Proof.
  intros Hu. unfold inject_realization.
  destruct (mutate_unused s Hu (mkFound false false, c, t)) as [[found E] | E];
    rewrite E; simpl.
  - destruct (found_store_level found && found_compute_level found)%bool;
      [left; reflexivity | right; eauto].
  - right. eauto.
Qed.

End InjectorFacts.

Lemma unused_function_is_not_realized_witness :
  function_is_used_in_stmt ex_plain_output root_loop = false
  /\ ex_inject_realization ex_plain_output false true root_loop 0 0
     = Ok (root_loop, 0%nat, 0%nat).
Proof.
  split; [reflexivity|].
  destruct (unused_function_is_not_realized
              (fun e => e) is_zero_imm likely_call subst_stmt uses_var
              (fun x => x) s_name Serial Host false
              (fun _ e => e) (fun _ => IntImm 0) s_name
              "address_of" "create_buffer_t"
              ex_output_types ex_is_pure ex_level_matches_loop
              ex_plain_output true root_loop 0%nat 0%nat)
    as [H | [m H]]; [reflexivity | exact H | discriminate H].
Defined.
(** * Explicit bounds and extern stages *)

Lemma map_lookup {A B} (f : A -> B) (l : list A) (i : nat) :
  map f l !! i = f <$> l !! i.
Proof.
  revert i. induction l as [|y l IH]; intros [|i]; simpl; try reflexivity.
  apply IH.
Qed.

Lemma leading_app n m s l1 s1 l2 s2 :
  leading n s = Some (l1, s1) -> leading m s1 = Some (l2, s2) ->
  leading (n + m) s = Some ((l1 ++ l2)%list, s2).
Proof.
  revert s l1. induction n as [|n IH]; intros s l1; simpl.
  - intros H. inversion H. subst. auto.
  - destruct s; try discriminate.
    destruct (leading n _) as [[l r]|] eqn:E; [|discriminate].
    intros H Hm. inversion H. subst.
    rewrite (IH _ _ E Hm). reflexivity.
Qed.

Lemma leading_fold_left {A} (g : A -> Stmt) (l : list A) :
  forall body,
    leading (length l) (fold_left (fun b x => Block (g x) b) l body)
    = Some (reverse (g <$> l), body).
Proof.
  induction l as [|x l IH]; intros body; [reflexivity|].
  rewrite fmap_cons, reverse_cons. cbn [length fold_left].
  replace (S (length l)) with (length l + 1)%nat by lia.
  apply (leading_app _ _ _ _ (Block (g x) body)); [apply IH | reflexivity].
Qed.

Lemma stage_bounds_length (f : Function) :
  length (stage_bounds f)
  = (S (length (func_updates f)) * length (bounds (func_schedule f)))%nat.
Proof.
  unfold stage_bounds. generalize (S (length (func_updates f))) as n.
  generalize 0%nat as start. intros start n. revert start.
  induction n as [|n IH]; intros start; simpl; [reflexivity|].
  rewrite length_app, length_map, IH. reflexivity.
Qed.

Lemma stage_bounds_lookup (bs : list Bound) (n : nat) :
  forall start k i b,
    (k < n)%nat -> bs !! i = Some b ->
    flat_map (fun stage => map (pair stage) bs) (seq start n)
      !! (k * length bs + i)%nat
    = Some ((start + k)%nat, b).
Proof.
  induction n as [|n IH]; intros start k i b Hk Hb; [lia|]. simpl.
  pose proof (lookup_lt_Some _ _ _ Hb) as Hi.
  destruct k as [|k].
  - rewrite lookup_app_l by (rewrite length_map; simpl; lia).
    simpl. rewrite map_lookup, Hb, Nat.add_0_r. reflexivity.
  - rewrite lookup_app_r by (rewrite length_map; simpl; lia).
    rewrite length_map.
    replace (S k * length bs + i - length bs)%nat with (k * length bs + i)%nat
      by (simpl; lia).
    rewrite (IH (S start) k i b ltac:(lia) Hb). f_equal. f_equal. lia.
Qed.


Section ExternFacts.

Variable make_zero : HType -> Expr.
Variable unique_name_t : nat -> string.
Variable address_of : string.
Variable create_buffer_t : string.
Variable output_types : Function -> list HType.

Lemma extern_call_under_lets (lets : list (string * Expr)) (s : Stmt) :
  Forall (fun l => exists args, snd l = Call Handle create_buffer_t args Intrinsic) lets ->
  extern_call (fold_left (fun c l => LetStmt (fst l) (snd l) c) lets s)
  = extern_call s.
Proof.
  intros H. revert s. induction H as [|l lets [args Hl] _ IH]; intros s; simpl;
    [reflexivity|].
  rewrite IH. simpl. rewrite Hl. reflexivity.
Qed.

(** Whatever the store and compute levels are, the extern function is
    called with one argument per expression, buffer and image parameter,
    one per output of each function argument, and one per output of the
    stage itself. *)
Theorem extern_stage_argument_count (f : Function) (extern_name : string)
        (args : list ExternFuncArgument) (t : nat) :
  exists call_args,
    extern_call
      (fst (build_extern_produce make_zero unique_name_t address_of
              create_buffer_t output_types f extern_name args t))
    = Some (extern_name, call_args)
    /\ length call_args
       = (list_sum (map (extern_arity output_types) args)
          + length (output_types f))%nat.
Proof.
  unfold build_extern_produce. simpl.
  eexists. split.
  - rewrite extern_call_under_lets; [reflexivity|].
    destruct (ll_match _ _); [constructor|].
    apply Forall_forall. intros l Hl.
    apply list_elem_of_lookup in Hl as [j Hj].
    rewrite list_lookup_imap in Hj.
    destruct (output_types f !! j) as [ty|]; simpl in Hj; [|discriminate].
    inversion Hj. simpl. unfold output_buffer_t. eauto.
  - rewrite length_app. f_equal.
    + induction args as [|a args IH]; simpl; [reflexivity|].
      rewrite length_app, IH. f_equal.
      destruct a; simpl; try reflexivity.
      unfold output_buffers, outputs. rewrite length_map, length_seq. reflexivity.
    + destruct (ll_match _ _).
      * unfold output_buffers, outputs. rewrite length_map, length_seq. reflexivity.
      * rewrite length_imap. reflexivity.
Qed.

End ExternFacts.
(** * The clean-up passes *)

Lemma propagate_device_no_parent (d : DeviceAPI) (s : Stmt) :
  d <> Parent -> no_parent_loop (propagate_device d s) = true.
Proof.
  revert d. induction s; intros d Hd; simpl;
    rewrite ?IHs, ?IHs1, ?IHs2, ?IHs3 by assumption; try reflexivity.
  destruct (DeviceAPI_eqb device_api Parent) eqn:E.
  - rewrite IHs by assumption. destruct d; try reflexivity. contradiction.
  - rewrite E. simpl. apply IHs. intros ->. discriminate E.
Qed.

Lemma propagate_device_nearest (top : DeviceAPI) (s : Stmt) :
  forall around around' d,
    d = nearest_device top (Parent, around) ->
    map fst (loops_in around' (propagate_device d s))
    = map (nearest_device top) (loops_in around s).
Proof.
  induction s; intros around around' d Hd; simpl;
    rewrite ?map_app;
    try reflexivity;
    try (erewrite ?IHs, ?IHs1, ?IHs2, ?IHs3 by exact Hd; reflexivity).
  f_equal.
  - unfold nearest_device. simpl.
    destruct (DeviceAPI_eqb device_api Parent); simpl; [|reflexivity].
    rewrite Hd. unfold nearest_device. simpl. reflexivity.
  - apply IHs. unfold nearest_device. simpl.
    destruct (DeviceAPI_eqb device_api Parent); simpl; [|reflexivity].
    rewrite Hd. unfold nearest_device. simpl. reflexivity.
Qed.

(** Every loop of the statement [schedule_functions] returns runs on the
    device of the nearest loop that names one, the loop itself first and
    the loops around it next, and on the host when none does; so no loop
    is left with [DeviceAPI::Parent]. *)
Theorem lowered_loops_have_a_device
        (inline_function : Stmt -> Function -> Stmt)
        (inject : Function -> bool -> bool -> Stmt -> Outcome Stmt)
        (same_as : Function -> Function -> bool)
        (outputs : list Function) (order : list string)
        (env : gmap string Function) (inject_asserts : bool)
        (s : Stmt) (any_memoized : bool) :
  schedule_functions inline_function inject same_as outputs order env inject_asserts
  = Ok (s, any_memoized) ->
  no_parent_loop s = true
  /\ exists name min extent ft dev body w,
      schedule_all inline_function inject same_as outputs env inject_asserts
                   order (root_loop, false, [])
      = Ok (For name min extent ft dev body, any_memoized, w)
      /\ map fst (loops_in [] s)
         = map (nearest_device Host) (loops_in [] (remove_stmt body)).
Proof.
  unfold schedule_functions.
  destruct (schedule_all _ _ _ _ _ _ _ _) as [[[s0 m] w]|e]; simpl; [|discriminate].
  destruct s0; simpl; try discriminate.
  intros H. inversion H. subst. split.
  - apply propagate_device_no_parent. discriminate.
  - do 7 eexists. split; [reflexivity|].
    apply propagate_device_nearest. reflexivity.
Qed.

Lemma lowered_loops_have_a_device_witness :
  match ex_lowered with
  | Ok (s, _) => no_parent_loop s = true /\ map fst (loops_in [] s) = [Host]
  | Fail _ => False
  end.
Proof.
  destruct ex_lowered as [[s m]|e] eqn:E; [|discriminate E].
  destruct (lowered_loops_have_a_device _ _ _ _ _ _ _ s m E)
    as (Hnone & _).
  split; [exact Hnone|].
  vm_compute in E. inversion E. reflexivity.
Defined.

(** Propagating the device a second time changes nothing. *)
Theorem propagate_device_is_idempotent (d : DeviceAPI) (s : Stmt) :
  propagate_device d (propagate_device d s) = propagate_device d s.
Proof.
  revert d. induction s; intros d; simpl;
    rewrite ?IHs, ?IHs1, ?IHs2, ?IHs3; try reflexivity.
  destruct (DeviceAPI_eqb device_api Parent) eqn:E.
  - destruct (DeviceAPI_eqb d Parent) eqn:Ed; rewrite IHs; reflexivity.
  - rewrite E, IHs. reflexivity.
Qed.

Lemma remove_expr_id_on_clean (e : Expr) :
  expr_clean e = true -> remove_expr e = e.
Proof.
  induction e using Expr_nested_ind; simpl; intros Hc; try reflexivity;
    repeat match goal with
           | H : (_ && _)%bool = true |- _ => apply andb_true_iff in H as [? ?]
           end;
    rewrite ?IHe, ?IHe1, ?IHe2, ?IHe3 by assumption; try reflexivity.
  - unfold is_outermost_bound in Hc.
    apply negb_true_iff in Hc.
    apply orb_false_iff in Hc as [Hc Hx]. apply orb_false_iff in Hc as [He Hm].
    rewrite He, Hm, Hx. reflexivity.
  - f_equal. induction H as [|a args Ha _ IH]; simpl in *; [reflexivity|].
    apply andb_true_iff in Hc as [Hca Hcargs].
    rewrite Ha, IH by assumption. reflexivity.
Qed.

Lemma remove_exprs_id_on_clean (l : list Expr) :
  forallb expr_clean l = true -> map remove_expr l = l.
Proof.
  induction l as [|e l IH]; simpl; intros Hc; [reflexivity|].
  apply andb_true_iff in Hc as [He Hl].
  rewrite remove_expr_id_on_clean, IH by assumption. reflexivity.
Qed.

Lemma remove_stmt_id_on_clean (s : Stmt) :
  stmt_clean s = true -> remove_stmt s = s.
Proof.
  induction s; simpl; intros Hc; try reflexivity;
    repeat match goal with
           | H : (_ && _)%bool = true |- _ => apply andb_true_iff in H as [? ?]
           end;
    repeat match goal with
           | H : negb _ = true |- _ => apply negb_true_iff in H; rewrite H
           end;
    rewrite ?remove_expr_id_on_clean, ?remove_exprs_id_on_clean,
      ?IHs, ?IHs1, ?IHs2, ?IHs3 by assumption;
    try reflexivity.
  f_equal.
  match goal with
  | H : forallb _ ?bs = true |- _ =>
      revert H; clear; induction bs as [|[a b] l IH]; simpl; intros Hc;
      [reflexivity|]
  end.
  apply andb_true_iff in Hc as [Hab Hl]. apply andb_true_iff in Hab as [Ha Hb].
  rewrite !remove_expr_id_on_clean, IH by assumption. reflexivity.
Qed.

(** A statement without loops over [__outermost], lets of their bounds
    and references to them is left as it is; so removing them a second
    time changes nothing. *)
Theorem remove_loops_over_outermost_is_idempotent (s : Stmt) :
  remove_stmt (remove_stmt s) = remove_stmt s.
Proof. apply remove_stmt_id_on_clean, remove_stmt_clean. Qed.
(** * Areas and costs of regions *)

Lemma box_area_from_empty (b : Box) :
  Exists (fun i => get_extent i = 0) b ->
  forall area, box_area_from area b = 0.
Proof.
  induction b as [|i b IH]; intros Hex area; [inversion Hex|].
  simpl. destruct (Z.eq_dec (get_extent i) 0) as [Hz | Hnz].
  - rewrite Hz. simpl. reflexivity.
  - assert (Hb : Exists (fun i => get_extent i = 0) b)
      by (inversion Hex; [contradiction | assumption]).
    destruct ((0 <? get_extent i) && (0 <? area))%bool; [apply IH; exact Hb|].
    destruct (get_extent i =? 0) eqn:E; [reflexivity | apply IH; exact Hb].
Qed.

(** A box with an empty dimension has area 0, also when the extent of
    another dimension is unknown. *)
Theorem box_area_of_an_empty_box (b : Box) (i : Interval) :
  In i b -> get_extent i = 0 -> box_area b = 0.
Proof.
  intros Hin Hz. apply box_area_from_empty.
  apply Exists_exists. exists i. split; [|exact Hz].
  apply list_elem_of_In. exact Hin.
Qed.

Lemma box_area_of_an_empty_box_witness :
  box_area [ (var32 "x_l", var32 "x_u"); (IntImm 5, IntImm 4) ] = 0.
Proof.
  apply (box_area_of_an_empty_box _ (IntImm 5, IntImm 4));
    [simpl; tauto | reflexivity].
Defined.

Lemma box_area_from_minus_one (b : Box) :
  Forall (fun i => get_extent i <> 0) b -> box_area_from (-1) b = -1.
Proof.
  induction 1 as [|i b Hi _ IH]; simpl; [reflexivity|].
  rewrite andb_false_r.
  destruct (get_extent i =? 0) eqn:E; [apply Z.eqb_eq in E; contradiction|].
  exact IH.
Qed.

Lemma box_area_from_unknown (b : Box) :
  Forall (fun i => get_extent i <> 0) b ->
  Exists (fun i => get_extent i < 0) b ->
  forall area, box_area_from area b = -1.
Proof.
  induction 1 as [|i b Hi Hb IH]; intros Hex area; [inversion Hex|].
  simpl.
  destruct (0 <? get_extent i) eqn:Epos; simpl.
  - assert (Hex' : Exists (fun i => get_extent i < 0) b).
    { inversion Hex; [apply Z.ltb_lt in Epos; lia | assumption]. }
    destruct (0 <? area); [apply IH; exact Hex'|].
    destruct (get_extent i =? 0) eqn:E; [apply Z.eqb_eq in E; contradiction|].
    apply box_area_from_minus_one. exact Hb.
  - destruct (get_extent i =? 0) eqn:E; [apply Z.eqb_eq in E; contradiction|].
    apply box_area_from_minus_one. exact Hb.
Qed.

(** Without an empty dimension, one dimension of unknown extent makes the
    area -1. *)
Theorem box_area_of_an_unknown_box (b : Box) :
  Forall (fun i => get_extent i <> 0) b ->
  Exists (fun i => get_extent i < 0) b ->
  box_area b = -1.
Proof. intros Hnz Hex. apply box_area_from_unknown; assumption. Qed.

Lemma box_area_of_an_unknown_box_witness :
  box_area [ (IntImm 0, IntImm 9); (var32 "y_l", var32 "y_u"); (IntImm 0, IntImm 3) ]
  = -1.
Proof.
  apply box_area_of_an_unknown_box.
  - repeat constructor; discriminate.
  - right. left. reflexivity.
Defined.

Lemma extent_product_pos (b : Box) :
  Forall (fun i => 0 < get_extent i) b -> 0 < extent_product b.
Proof. induction 1 as [|i b Hi _ IH]; simpl; [lia | nia]. Qed.

Lemma box_area_from_known (b : Box) :
  Forall (fun i => 0 < get_extent i) b ->
  forall area,
    0 < area -> area * extent_product b < 2 ^ 63 ->
    box_area_from area b = area * extent_product b.
Proof.
  induction 1 as [|i b Hi Hb IH]; intros area Ha Hfit; simpl in *; [lia|].
  pose proof (extent_product_pos b Hb) as Hp.
  destruct (0 <? get_extent i) eqn:E1; [|apply Z.ltb_ge in E1; lia].
  destruct (0 <? area) eqn:E2; [|apply Z.ltb_ge in E2; lia].
  simpl.
  assert (Hsmall : area * get_extent i <= area * (get_extent i * extent_product b))
    by nia.
  rewrite wrap64_id by nia.
  rewrite IH; [ring | nia | ].
  replace (area * get_extent i * extent_product b)
    with (area * (get_extent i * extent_product b)) by ring.
  exact Hfit.
Qed.

(** When every dimension has a known, positive extent and the product
    fits a [long long], the area is the product of the extents. *)
Theorem box_area_of_a_known_box (b : Box) :
  Forall (fun i => 0 < get_extent i) b ->
  extent_product b < 2 ^ 63 ->
  box_area b = extent_product b.
Proof.
  intros Hpos Hfit. unfold box_area.
  rewrite box_area_from_known by (assumption || lia). lia.
Qed.

Lemma box_area_of_a_known_box_witness :
  box_area [ (IntImm 0, IntImm 1919); (IntImm (-2), IntImm 1081) ] = 1920 * 1084.
Proof.
  apply (box_area_of_a_known_box
           [ (IntImm 0, IntImm 1919); (IntImm (-2), IntImm 1081) ]).
  - repeat constructor.
  - reflexivity.
Defined.
(** * Schedule surgery *)

Local Open Scope list_scope.

Lemma at_index_middle {A} (pre post : list A) (x : A) :
  at_index (pre ++ x :: post) (Z.of_nat (length pre)) = Some x.
Proof.
  unfold at_index.
  destruct (Z.of_nat (length pre) <? 0) eqn:E; [apply Z.ltb_lt in E; lia|].
  rewrite Nat2Z.id. apply list_lookup_middle. reflexivity.
Qed.

Lemma insert_at_app {A} (l1 l2 : list A) (x : A) :
  insert_at (length l1) x (l1 ++ l2) = (l1 ++ x :: l2)%list.
Proof.
  unfold insert_at. rewrite take_app_length, drop_app_length. reflexivity.
Qed.

Lemma delete_at_app {A} (l1 l2 : list A) (x : A) :
  delete (length l1) (l1 ++ x :: l2) = (l1 ++ l2)%list.
Proof. apply delete_middle. Qed.

Lemma move_dim_to_outermost_middle (pre mid : list Dim) (d last : Dim) :
  move_dim_to_outermost (pre ++ d :: mid ++ [last]) (Z.of_nat (length pre))
  = Ok (pre ++ mid ++ [d; last]).
Proof.
  unfold move_dim_to_outermost.
  rewrite at_index_middle, Nat2Z.id. f_equal.
  replace (length (pre ++ d :: mid ++ [last]) - 1)%nat
    with (length (pre ++ d :: mid))
    by (rewrite ?length_app; simpl; rewrite ?length_app; simpl; lia).
  replace (pre ++ d :: mid ++ [last])
    with ((pre ++ d :: mid) ++ [last])
    by (rewrite <- app_assoc; reflexivity).
  rewrite insert_at_app, <- app_assoc. simpl.
  rewrite delete_at_app. reflexivity.
Qed.

(** [move_dim_to_outermost] puts the dim just inside the last one (the
    loop over [__outermost]) and keeps the order of the others; on the
    last dim itself it changes nothing, and an index outside of the
    vector is undefined behaviour. *)
Theorem move_dim_to_outermost_moves_inside_the_last
        (pre mid : list Dim) (d last : Dim) :
  move_dim_to_outermost (pre ++ d :: mid ++ [last]) (Z.of_nat (length pre))
  = Ok (pre ++ mid ++ [d; last])
  /\ move_dim_to_outermost (pre ++ [last]) (Z.of_nat (length pre))
     = Ok (pre ++ [last])
  /\ move_dim_to_outermost pre (Z.of_nat (length pre)) = Fail bad_index
  /\ move_dim_to_outermost pre (-1) = Fail bad_index.
Proof.
  split; [apply move_dim_to_outermost_middle|].
  unfold move_dim_to_outermost. split; [|split].
  - rewrite at_index_middle, Nat2Z.id. f_equal.
    replace (length (pre ++ [last]) - 1)%nat with (length pre)
      by (rewrite length_app; simpl; lia).
    rewrite insert_at_app, delete_at_app. reflexivity.
  - unfold at_index.
    destruct (Z.of_nat (length pre) <? 0); [reflexivity|].
    rewrite Nat2Z.id, lookup_ge_None_2 by lia. reflexivity.
  - reflexivity.
Qed.

Lemma find_cand_dim_from (l : list Dim) (var : string) :
  forall (k : nat) (cand : Z),
    fold_left (fun cand id => if String.eqb (dim_var (snd id)) var
                              then Z.of_nat (fst id) else cand)
              (imap (fun i d => (k + i, d)%nat) l) cand
    = match list_find (fun d => dim_var d = var) (rev l) with
      | Some (i, _) => Z.of_nat (k + (length l - 1 - i))
      | None => cand
      end.
Proof.
  induction l as [|d l IH] using rev_ind; intros k cand; [reflexivity|].
  rewrite imap_app, fold_left_app, rev_app_distr. simpl.
  rewrite Nat.add_0_r, length_app. simpl.
  destruct (String.eqb_spec (dim_var d) var) as [Heq | Hne].
  - rewrite decide_True by exact Heq. simpl. f_equal. lia.
  - rewrite decide_False by exact Hne.
    rewrite IH.
    destruct (list_find _ (rev l)) as [[i x]|]; simpl; [f_equal; lia | reflexivity].
Qed.

Lemma find_cand_dim_last (pre post : list Dim) (c : Dim) :
  Forall (fun x => dim_var x <> dim_var c) post ->
  find_cand_dim (pre ++ c :: post) (dim_var c) = Z.of_nat (length pre).
Proof.
  intros Hpost. unfold find_cand_dim.
  rewrite (find_cand_dim_from _ _ 0 (-1)).
  rewrite rev_app_distr. simpl. rewrite <- app_assoc. simpl.
  assert (Hfind : list_find (fun d => dim_var d = dim_var c)
                            (rev post ++ c :: rev pre)
                  = Some (length (rev post), c)).
  { apply list_find_Some. repeat split.
    - apply list_lookup_middle. reflexivity.
    - intros j y Hj Hlt. rewrite lookup_app_l in Hj by exact Hlt.
      apply list_elem_of_lookup_2 in Hj.
      apply (proj1 (list_elem_of_In _ _)) in Hj.
      apply (proj2 (in_rev _ _)) in Hj.
      rewrite Forall_forall in Hpost. apply Hpost.
      apply list_elem_of_In. exact Hj. }
  rewrite Hfind, length_rev, length_app. simpl. f_equal. lia.
Qed.

(** When the dim named [var] stands after the dim that is moved,
    [move_dim_to_var] puts the dim right in front of it. *)
Theorem move_dim_to_var_forward (pre mid post : list Dim) (d c : Dim) :
  Forall (fun x => dim_var x <> dim_var c) post ->
  move_dim_to_var (pre ++ d :: mid ++ c :: post) (Z.of_nat (length pre)) (dim_var c)
  = Ok (pre ++ mid ++ d :: c :: post)%list.
Proof.
  intros Hpost. unfold move_dim_to_var.
  assert (Hc : find_cand_dim (pre ++ d :: mid ++ c :: post) (dim_var c)
               = Z.of_nat (length (pre ++ d :: mid))).
  { replace (pre ++ d :: mid ++ c :: post)
      with ((pre ++ d :: mid) ++ c :: post)
      by (rewrite <- app_assoc; reflexivity).
    apply find_cand_dim_last. exact Hpost. }
  rewrite Hc.
  destruct (Z.of_nat (length (pre ++ d :: mid)) =? -1) eqn:E;
    [apply Z.eqb_eq in E; lia|].
  rewrite at_index_middle, !Nat2Z.id. f_equal.
  replace (pre ++ d :: mid ++ c :: post)
    with ((pre ++ d :: mid) ++ c :: post)
    by (rewrite <- app_assoc; reflexivity).
  rewrite insert_at_app, <- app_assoc. simpl.
  rewrite delete_at_app. reflexivity.
Qed.

Lemma move_dim_to_var_forward_witness :
  move_dim_to_var
    [ mkDim "x" Serial Parent true; mkDim "y" Serial Parent true;
      mkDim "z" Serial Parent true; mkDim "__outermost" Serial Parent true ]
    0 "z"
  = Ok [ mkDim "y" Serial Parent true; mkDim "x" Serial Parent true;
         mkDim "z" Serial Parent true; mkDim "__outermost" Serial Parent true ].
Proof.
  apply (move_dim_to_var_forward
           [] [mkDim "y" Serial Parent true]
           [mkDim "__outermost" Serial Parent true]
           (mkDim "x" Serial Parent true) (mkDim "z" Serial Parent true)).
  repeat constructor. discriminate.
Defined.

(** When the dim named [var] stands before the dim that is moved, the
    copy is inserted in front of it, and the erase that follows removes
    the dim that stood just before the moved one instead of the moved
    one: the result holds the moved dim twice. *)
Theorem move_dim_to_var_backward (pre mid post : list Dim) (c d : Dim) :
  Forall (fun y => dim_var y <> dim_var c) (mid ++ d :: post) ->
  move_dim_to_var (pre ++ (c :: mid) ++ d :: post)
                  (Z.of_nat (length (pre ++ c :: mid))) (dim_var c)
  = Ok (pre ++ d :: removelast (c :: mid) ++ d :: post).
Proof.
  intros Hlater. unfold move_dim_to_var.
  change ((c :: mid) ++ d :: post) with (c :: mid ++ d :: post).
  rewrite find_cand_dim_last by exact Hlater.
  destruct (Z.of_nat (length pre) =? -1) eqn:E; [apply Z.eqb_eq in E; lia|].
  assert (Hd : at_index (pre ++ c :: mid ++ d :: post)
                        (Z.of_nat (length (pre ++ c :: mid))) = Some d).
  { replace (pre ++ c :: mid ++ d :: post)
      with ((pre ++ c :: mid) ++ d :: post)
      by (rewrite <- ?app_assoc; reflexivity).
    apply at_index_middle. }
  rewrite Hd, !Nat2Z.id, insert_at_app. f_equal.
  destruct (exists_last (l := c :: mid) ltac:(discriminate)) as [front [x Hx]].
  rewrite Hx, removelast_last.
  change (c :: mid ++ d :: post) with ((c :: mid) ++ d :: post).
  rewrite Hx.
  replace (pre ++ d :: (front ++ [x]) ++ d :: post)
    with ((pre ++ d :: front) ++ x :: d :: post)
    by (rewrite <- ?app_assoc; simpl; rewrite <- ?app_assoc; reflexivity).
  replace (length (pre ++ front ++ [x])) with (length (pre ++ d :: front))
    by (rewrite ?length_app; simpl; rewrite ?length_app; simpl; lia).
  rewrite delete_at_app, <- app_assoc. reflexivity.
Qed.

Lemma move_dim_to_var_backward_witness :
  move_dim_to_var
    [ mkDim "x" Serial Parent true; mkDim "y" Serial Parent true;
      mkDim "z" Serial Parent true; mkDim "__outermost" Serial Parent true ]
    2 "x"
  = Ok [ mkDim "z" Serial Parent true; mkDim "x" Serial Parent true;
         mkDim "z" Serial Parent true; mkDim "__outermost" Serial Parent true ].
Proof.
  apply (move_dim_to_var_backward
           [] [mkDim "y" Serial Parent true]
           [mkDim "__outermost" Serial Parent true]
           (mkDim "x" Serial Parent true) (mkDim "z" Serial Parent true)).
  repeat constructor; discriminate.
Defined.

Lemma insert_middle {A} (pre post : list A) (x y : A) :
  <[length pre := x]> (pre ++ y :: post) = pre ++ x :: post.
Proof.
  replace (length pre) with (length pre + 0)%nat by lia.
  rewrite insert_app_r. reflexivity.
Qed.

Lemma at_index_Some {A} (l : list A) (i : Z) (x : A) :
  at_index l i = Some x -> 0 <= i /\ l !! Z.to_nat i = Some x.
Proof.
  unfold at_index. destruct (i <? 0) eqn:E; [discriminate|].
  apply Z.ltb_ge in E. auto.
Qed.

Lemma at_index_nat {A} (l : list A) (i : Z) :
  0 <= i -> at_index l i = l !! Z.to_nat i.
Proof.
  intros Hi. unfold at_index.
  destruct (i <? 0) eqn:E; [apply Z.ltb_lt in E; lia | reflexivity].
Qed.

Lemma map_insert {A B} (f : A -> B) (l : list A) (i : nat) (x : A) :
  map f (<[i := x]> l) = <[i := f x]> (map f l).
Proof.
  revert i. induction l as [|y l IH]; intros [|i]; simpl; try reflexivity.
  rewrite IH. reflexivity.
Qed.

(** [swap_dim] exchanges the name, the loop type and the purity of the
    two dims and leaves the device of each in place; swapping the same
    two dims again gives the list back. *)
Theorem swap_dim_twice_is_the_identity (ds : list Dim) (i j : Z) (d1 d2 : Dim) :
  at_index ds i = Some d1 ->
  at_index ds j = Some d2 ->
  exists ds',
    swap_dim ds i j = Ok ds'
    /\ swap_dim ds' i j = Ok ds
    /\ map dim_device_api ds' = map dim_device_api ds
    /\ (i <> j ->
        at_index ds' i
        = Some (mkDim (dim_var d2) (dim_for_type d2) (dim_device_api d1) (dim_pure d2))
        /\ at_index ds' j
           = Some (mkDim (dim_var d1) (dim_for_type d1) (dim_device_api d2)
                         (dim_pure d1))).
Proof.
  intros H1 H2.
  destruct (at_index_Some _ _ _ H1) as [Hi Li].
  destruct (at_index_Some _ _ _ H2) as [Hj Lj].
  unfold swap_dim. rewrite H1, H2.
  destruct (decide (Z.to_nat i = Z.to_nat j)) as [Heq | Hne].
  - assert (i = j) by lia. subst j.
    assert (d2 = d1) by congruence. subst d2.
    assert (Hd : forall d : Dim,
               mkDim (dim_var d) (dim_for_type d) (dim_device_api d) (dim_pure d) = d)
      by (intros []; reflexivity).
    rewrite Hd, list_insert_id by exact Li.
    rewrite H1. cbv beta iota. rewrite Hd, list_insert_id by exact Li.
    exists ds. split; [reflexivity|]. split; [|split; [reflexivity|]].
    + rewrite H1. cbv beta iota. rewrite Hd, list_insert_id by exact Li.
      rewrite H1. cbv beta iota. rewrite Hd, list_insert_id by exact Li.
      reflexivity.
    + intros Hc. contradiction.
  - assert (Hij : i <> j) by (intros ->; contradiction).
    set (a := mkDim (dim_var d2) (dim_for_type d2) (dim_device_api d1) (dim_pure d2)).
    set (b := mkDim (dim_var d1) (dim_for_type d1) (dim_device_api d2) (dim_pure d1)).
    assert (Hlen_i : (Z.to_nat i < length ds)%nat) by (eapply lookup_lt_Some; eauto).
    assert (Hlen_j : (Z.to_nat j < length ds)%nat) by (eapply lookup_lt_Some; eauto).
    assert (L1 : at_index (<[Z.to_nat i := a]> ds) j = Some d2).
    { rewrite at_index_nat, list_lookup_insert_ne by assumption. exact Lj. }
    rewrite L1. fold b.
    set (ds' := <[Z.to_nat j := b]> (<[Z.to_nat i := a]> ds)).
    assert (Li' : at_index ds' i = Some a).
    { unfold ds'. rewrite at_index_nat by assumption.
      rewrite list_lookup_insert_ne by auto.
      apply list_lookup_insert_eq. exact Hlen_i. }
    assert (Lj' : at_index ds' j = Some b).
    { unfold ds'. rewrite at_index_nat by assumption.
      apply list_lookup_insert_eq. rewrite length_insert. exact Hlen_j. }
    exists ds'. split; [reflexivity|]. split; [|split; [|auto]].
    + rewrite Li', Lj'. simpl.
      replace (mkDim (dim_var d1) (dim_for_type d1) (dim_device_api d1) (dim_pure d1))
        with d1 by (destruct d1; reflexivity).
      assert (L2 : at_index (<[Z.to_nat i := d1]> ds') j = Some b).
      { rewrite at_index_nat, list_lookup_insert_ne by assumption.
        rewrite <- at_index_nat by assumption. exact Lj'. }
      rewrite L2. simpl.
      replace (mkDim (dim_var d2) (dim_for_type d2) (dim_device_api d2) (dim_pure d2))
        with d2 by (destruct d2; reflexivity).
      f_equal. unfold ds'.
      rewrite (list_insert_insert_ne _ (Z.to_nat i) (Z.to_nat j)) by assumption.
      rewrite !list_insert_insert_eq.
      rewrite (list_insert_id ds (Z.to_nat i)) by exact Li.
      apply list_insert_id. exact Lj.
    + unfold ds'. rewrite !map_insert. simpl.
      rewrite (list_insert_id (map dim_device_api ds) (Z.to_nat i))
        by (rewrite map_lookup, Li; reflexivity).
      apply list_insert_id. rewrite map_lookup, Lj. reflexivity.
Qed.

Lemma swap_dim_twice_is_the_identity_witness :
  swap_dim ex_dims 0 1
  = Ok [ mkDim "xo" Serial Parent true; mkDim "xi" Vectorized Parent true;
         mkDim "__outermost" Serial Parent true ]
  /\ swap_dim [ mkDim "xo" Serial Parent true; mkDim "xi" Vectorized Parent true;
                mkDim "__outermost" Serial Parent true ] 0 1
     = Ok ex_dims.
Proof.
  destruct (swap_dim_twice_is_the_identity ex_dims 0 1 _ _ eq_refl eq_refl)
    as [ds' [H1 [H2 _]]].
  assert (E : ds' = [ mkDim "xo" Serial Parent true; mkDim "xi" Vectorized Parent true;
                      mkDim "__outermost" Serial Parent true ])
    by (inversion H1; reflexivity).
  rewrite E in H2. split; [reflexivity | exact H2].
Defined.

Lemma length_append (a b : string) :
  String.length (a +:+ b) = (String.length a + String.length b)%nat.
Proof. induction a as [|c a IH]; simpl; [reflexivity | rewrite IH; reflexivity]. Qed.

Lemma split_names_differ (old prefix : string) :
  inner_name_of old prefix <> old
  /\ outer_name_of old prefix <> old
  /\ outer_name_of old prefix <> inner_name_of old prefix.
Proof.
  unfold inner_name_of, outer_name_of.
  repeat split; intros H; apply (f_equal String.length) in H;
    rewrite ?length_append in H; simpl in H; lia.
Qed.

Lemma split_dim_dims (pre post : list Dim) (d x y : Dim) :
  <[S (length pre) := y]>
    (<[length pre := x]> (insert_at (length pre) d (pre ++ d :: post)))
  = pre ++ x :: y :: post.
Proof.
  rewrite insert_at_app, insert_middle.
  replace (pre ++ x :: d :: post) with ((pre ++ [x]) ++ d :: post)
    by (rewrite <- app_assoc; reflexivity).
  replace (S (length pre)) with (length (pre ++ [x]))
    by (rewrite length_app; simpl; lia).
  rewrite insert_middle, <- app_assoc. reflexivity.
Qed.

Lemma split_dim_result
      (f f' : Function) (pre post : list Dim) (d : Dim) (split_size : Z)
      (dim_estimates m : gmap string Z) (prefix : string) (partial : bool) :
  dims (func_schedule f) = pre ++ d :: post ->
  split_dim f (Z.of_nat (length pre)) split_size dim_estimates prefix partial
  = Ok (f', m) ->
  f' = set_schedule f
         (set_splits
            (set_dims (func_schedule f)
               (pre ++ set_var d (inner_name_of (dim_var d) prefix)
                    :: set_var d (outer_name_of (dim_var d) prefix) :: post))
            (splits (func_schedule f)
             ++ [ mkSplit (dim_var d) (outer_name_of (dim_var d) prefix)
                          (inner_name_of (dim_var d) prefix) (IntImm split_size)
                          false partial SplitVar ])).
Proof.
  intros Hd. unfold split_dim. rewrite Hd, at_index_middle, Nat2Z.id.
  destruct (split_estimates _ _ _ _ _) as [m'|e]; simpl; [|discriminate].
  intros H. inversion H. subst. clear H.
  rewrite split_dim_dims. reflexivity.
Qed.

(** [split_dim] replaces the dim by its inner and its outer loop, in
    this order and both with the loop type, device and purity of the dim;
    the other dims stay; the split is appended to the splits of the
    schedule as a [SplitVar] that is not exact. *)
Theorem split_dim_splits_in_place
        (f f' : Function) (pre post : list Dim) (d : Dim) (split_size : Z)
        (dim_estimates m : gmap string Z) (prefix : string) (partial : bool) :
  dims (func_schedule f) = pre ++ d :: post ->
  split_dim f (Z.of_nat (length pre)) split_size dim_estimates prefix partial
  = Ok (f', m) ->
  dims (func_schedule f')
  = pre ++ set_var d (inner_name_of (dim_var d) prefix)
        :: set_var d (outer_name_of (dim_var d) prefix) :: post
  /\ splits (func_schedule f')
     = splits (func_schedule f)
       ++ [ mkSplit (dim_var d) (outer_name_of (dim_var d) prefix)
                    (inner_name_of (dim_var d) prefix) (IntImm split_size)
                    false partial SplitVar ]
  /\ func_name f' = func_name f /\ func_args f' = func_args f.
Proof.
  intros Hd Es. rewrite (split_dim_result _ _ _ _ _ _ _ _ _ _ Hd Es).
  repeat split.
Qed.

Lemma split_dim_splits_in_place_witness :
  match split_dim ex_plain_output 0 8 (<["x" := 1920]> ∅) "tile" false with
  | Ok (f', m) =>
      dims (func_schedule f')
      = [ mkDim "x.tile.in" Serial Parent true; mkDim "x.tile.out" Serial Parent true;
          mkDim "__outermost" Serial Parent true ]
      /\ m = <["x.tile.out" := 240]> (<["x.tile.in" := 8]> ∅)
  | Fail _ => False
  end.
Proof.
  destruct (split_dim ex_plain_output 0 8 (<["x" := 1920]> ∅) "tile" false)
    as [[f' m]|e] eqn:E; [|vm_compute in E; discriminate E].
  split.
  - exact (proj1 (split_dim_splits_in_place
                    ex_plain_output f' [] [mkDim "__outermost" Serial Parent true]
                    (mkDim "x" Serial Parent true) 8 _ m "tile" false eq_refl E)).
  - vm_compute in E. inversion E. reflexivity.
Defined.

(** When the estimate of the dim is unknown (-1), [split_dim] records -1
    for the inner loop as well, although its extent is the split size,
    and records nothing for the outer loop; the estimate of the dim
    itself is erased. *)
Theorem split_dim_without_an_estimate
        (f : Function) (pre post : list Dim) (d : Dim) (split_size : Z)
        (dim_estimates : gmap string Z) (prefix : string) (partial : bool) :
  dims (func_schedule f) = pre ++ d :: post ->
  dim_estimates !! dim_var d = Some (-1) ->
  exists f' m,
    split_dim f (Z.of_nat (length pre)) split_size dim_estimates prefix partial
    = Ok (f', m)
    /\ m !! inner_name_of (dim_var d) prefix = Some (-1)
    /\ m !! outer_name_of (dim_var d) prefix
       = dim_estimates !! outer_name_of (dim_var d) prefix
    /\ m !! dim_var d = None.
Proof.
  intros Hd Hest.
  destruct (split_names_differ (dim_var d) prefix) as [Hi [Ho Hoi]].
  unfold split_dim. rewrite Hd, at_index_middle.
  fold (inner_name_of (dim_var d) prefix). fold (outer_name_of (dim_var d) prefix).
  unfold split_estimates, estimate_of.
  rewrite lookup_insert_ne by exact Hi. rewrite Hest. simpl.
  eexists. eexists. split; [reflexivity|].
  split; [|split].
  - rewrite lookup_delete_ne by auto. apply lookup_insert_eq.
  - rewrite lookup_delete_ne by auto.
    rewrite !lookup_insert_ne by auto. reflexivity.
  - apply lookup_delete_eq.
Qed.

Lemma split_dim_without_an_estimate_witness :
  match split_dim ex_plain_output 0 8 (<["x" := -1]> ∅) "tile" false with
  | Ok (_, m) => m = <["x.tile.in" := -1]> ∅
  | Fail _ => False
  end.
Proof.
  assert (Hx : (<["x" := -1]> ∅ : gmap string Z) !! "x" = Some (-1))
    by (vm_compute; reflexivity).
  destruct (split_dim_without_an_estimate
              ex_plain_output [] [mkDim "__outermost" Serial Parent true]
              (mkDim "x" Serial Parent true) 8 (<["x" := -1]> ∅) "tile" false
              eq_refl Hx) as [f' [m [E _]]].
  change (split_dim ex_plain_output 0 8 (<["x" := -1]> ∅) "tile" false = Ok (f', m))
    in E.
  rewrite E. vm_compute in E. inversion E. reflexivity.
Defined.

(** [vectorize_dim] with a width splits the dim and vectorizes the inner
    loop only: the outer loop keeps the loop type of the dim. *)
Theorem vectorize_dim_vectorizes_the_inner_loop
        (f f' : Function) (pre post : list Dim) (d : Dim) (vec_width : Z)
        (dim_estimates m : gmap string Z) :
  dims (func_schedule f) = pre ++ d :: post ->
  vec_width <> -1 ->
  vectorize_dim f dim_estimates (Z.of_nat (length pre)) vec_width = Ok (f', m) ->
  dims (func_schedule f')
  = pre ++ mkDim (inner_name_of (dim_var d) "vec") Vectorized
                 (dim_device_api d) (dim_pure d)
        :: mkDim (outer_name_of (dim_var d) "vec") (dim_for_type d)
                 (dim_device_api d) (dim_pure d)
        :: post.
Proof.
  intros Hd Hw. unfold vectorize_dim.
  destruct (vec_width =? -1) eqn:E; [apply Z.eqb_eq in E; contradiction|].
  simpl.
  destruct (split_dim f _ vec_width dim_estimates "vec" false) as [[f1 m1]|e] eqn:Es;
    simpl; [|discriminate].
  rewrite (split_dim_result _ _ _ _ _ _ _ _ _ _ Hd Es). simpl.
  rewrite at_index_middle, Nat2Z.id.
  intros H. inversion H. subst. simpl.
  rewrite insert_middle. reflexivity.
Qed.

Lemma vectorize_dim_vectorizes_the_inner_loop_witness :
  match vectorize_dim ex_plain_output (<["x" := 1920]> ∅) 0 8 with
  | Ok (f', _) =>
      dims (func_schedule f')
      = [ mkDim "x.vec.in" Vectorized Parent true; mkDim "x.vec.out" Serial Parent true;
          mkDim "__outermost" Serial Parent true ]
  | Fail _ => False
  end.
Proof.
  destruct (vectorize_dim ex_plain_output (<["x" := 1920]> ∅) 0 8)
    as [[f' m]|e] eqn:E; [|vm_compute in E; discriminate E].
  exact (vectorize_dim_vectorizes_the_inner_loop
           ex_plain_output f' [] [mkDim "__outermost" Serial Parent true]
           (mkDim "x" Serial Parent true) 8 _ m eq_refl ltac:(discriminate) E).
Defined.

(** Tiling a dim, as [schedule_advisor] does it: after [split_dim] and
    [move_dim_to_outermost] on the next index, the inner loop stands where
    the dim stood and the outer loop just inside the last dim (the loop
    over [__outermost]); the dims between keep their order. *)
Theorem tiled_dim_moves_its_outer_loop_out
        (f f' : Function) (pre mid : list Dim) (d last : Dim) (tile_size : Z)
        (dim_estimates m : gmap string Z) :
  dims (func_schedule f) = pre ++ d :: mid ++ [last] ->
  split_dim f (Z.of_nat (length pre)) tile_size dim_estimates "tile" false
  = Ok (f', m) ->
  move_dim_to_outermost (dims (func_schedule f')) (Z.of_nat (length pre) + 1)
  = Ok (pre ++ set_var d (inner_name_of (dim_var d) "tile")
            :: mid ++ [set_var d (outer_name_of (dim_var d) "tile"); last]).
Proof.
  intros Hd Es.
  rewrite (split_dim_result _ _ _ _ _ _ _ _ _ _ Hd Es). simpl.
  set (x := set_var d (inner_name_of (dim_var d) "tile")).
  set (y := set_var d (outer_name_of (dim_var d) "tile")).
  replace (pre ++ x :: y :: mid ++ [last]) with ((pre ++ [x]) ++ y :: mid ++ [last])
    by (rewrite <- app_assoc; reflexivity).
  replace (Z.of_nat (length pre) + 1) with (Z.of_nat (length (pre ++ [x])))
    by (rewrite length_app; simpl; lia).
  rewrite move_dim_to_outermost_middle, <- app_assoc. reflexivity.
Qed.

Lemma tiled_dim_moves_its_outer_loop_out_witness :
  match split_dim ex_out_2d 0 64 (<["x" := 1920]> (<["y" := 1080]> ∅)) "tile" false with
  | Ok (f', _) =>
      move_dim_to_outermost (dims (func_schedule f')) 1
      = Ok [ mkDim "x.tile.in" Serial Parent true; mkDim "y" Serial Parent true;
             mkDim "x.tile.out" Serial Parent true;
             mkDim "__outermost" Serial Parent true ]
  | Fail _ => False
  end.
Proof.
  destruct (split_dim ex_out_2d 0 64 (<["x" := 1920]> (<["y" := 1080]> ∅)) "tile" false)
    as [[f' m]|e] eqn:E; [|vm_compute in E; discriminate E].
  exact (tiled_dim_moves_its_outer_loop_out
           ex_out_2d f' [] [mkDim "y" Serial Parent true] (mkDim "x" Serial Parent true)
           (mkDim "__outermost" Serial Parent true) 64 _ m eq_refl E).
Defined.

(** * The bounds of the outputs *)

Lemma is_int_imm_spec (e : Expr) : is_int_imm e = true <-> exists n, e = IntImm n.
Proof.
  destruct e; simpl; split; intros H; try discriminate; eauto;
    destruct H as [n H]; discriminate.
Qed.

Lemma bounds_usable_spec (vars : list string) (bs : list Bound) :
  bounds_usable vars bs = true
  <-> Forall (fun b => In (bound_var b) vars
                       /\ (exists n, bound_min b = IntImm n)
                       /\ (exists n, bound_extent b = IntImm n)) bs.
Proof.
  unfold bounds_usable. rewrite forallb_forall, Forall_forall.
  split; intros H b Hb.
  - apply list_elem_of_In in Hb. specialize (H b Hb).
    apply andb_true_iff in H as [H He]. apply andb_true_iff in H as [Hv Hm].
    apply existsb_exists in Hv as [v [Hin Hv]]. apply String.eqb_eq in Hv.
    subst v. repeat split; [exact Hin | |]; apply is_int_imm_spec; assumption.
  - apply list_elem_of_In in Hb. destruct (H b Hb) as [Hv [Hm He]].
    apply andb_true_iff. split; [apply andb_true_iff; split|].
    + apply existsb_exists. exists (bound_var b). split; [exact Hv|].
      apply String.eqb_refl.
    + apply is_int_imm_spec. exact Hm.
    + apply is_int_imm_spec. exact He.
Qed.

Lemma check_bounds_from_spec (outs : list Function) (acc : bool) :
  check_bounds_from acc outs = true
  <-> acc = true /\ Forall has_constant_bounds outs.
Proof.
  revert acc. induction outs as [|out outs IH]; intros acc; simpl.
  - split; [intros ->; split; [reflexivity | constructor] | intros [H _]; exact H].
  - destruct (Nat.eqb_spec (length (bounds (func_schedule out)))
                           (length (func_args out))) as [Hlen | Hlen]; simpl.
    + rewrite IH. destruct (bounds_usable _ _) eqn:Hu.
      * apply bounds_usable_spec in Hu.
        split; intros [Ha Hf]; (split; [exact Ha|]).
        -- constructor; [split; assumption | exact Hf].
        -- inversion Hf; assumption.
      * split; [intros [Ha _]; discriminate|].
        intros [_ Hf]. inversion Hf as [|? ? [_ Hb] _]. subst.
        apply bounds_usable_spec in Hb. congruence.
    + split; [discriminate|]. intros [_ Hf].
      inversion Hf as [|? ? [Hl _] _]. contradiction.
Qed.

(** [check_bounds_on_outputs] answers true exactly when every output has
    as many bounds as arguments and each bound is on one of its arguments,
    with a constant min and a constant extent.  (It does not look whether
    every argument has a bound.) *)
Theorem check_bounds_on_outputs_spec (outs : list Function) :
  check_bounds_on_outputs outs = true <-> Forall has_constant_bounds outs.
Proof.
  unfold check_bounds_on_outputs. rewrite check_bounds_from_spec. tauto.
Qed.

(** * Merging groups *)

Lemma concat_snd_Permutation {K A} (l l' : list (K * list A)) :
  l ≡ₚ l' -> concat (map snd l) ≡ₚ concat (map snd l').
Proof.
  induction 1 as [|x l l' _ IH|x y l|l l' l'' _ IH1 _ IH2]; simpl.
  - reflexivity.
  - rewrite IH. reflexivity.
  - rewrite !app_assoc. apply Permutation_app_tail, Permutation_app_comm.
  - etransitivity; eassumption.
Qed.

Lemma merge_groups_Ok (p p' : Partitioner) (cand child : string) :
  merge_groups p cand child = Ok p' ->
  exists ch,
    groups p !! child = Some ch
    /\ groups p'
       = <[child := default [] (delete cand (groups p) !! child)
                    ++ default [] (groups p !! cand)]> (delete cand (groups p))
    /\ children p'
       = (fun cs : gset string =>
            if decide (cand ∈ cs) then {[child]} ∪ (cs ∖ {[cand]}) else cs)
         <$> delete cand (children p)
    /\ option_cache p'
       = filter (fun kv : (string * string) * Option =>
                   ¬ (snd (fst kv) = child ∨ fst (fst kv) = child))
                (option_cache p).
Proof.
  unfold merge_groups. destruct (groups p !! child) as [ch|]; [|discriminate].
  intros H. inversion H. subst. clear H. simpl. eauto.
Qed.

(** Merging two groups loses no function and duplicates none: the
    functions of all the groups are the same before and after.  When the
    producer group exists and is not the consumer group, there is one
    group fewer. *)
Theorem merge_groups_keeps_the_functions
        (p p' : Partitioner) (cand child : string) :
  merge_groups p cand child = Ok p' ->
  all_members (groups p') ≡ₚ all_members (groups p)
  /\ (cand <> child -> is_Some (groups p !! cand) ->
      (size (groups p') + 1 = size (groups p))%nat).
Proof.
  intros H. destruct (merge_groups_Ok _ _ _ _ H) as [ch [Hch [Hg _]]].
  rewrite Hg. clear Hg. unfold all_members.
  destruct (decide (cand = child)) as [-> | Hne].
  - rewrite lookup_delete_eq. simpl. rewrite Hch. simpl.
    rewrite insert_delete_id by exact Hch.
    split; [reflexivity | intros Hc; contradiction].
  - rewrite lookup_delete_ne by exact Hne. rewrite Hch. simpl.
    set (c := default [] (groups p !! cand)).
    set (m1 := delete cand (groups p)).
    assert (Hm1 : m1 !! child = Some ch)
      by (unfold m1; rewrite lookup_delete_ne by exact Hne; exact Hch).
    split.
    + rewrite <- (insert_delete_eq m1).
      rewrite (concat_snd_Permutation _ _
                 (map_to_list_insert (delete child m1) child (ch ++ c)
                                     (lookup_delete_eq _ _))).
      simpl.
      assert (Hg : concat (map snd (map_to_list (groups p)))
                   ≡ₚ c ++ concat (map snd (map_to_list m1))).
      { unfold c, m1. destruct (groups p !! cand) as [cf|] eqn:Hc; simpl.
        - rewrite <- (concat_snd_Permutation _ _ (map_to_list_delete _ _ _ Hc)).
          reflexivity.
        - rewrite delete_id by exact Hc. reflexivity. }
      rewrite Hg.
      rewrite <- (concat_snd_Permutation _ _ (map_to_list_delete _ _ _ Hm1)).
      simpl. rewrite <- !app_assoc, (app_assoc c ch).
      rewrite (Permutation_app_comm c ch), <- app_assoc. reflexivity.
    + intros _ [cf Hc].
      rewrite map_size_insert_Some by (rewrite Hm1; eauto).
      unfold m1. rewrite map_size_delete, Hc.
      assert (size (groups p) <> 0)%nat
        by (intros Hz; apply map_size_empty_inv in Hz; rewrite Hz in Hc;
            rewrite lookup_empty in Hc; discriminate).
      lia.
Qed.

Lemma merge_groups_keeps_the_functions_witness :
  match merge_groups ex_partitioner "a" "b" with
  | Ok p' => all_members (groups p') ≡ₚ ["a"; "b"] /\ size (groups p') = 1%nat
  | Fail _ => False
  end.
Proof.
  destruct (merge_groups ex_partitioner "a" "b") as [p'|e] eqn:E;
    [|vm_compute in E; discriminate E].
  destruct (merge_groups_keeps_the_functions _ _ _ _ E) as [Hperm Hsize].
  split.
  - rewrite Hperm. vm_compute. reflexivity.
  - specialize (Hsize ltac:(discriminate) ltac:(vm_compute; eauto)).
    assert (Hn : size (groups ex_partitioner) = 2%nat) by (vm_compute; reflexivity).
    rewrite Hn in Hsize. lia.
Defined.

(** After the producer group has been merged into another group, it is
    no group any more and nobody's child: the groups that had it as a
    child have the consumer group instead; and the option cache holds
    exactly the entries it had that do not mention the consumer group. *)
Theorem merged_group_is_forgotten (p p' : Partitioner) (cand child : string) :
  merge_groups p cand child = Ok p' ->
  cand <> child ->
  groups p' !! cand = None
  /\ children p' !! cand = None
  /\ (forall g cs, children p' !! g = Some cs -> cand ∉ cs)
  /\ (forall g cs, g <> cand -> children p !! g = Some cs -> cand ∈ cs ->
      children p' !! g = Some ({[child]} ∪ cs ∖ {[cand]}))
  /\ (forall k o, option_cache p' !! k = Some o
                  <-> option_cache p !! k = Some o
                      /\ fst k <> child /\ snd k <> child).
Proof.
  intros H Hne. destruct (merge_groups_Ok _ _ _ _ H) as [ch [Hch [Hg [Hc Ho]]]].
  rewrite Hg, Hc, Ho. clear Hg Hc Ho.
  split; [|split; [|split; [|split]]].
  - rewrite lookup_insert_ne by auto. apply lookup_delete_eq.
  - rewrite lookup_fmap, lookup_delete_eq. reflexivity.
  - intros g cs Hl. rewrite lookup_fmap in Hl.
    destruct (delete cand (children p) !! g) as [cs0|]; simpl in Hl; [|discriminate].
    inversion Hl. subst cs. clear Hl.
    destruct (decide (cand ∈ cs0)) as [Hin | Hout]; [|exact Hout].
    rewrite elem_of_union, elem_of_singleton, elem_of_difference,
      elem_of_singleton.
    intros [Heq | [_ Hn]]; [contradiction | apply Hn; reflexivity].
  - intros g cs Hg Hl Hin.
    rewrite lookup_fmap, lookup_delete_ne by auto. rewrite Hl. simpl.
    rewrite decide_True by exact Hin. reflexivity.
  - intros k o. rewrite map_lookup_filter_Some. simpl. tauto.
Qed.

Lemma merged_group_is_forgotten_witness :
  match merge_groups ex_partitioner "a" "b" with
  | Ok p' => groups p' !! "a" = None /\ children p' !! "a" = None
  | Fail _ => False
  end.
Proof.
  destruct (merge_groups ex_partitioner "a" "b") as [p'|e] eqn:E;
    [|vm_compute in E; discriminate E].
  destruct (merged_group_is_forgotten _ _ _ _ E ltac:(discriminate))
    as [Hg [Hc _]].
  split; assumption.
Defined.

(** * Options of the partitioner *)

Lemma cost_model_keeps_tiles arch l inter_s total_mem estimate_tiles
      original_work total_work opt opt' :
  cost_model arch l inter_s total_mem estimate_tiles original_work total_work opt
  = Ok opt' ->
  tile_sizes opt' = tile_sizes opt
  /\ prod_group opt' = prod_group opt /\ cons_group opt' = cons_group opt.
Proof.
  unfold cost_model.
  destruct (negb _); [discriminate|].
  destruct l;
    repeat match goal with
           | |- context [if ?c then _ else _] => destruct c
           end;
    intros H; inversion H; subst; simpl; auto.
Qed.

Lemma fit_tile_fits (t d : Z) : fit_tile t d = -1 \/ fit_tile t d <= d.
Proof.
  unfold fit_tile. destruct (t =? -1) eqn:E; simpl.
  - left. apply Z.eqb_eq. exact E.
  - destruct (Z.leb_spec t d); [right; assumption | left; reflexivity].
Qed.

Lemma zip_with_fit_tile (ts ds : list Z) :
  length ts = length ds ->
  Forall2 (fun t d => t = -1 \/ t <= d) (zip_with fit_tile ts ds) ds.
Proof.
  revert ds. induction ts as [|t ts IH]; intros [|d ds] Hlen; simpl in *;
    try discriminate; constructor.
  - apply fit_tile_fits.
  - apply IH. lia.
Qed.

Section OptionFacts.

Variable inter_s_of :
  list string -> string -> list (Z * Z) -> Level -> gmap string string -> Z.
Variable work_per_tile_of : list string -> string -> list (Z * Z) -> Z.

(** An evaluated option is about the same two groups as before, and when
    every dimension of the consumer has an estimate, each of its tile
    sizes is -1 (no tiling) or at most the estimate of its dimension;
    when an estimate is missing the option is discarded as it came. *)
Theorem evaluated_tiles_fit_their_dimension
        (p : Partitioner) (opt opt' : Option) (l : Level) :
  evaluate_option inter_s_of work_per_tile_of p opt l = Ok opt' ->
  let args := default [] (fi_args <$> env p !! cons_group opt) in
  let estimates :=
    take (length args) (default [] (func_dim_estimates p !! cons_group opt)) in
  prod_group opt' = prod_group opt /\ cons_group opt' = cons_group opt
  /\ ((existsb (Z.eqb (-1)) estimates = true /\ opt' = discard opt)
      \/ (existsb (Z.eqb (-1)) estimates = false
          /\ Forall2 (fun t d => t = -1 \/ t <= d) (tile_sizes opt') estimates)).
Proof.
  intros H. cbv zeta. unfold evaluate_option in H.
  set (args := default [] (fi_args <$> env p !! cons_group opt)) in *.
  destruct (negb (length (tile_sizes opt) =? length args)%nat) eqn:Hlen;
    [discriminate|].
  apply negb_false_iff, Nat.eqb_eq in Hlen.
  destruct (length (default [] (func_dim_estimates p !! cons_group opt))
            <? length args)%nat eqn:Hest; [discriminate|].
  apply Nat.ltb_ge in Hest.
  set (estimates :=
         take (length args) (default [] (func_dim_estimates p !! cons_group opt))) in *.
  assert (Hle : length (tile_sizes opt) = length estimates)
    by (unfold estimates; rewrite length_take; lia).
  destruct (existsb (Z.eqb (-1)) estimates) eqn:Hunknown.
  - inversion H. subst. simpl. auto.
  - destruct (count_tiles _ _ _) as [[estimate_tiles partial_tiles]|e];
      simpl in H; [|discriminate].
    destruct (sum_costs _ _ _ _) as [[original_work total_mem0]|].
    + apply cost_model_keeps_tiles in H as [Ht [Hp Hc]]. simpl in *.
      rewrite Ht, Hp, Hc. repeat split. right. split; [reflexivity|].
      apply zip_with_fit_tile. exact Hle.
    + inversion H. subst. simpl. repeat split. right. split; [reflexivity|].
      apply zip_with_fit_tile. exact Hle.
Qed.

(** C5: [evaluate_option] on an option whose benefit is still the -1 its
    callers gave it, when the consumer has an estimate for each of its
    dimensions, every producer has a cost, both quantities the function
    asserts positive are so and the [long long] products do not overflow.
    With [inter_s] the size of the intermediates of the tiles kept, [cap]
    the memory size of the phase and [balance] its balance: the benefit
    is -1 when the parallelism exceeds the number of tiles; otherwise it
    is [total_mem * balance - redundant_work] when [inter_s <= cap],
    [(max(2 cap - inter_s, 0) / inter_s) * total_mem * balance -
    redundant_work] when [inter_s <= 2 cap], and the -1 it had otherwise.
    The arithmetic is that of [float]. *)
Theorem benefit_follows_cost_model
        (p : Partitioner) (opt : Option) (l : Level)
        (estimate_tiles : Z) (partial_tiles : float)
        (original_work total_mem0 : Z) :
  let cap := match l with
             | INLINE => inline_size (arch_params p)
             | FAST_MEM => fast_mem_size (arch_params p)
             end in
  let balance := match l with
                 | INLINE => balance_inline (arch_params p)
                 | FAST_MEM => balance_fast_mem (arch_params p)
                 end in
  let prod_funcs :=
    (default [] (groups p !! prod_group opt)
     ++ filter (fun f => negb (String.eqb f (cons_group opt)))
               (default [] (groups p !! cons_group opt)))%list in
  let args := default [] (fi_args <$> env p !! cons_group opt) in
  let estimates := default [] (func_dim_estimates p !! cons_group opt) in
  let dim_estimates_cons := take (length args) estimates in
  let tiles := zip_with fit_tile (tile_sizes opt) dim_estimates_cons in
  let tile_bounds := zip_with tile_bound tiles dim_estimates_cons in
  let inter_s :=
    inter_s_of prod_funcs (cons_group opt) tile_bounds l (inlines p) in
  let total_work :=
    fmul (float_of_Z (work_per_tile_of prod_funcs (cons_group opt) tile_bounds))
         partial_tiles in
  let total_mem :=
    if negb (total_mem0 =? -1)
    then wrap64 (total_mem0 + default 0 (func_mem p !! cons_group opt))
    else total_mem0 in
  let work := fmax (fsub total_work (float_of_Z original_work)) fzero in
  length (tile_sizes opt) = length args ->
  (length args <= length estimates)%nat ->
  Forall (fun d => d <> -1) dim_estimates_cons ->
  count_tiles tiles dim_estimates_cons (1, float_of_Z 1)
  = Ok (estimate_tiles, partial_tiles) ->
  sum_costs (func_op p) (func_mem p) prod_funcs (0, 0)
  = Some (original_work, total_mem0) ->
  0 < total_mem ->
  flt (float_of_Z 0) total_work = true ->
  - 2 ^ 63 <= total_mem * balance < 2 ^ 63 ->
  - 2 ^ 63 <= 2 * cap < 2 ^ 63 ->
  - 2 ^ 63 <= 2 * cap - inter_s < 2 ^ 63 ->
  benefit opt = minus_one ->
  exists opt',
    evaluate_option inter_s_of work_per_tile_of p opt l = Ok opt'
    /\ tile_sizes opt' = tiles
    /\ redundant_work opt' = work
    /\ benefit opt'
       = if parallelism (arch_params p) >? estimate_tiles then minus_one
         else if inter_s <=? cap then
           fsub (float_of_Z (total_mem * balance)) work
         else if inter_s <=? 2 * cap then
           fsub (fmul (fmul (fdiv (float_of_Z (Z.max (2 * cap - inter_s) 0))
                                  (float_of_Z inter_s))
                            (float_of_Z total_mem))
                      (float_of_Z balance))
                work
         else minus_one.
Proof.
  intros cap balance prod_funcs args estimates dim_estimates_cons tiles
         tile_bounds inter_s total_work total_mem work
         Hlen Hest Hknown Hcount Hsum Hmem Hwork Hprod Hcap Hdiff Hentry.
  destruct (cost_model_benefit (arch_params p) l inter_s total_mem
              estimate_tiles original_work total_work (set_tile_sizes opt tiles)
              Hmem Hwork Hprod Hcap Hdiff Hentry)
    as (opt' & Hrun & Hred & Hben).
  exists opt'. split; [|split; [|split; [exact Hred | exact Hben]]].
  - unfold evaluate_option.
    fold prod_funcs args estimates dim_estimates_cons.
    rewrite Hlen, Nat.eqb_refl. cbn [negb].
    replace (length estimates <? length args)%nat with false
      by (symmetry; apply Nat.ltb_ge; exact Hest).
    replace (existsb (Z.eqb (-1)) dim_estimates_cons) with false.
    + fold tiles tile_bounds. rewrite Hcount. cbn [bind].
      fold inter_s total_work. rewrite Hsum. fold total_mem. exact Hrun.
    + symmetry. apply not_true_is_false. intros Hex.
      apply existsb_exists in Hex as (d & Hd & Heq).
      apply Z.eqb_eq in Heq. subst d.
      rewrite Forall_forall in Hknown.
      apply (Hknown (-1)); [apply list_elem_of_In; exact Hd | reflexivity].
  - apply cost_model_keeps_tiles in Hrun as [Ht _]. exact Ht.
Qed.

End OptionFacts.

Lemma benefit_follows_cost_model_witness :
  exists opt',
    evaluate_option ex_inter_s ex_work_per_tile ex_partitioner
                    (mkOption "a" "b" [64] minus_one minus_one) FAST_MEM
    = Ok opt'
    /\ tile_sizes opt' = [64]
    /\ redundant_work opt' = float_of_Z 65440
    /\ benefit opt' = fzero.
Proof.
  destruct (benefit_follows_cost_model
              ex_inter_s ex_work_per_tile ex_partitioner
              (mkOption "a" "b" [64] minus_one minus_one) FAST_MEM
              1024 (float_of_Z 1024) 96 6000)
    as (opt' & Hrun & Htiles & Hwork & Hbenefit).
  - reflexivity.
  - vm_compute. lia.
  - vm_compute. repeat constructor; discriminate.
  - vm_compute. reflexivity.
  - vm_compute. reflexivity.
  - vm_compute. reflexivity.
  - vm_compute. reflexivity.
  - vm_compute. split; [discriminate | reflexivity].
  - vm_compute. split; [discriminate | reflexivity].
  - vm_compute. split; [discriminate | reflexivity].
  - reflexivity.
  - exists opt'. split; [exact Hrun|]. split; [|split].
    + rewrite Htiles. vm_compute. reflexivity.
    + rewrite Hwork. vm_compute. reflexivity.
    + rewrite Hbenefit. vm_compute. reflexivity.
Defined.

Lemma evaluated_tiles_fit_their_dimension_witness :
  match evaluate_option ex_inter_s ex_work_per_tile ex_partitioner
          (mkOption "a" "b" [100000] minus_one fzero) FAST_MEM with
  | Ok opt' => tile_sizes opt' = [-1]
  | Fail _ => False
  end.
Proof.
  destruct (evaluate_option ex_inter_s ex_work_per_tile ex_partitioner
              (mkOption "a" "b" [100000] minus_one fzero) FAST_MEM)
    as [opt'|e] eqn:E; [|vm_compute in E; discriminate E].
  destruct (evaluated_tiles_fit_their_dimension _ _ _ _ _ _ E)
    as [_ [_ [[Hu _] | [_ Hfit]]]].
  - vm_compute in Hu. discriminate Hu.
  - vm_compute in E. inversion E. reflexivity.
Defined.

(** * Rebalancing: its only error *)

Lemma swap_at_Forall {A} (P : A -> Prop) (l : list A) (a b : nat) :
  Forall P l -> Forall P (swap_at l a b).
Proof.
  intros H. unfold swap_at.
  destruct (l !! a) as [x|] eqn:Ha; [|exact H].
  destruct (l !! b) as [y|] eqn:Hb; [|exact H].
  rewrite Forall_forall in H.
  apply Forall_insert; [apply Forall_insert|].
  - apply Forall_forall. exact H.
  - apply H. eapply list_elem_of_lookup_2. exact Ha.
  - apply H. eapply list_elem_of_lookup_2. exact Hb.
Qed.

Lemma push_back_to_Forall (P : Split -> Prop) (n k : nat) (l : list Split) :
  Forall P l -> Forall P (push_back_to n k l).
Proof.
  revert k l. induction n as [|n IH]; intros k l H; simpl; [exact H|].
  apply IH, swap_at_Forall, H.
Qed.

Lemma rebalance_from_error simplify unique_name fuel :
  forall i j l c r,
    (i < j)%nat ->
    rebalance_from simplify unique_name fuel i j l c = Some r ->
    (forall e, r = Fail e -> e = rename_of_derived)
    /\ (Forall (fun s => is_rename s = false) l -> exists l' c', r = Ok (l', c')).
Proof.
  induction fuel as [|fuel IH]; intros i j l c r Hij; simpl; [discriminate|].
  destruct (Nat.ltb_spec j (length l)) as [Hj | Hj].
  - destruct (lookup_lt_is_Some_2 l i ltac:(lia)) as [first Hfirst].
    destruct (lookup_lt_is_Some_2 l j Hj) as [second Hsecond].
    rewrite Hfirst, Hsecond.
    destruct (String.eqb (outer first) (old_var second)).
    + destruct (is_rename second) eqn:Hrs.
      * intros H. inversion H. subst r. split.
        -- intros e He. inversion He. reflexivity.
        -- intros Hall. rewrite Forall_forall in Hall.
           rewrite (Hall second) in Hrs by (eapply list_elem_of_lookup_2; exact Hsecond).
           discriminate.
      * destruct (is_rename first) eqn:Hrf.
        -- intros H. destruct (IH i (i + 2)%nat _ _ _ ltac:(lia) H) as [He _].
           split; [exact He|].
           intros Hall. rewrite Forall_forall in Hall.
           rewrite (Hall first) in Hrf by (eapply list_elem_of_lookup_2; exact Hfirst).
           discriminate.
        -- intros H. destruct (IH i (j + 1)%nat _ _ _ ltac:(lia) H) as [He Hok].
           split; [exact He|].
           intros Hall. apply Hok.
           apply push_back_to_Forall, Forall_insert; [apply Forall_insert|].
           ++ exact Hall.
           ++ unfold is_rename in *. simpl. exact Hrs.
           ++ unfold is_rename in *. simpl. exact Hrf.
    + intros H. apply (IH i (j + 1)%nat _ _ _ ltac:(lia) H).
  - destruct (Nat.ltb_spec (i + 1) (length l)) as [Hi | Hi].
    + intros H. apply (IH (i + 1)%nat (i + 2)%nat _ _ _ ltac:(lia) H).
    + intros H. inversion H. subst r. split; [discriminate | eauto].
Qed.

(** The pass that rebalances the splits has one error only, the internal
    error about the rename of a derived variable; in particular it never
    indexes the list past its end.  On a list without [RenameVar] it
    always succeeds. *)
Theorem rebalance_fails_only_on_a_derived_rename
        (simplify : Expr -> Expr) (unique_name : nat -> string)
        (l : list Split) (c : nat) :
  (forall e, rebalance simplify unique_name l c = Fail e -> e = rename_of_derived)
  /\ (Forall (fun s => is_rename s = false) l ->
      exists l' c', rebalance simplify unique_name l c = Ok (l', c')).
Proof.
  destruct (rebalance_returns simplify unique_name l c) as [r [Hr Heq]].
  rewrite Heq.
  apply (rebalance_from_error simplify unique_name (rebalance_fuel l)
                              0%nat 1%nat l c r); [lia | exact Hr].
Qed.

(** * Memoized schedules *)

Lemma schedule_all_memoized inline_function inject same_as outputs env asserts order :
  forall s0 m0 w0 s m w,
    schedule_all inline_function inject same_as outputs env asserts order (s0, m0, w0)
    = Ok (s, m, w) ->
    m = (m0 || existsb (is_memoized env) order)%bool.
Proof.
  induction order as [|name rest IH]; intros s0 m0 w0 s m w.
  - simpl. intros H. inversion H. rewrite orb_false_r. reflexivity.
  - cbn [schedule_all existsb].
    destruct (schedule_all _ _ _ _ _ _ rest _) as [[[s1 m1] w1]|e] eqn:E;
      cbn [bind]; [|discriminate].
    apply IH in E. subst m1.
    unfold schedule_function.
    destruct (env !! name) as [f|] eqn:Hf; [|discriminate].
    destruct (validate_schedule _ _ _) as [wf [[]|e]]; cbn [bind]; [|discriminate].
    match goal with
    | |- context [bind ?x _] => destruct x as [s'|e]; cbn [bind]; [|discriminate]
    end.
    intros H. inversion H. subst. clear -Hf.
    replace (is_memoized env name) with (memoized (func_schedule f))
      by (unfold is_memoized; rewrite Hf; reflexivity).
    destruct m0, (existsb (is_memoized env) rest), (memoized (func_schedule f));
      reflexivity.
Qed.

(** [any_memoized] is set exactly when one of the functions in the order
    has a memoized schedule. *)
Theorem any_memoized_is_the_disjunction
        (inline_function : Stmt -> Function -> Stmt)
        (inject : Function -> bool -> bool -> Stmt -> Outcome Stmt)
        (same_as : Function -> Function -> bool)
        (outputs : list Function) (order : list string)
        (env : gmap string Function) (inject_asserts : bool)
        (s : Stmt) (any_memoized : bool) :
  schedule_functions inline_function inject same_as outputs order env inject_asserts
  = Ok (s, any_memoized) ->
  any_memoized = existsb (is_memoized env) order.
Proof.
  unfold schedule_functions.
  destruct (schedule_all _ _ _ _ _ _ _ _) as [[[s0 m] w]|e] eqn:E; simpl;
    [|discriminate].
  apply schedule_all_memoized in E. simpl in E.
  destruct (finish s0); simpl; [|discriminate].
  intros H. inversion H. subst. reflexivity.
Qed.

Lemma any_memoized_is_the_disjunction_witness :
  match ex_lowered with
  | Ok (_, any_memoized) => any_memoized = false
  | Fail _ => False
  end.
Proof.
  destruct ex_lowered as [[s m]|e] eqn:E; [|discriminate E].
  rewrite (any_memoized_is_the_disjunction _ _ _ _ _ _ _ s m E).
  vm_compute. reflexivity.
Defined.

(** * Estimates and costs *)

Lemma wrap32_id (z : Z) : - 2 ^ 31 <= z < 2 ^ 31 -> wrap32 z = z.
Proof.
  intros Hz. unfold wrap32, wrap.
  change (32 - 1) with 31.
  rewrite Z.mod_small; [lia|].
  change (2 ^ 32) with (2 * 2 ^ 31). lia.
Qed.

Lemma bound_estimate_skip (v : string) (bs : list Bound) (estimate : Z) :
  Forall (fun b => bound_var b <> v) bs ->
  bound_estimate (Some v) bs estimate = Ok estimate.
Proof.
  induction 1 as [|b bs Hb _ IH]; simpl; [reflexivity|].
  destruct (String.eqb_spec (bound_var b) v); [contradiction | exact IH].
Qed.

(** For a dimension with one explicit bound [min, extent] whose region
    in the pipeline is [min, min + extent - 1], the estimate is the larger
    of [min + extent - 1] and [extent]: the extent when [min <= 1], and
    more than the extent when the bound starts above 1. *)
Theorem get_extent_estimate_of_a_bounded_dimension
        (f : Function) (bnds : gmap string Box) (box : Box) (dim : nat)
        (v : string) (pre post : list Bound) (bmin bextent : Z) :
  func_args f !! dim = Some v ->
  bounds (func_schedule f)
  = pre ++ mkBound v (IntImm bmin) (IntImm bextent) :: post ->
  Forall (fun b => bound_var b <> v) (pre ++ post) ->
  bnds !! func_name f = Some box ->
  box !! dim = Some (IntImm bmin, IntImm (bmin + bextent - 1)) ->
  0 < bextent < 2 ^ 31 ->
  - 2 ^ 31 <= bmin + bextent - 1 < 2 ^ 31 ->
  get_extent_estimate f bnds (Z.of_nat dim)
  = Ok (Z.max (bmin + bextent - 1) bextent).
Proof.
  intros Hv Hb Hother Hbox Hitv Hext Hfit.
  apply Forall_app in Hother as [Hpre Hpost].
  unfold get_extent_estimate. unfold Box, Interval in *.
  rewrite at_index_nat, Nat2Z.id, Hv, Hb by lia.
  assert (He : bound_estimate (Some v)
                 (pre ++ mkBound v (IntImm bmin) (IntImm bextent) :: post) (-1)
               = Ok (bmin + bextent - 1)).
  { clear -Hpre Hpost Hfit. generalize (-1). induction Hpre as [|b bs Hb _ IH];
      intros e; simpl.
    - rewrite String.eqb_refl, bound_estimate_skip by exact Hpost.
      rewrite wrap32_id by exact Hfit. reflexivity.
    - destruct (String.eqb_spec (bound_var b) v); [contradiction | apply IH]. }
  rewrite He. cbn [bind]. rewrite Hbox, at_index_nat, Nat2Z.id, Hitv by lia.
  unfold get_extent. cbn [fst snd].
  destruct (Z.leb_spec bmin (bmin + bextent - 1)); [|lia].
  replace (bmin + bextent - 1 - bmin + 1) with bextent by ring.
  rewrite wrap32_id by lia.
  destruct (Z.ltb_spec 0 bextent); [reflexivity | lia].
Qed.

Lemma get_extent_estimate_of_a_bounded_dimension_witness :
  get_extent_estimate
    (mkFunction "out" ["x"] [var32 "x"]
       (mkSchedule [] [mkDim "x" Serial Parent true;
                       mkDim "__outermost" Serial Parent true]
                   [mkBound "x" (IntImm 10) (IntImm 100)] None
                   LoopLevel_root LoopLevel_root [] false false) [] None)
    (<["out" := [(IntImm 10, IntImm 109)]]> ∅) 0
  = Ok 109.
Proof.
  assert (Hl : (<["out" := [(IntImm 10, IntImm 109)]]> ∅ : gmap string Box)
                 !! "out" = Some [(IntImm 10, IntImm 109)])
    by (vm_compute; reflexivity).
  exact (get_extent_estimate_of_a_bounded_dimension
           (mkFunction "out" ["x"] [var32 "x"]
              (mkSchedule [] [mkDim "x" Serial Parent true;
                              mkDim "__outermost" Serial Parent true]
                          [mkBound "x" (IntImm 10) (IntImm 100)] None
                          LoopLevel_root LoopLevel_root [] false false) [] None)
           _ [(IntImm 10, IntImm 109)] 0 "x" [] [] 10 100
           eq_refl eq_refl ltac:(constructor) Hl eq_refl
           ltac:(lia) ltac:(lia)).
Defined.

Lemma regions_in_order_elem (regions : gmap string Box) (f : string) (b : Box) :
  regions !! f = Some b -> (f, b) ∈ regions_in_order regions.
Proof.
  intros Hf. unfold regions_in_order.
  apply list_elem_of_omap. exists f. split; [|rewrite Hf; reflexivity].
  unfold sorted_keys. rewrite merge_sort_Permutation.
  apply list_elem_of_fmap. exists (f, b). split; [reflexivity|].
  apply elem_of_map_to_list. exact Hf.
Qed.

Lemma region_cost_from_negative (l : list (string * Box))
      (func_cost : gmap string (list (Z * Z))) (f : string) (b : Box) :
  (f, b) ∈ l ->
  wrap32 (region_cost f b func_cost) < 0 ->
  forall total, region_cost_from total l func_cost = -1.
Proof.
  intros Hin Hneg. induction l as [|[g c] l IH]; intros total;
    [inversion Hin|].
  simpl. destruct (Z.ltb_spec (wrap32 (region_cost g c func_cost)) 0);
    [reflexivity|].
  apply IH. inversion Hin; subst; [lia | assumption].
Qed.

(** The cost of a set of regions is -1, "unknown", as soon as the area
    of one region is unknown, and also when the cost of one region is
    known but does not fit the [int] it is narrowed to before it is
    tested (from 2^31 up to 2^32). *)
Theorem region_cost_of_regions_is_unknown
        (regions : gmap string Box) (func_cost : gmap string (list (Z * Z)))
        (f : string) (b : Box) :
  regions !! f = Some b ->
  box_area b < 0 \/ 2 ^ 31 <= region_cost f b func_cost < 2 ^ 32 ->
  region_cost_all regions func_cost = -1.
Proof.
  intros Hf Hcase. unfold region_cost_all.
  apply (region_cost_from_negative _ _ f b).
  - apply regions_in_order_elem. exact Hf.
  - destruct Hcase as [Harea | Hbig].
    + unfold region_cost. destruct (Z.ltb_spec (box_area b) 0); [|lia].
      reflexivity.
    + unfold wrap32, wrap. change (32 - 1) with 31.
      replace (region_cost f b func_cost + 2 ^ 31)
        with ((region_cost f b func_cost - 2 ^ 31) + 1 * 2 ^ 32)
        by (change (2 ^ 32) with (2 * 2 ^ 31); ring).
      rewrite Z.mod_add by lia.
      rewrite Z.mod_small by (change (2 ^ 32) with (2 * 2 ^ 31) in *; lia).
      change (2 ^ 32) with (2 * 2 ^ 31) in Hbig. lia.
Qed.

Lemma region_cost_of_regions_is_unknown_witness :
  region_cost_all (<["f" := [(IntImm 0, IntImm 65535); (IntImm 0, IntImm 32767)]]> ∅)
                  (<["f" := [(0, 1)]]> ∅)
  = -1.
Proof.
  assert (Hl : (<["f" := [(IntImm 0, IntImm 65535); (IntImm 0, IntImm 32767)]]> ∅
                : gmap string Box) !! "f"
               = Some [(IntImm 0, IntImm 65535); (IntImm 0, IntImm 32767)])
    by (vm_compute; reflexivity).
  apply (region_cost_of_regions_is_unknown _ _ "f" _ Hl).
  right. vm_compute. split; [intros H; discriminate H | reflexivity].
Defined.

Lemma check_dim_var_false (var : string) (vars : list string) (b : Box)
      (min_size : Z) :
  check_dim_var var vars b min_size = Ok false ->
  exists i itv,
    vars !! i = Some var /\ b !! i = Some itv
    /\ 0 <= get_extent itv < min_size.
Proof.
  revert b. induction vars as [|v vars IH]; intros b; simpl; [discriminate|].
  destruct (String.eqb_spec var v) as [-> | Hne].
  - destruct b as [|itv b]; [discriminate|].
    destruct (Z.leb_spec 0 (get_extent itv)); [|discriminate].
    destruct (Z.leb_spec min_size (get_extent itv)); [discriminate|].
    intros _. exists 0%nat, itv. repeat split; assumption.
  - intros H. destruct (IH _ H) as [i [itv [Hv [Hb He]]]].
    exists (S i), itv. destruct b; simpl in Hb; [discriminate|].
    split; [exact Hv | split; [exact Hb | exact He]].
Qed.

(** [check_dim_size] is optimistic: it rejects a dim only when the
    function has a region in the pipeline bounds, the dim is one of its
    arguments, and the extent of that argument is known and below the
    minimum asked for. *)
Theorem check_dim_size_is_optimistic
        (f : Function) (dim min_size : Z) (pipeline_bounds : gmap string Box) :
  check_dim_size f dim min_size pipeline_bounds = Ok false ->
  exists box d i itv,
    pipeline_bounds !! func_name f = Some box
    /\ at_index (dims (func_schedule f)) dim = Some d
    /\ func_args f !! i = Some (dim_var d)
    /\ box !! i = Some itv
    /\ 0 <= get_extent itv < min_size.
Proof.
  unfold check_dim_size.
  destruct (pipeline_bounds !! func_name f) as [box|]; [|discriminate].
  destruct (func_args f) as [|a args] eqn:Ha; [discriminate|].
  destruct (at_index (dims (func_schedule f)) dim) as [d|]; [|discriminate].
  intros H. apply check_dim_var_false in H as [i [itv [Hv [Hb He]]]].
  exists box, d, i, itv. auto.
Qed.

Lemma check_dim_size_is_optimistic_witness :
  check_dim_size ex_plain_output 0 8 (<["out" := [(IntImm 0, IntImm 3)]]> ∅)
  = Ok false
  /\ check_dim_size ex_plain_output 0 8 (<["out" := [(var32 "l", var32 "u")]]> ∅)
     = Ok true.
Proof.
  assert (E : check_dim_size ex_plain_output 0 8 (<["out" := [(IntImm 0, IntImm 3)]]> ∅)
              = Ok false) by (vm_compute; reflexivity).
  destruct (check_dim_size_is_optimistic _ _ _ _ E) as [box _].
  split; [exact E | vm_compute; reflexivity].
Defined.

(** Moving a dim out and parallelizing the dim before the last one, as
    [schedule_advisor] does for a reduction variable, parallelizes the dim
    that was moved. *)
Theorem moved_dim_is_the_one_parallelized
        (pre mid : list Dim) (d last : Dim) (ds : list Dim) :
  move_dim_to_outermost (pre ++ d :: mid ++ [last]) (Z.of_nat (length pre)) = Ok ds ->
  parallelize_dim ds (Z.of_nat (length ds) - 2)
  = Ok (pre ++ mid ++ [set_for_type d Parallel; last]).
Proof.
  rewrite move_dim_to_outermost_middle. intros H. inversion H. subst ds. clear H.
  replace (pre ++ mid ++ [d; last]) with ((pre ++ mid) ++ d :: [last])
    by (rewrite <- app_assoc; reflexivity).
  replace (Z.of_nat (length ((pre ++ mid) ++ [d; last])) - 2)
    with (Z.of_nat (length (pre ++ mid)))
    by (rewrite (length_app (pre ++ mid)); simpl; lia).
  unfold parallelize_dim. rewrite at_index_middle, Nat2Z.id, insert_middle.
  rewrite <- app_assoc. reflexivity.
Qed.

Lemma moved_dim_is_the_one_parallelized_witness :
  match move_dim_to_outermost (dims (func_schedule ex_out_2d)) 0 with
  | Ok ds =>
      parallelize_dim ds 1
      = Ok [ mkDim "y" Serial Parent true; mkDim "x" Parallel Parent true;
             mkDim "__outermost" Serial Parent true ]
  | Fail _ => False
  end.
Proof.
  destruct (move_dim_to_outermost (dims (func_schedule ex_out_2d)) 0)
    as [ds|e] eqn:E; [|vm_compute in E; discriminate E].
  assert (Hlen : Z.of_nat (length ds) - 2 = 1)
    by (vm_compute in E; inversion E; reflexivity).
  rewrite <- Hlen.
  exact (moved_dim_is_the_one_parallelized
           [] [mkDim "y" Serial Parent true] (mkDim "x" Serial Parent true)
           (mkDim "__outermost" Serial Parent true) ds E).
Defined.

(** * The lets of a stage in its nest *)

(** ** Swapping two elements of a vector *)

Lemma swap_at_same {A} (l : list A) a : swap_at l a a = l.
Proof.
  unfold swap_at. destruct (l !! a) as [x|] eqn:E; [|reflexivity].
  rewrite (list_insert_id l a x E), (list_insert_id l a x E). reflexivity.
Qed.

Lemma swap_at_lookup_other {A} (l : list A) a b k :
  k <> a -> k <> b -> swap_at l a b !! k = l !! k.
Proof.
  intros Ha Hb. unfold swap_at.
  destruct (l !! a) as [x|]; [|reflexivity].
  destruct (l !! b) as [y|]; [|reflexivity].
  rewrite !list_lookup_insert_ne by congruence. reflexivity.
Qed.

Lemma swap_at_lookup_l {A} (l : list A) a b x y :
  l !! a = Some x -> l !! b = Some y -> swap_at l a b !! a = Some y.
Proof.
  intros Ha Hb. unfold swap_at. rewrite Ha, Hb.
  apply list_lookup_insert_eq. rewrite length_insert.
  eapply lookup_lt_Some. exact Ha.
Qed.

Lemma swap_at_lookup_r {A} (l : list A) a b x y :
  a <> b -> l !! a = Some x -> l !! b = Some y -> swap_at l a b !! b = Some x.
Proof.
  intros Hab Ha Hb. unfold swap_at. rewrite Ha, Hb.
  rewrite list_lookup_insert_ne by exact Hab.
  apply list_lookup_insert_eq. eapply lookup_lt_Some. exact Hb.
Qed.

Lemma swap_at_elem_of {A} (l : list A) a b x :
  x ∈ l -> x ∈ swap_at l a b.
Proof.
  intros Hx. destruct (decide (a = b)) as [-> | Hab];
    [rewrite swap_at_same; exact Hx|].
  destruct (l !! a) as [xa|] eqn:Ha;
    [|unfold swap_at; rewrite Ha; exact Hx].
  destruct (l !! b) as [xb|] eqn:Hb;
    [|unfold swap_at; rewrite Ha, Hb; exact Hx].
  apply list_elem_of_lookup in Hx as [k Hk].
  destruct (decide (k = a)) as [-> | Hka].
  - rewrite Ha in Hk. inversion Hk. subst.
    eapply list_elem_of_lookup_2. exact (swap_at_lookup_r l a b _ _ Hab Ha Hb).
  - destruct (decide (k = b)) as [-> | Hkb].
    + rewrite Hb in Hk. inversion Hk. subst.
      eapply list_elem_of_lookup_2. exact (swap_at_lookup_l l a b _ _ Ha Hb).
    + apply (list_elem_of_lookup_2 _ k).
      rewrite swap_at_lookup_other by assumption. exact Hk.
Qed.

(** ** From the loop over the splits to the nest *)

Section StageFacts.

Variable simplify : Expr -> Expr.
Variable is_zero : Expr -> bool.
Variable likely : Expr -> Expr.
Variable substitute : string -> Expr -> Stmt -> Stmt.
Variable expr_uses_var : Expr -> string -> bool.
Variable simplify_exprs : Stmt -> Stmt.
Variable unique_name : nat -> string.
Variable indeterminate_for_type : ForType.
Variable indeterminate_device_api : DeviceAPI.
Variable indeterminate_pure : bool.

(** [substitute] on expressions, and what [substitute] (Substitute.h)
    does at a let: the value is rewritten, and so is the body unless the
    let binds the substituted name again. *)
Variable substitute_expr : string -> Expr -> Expr -> Expr.
Hypothesis substitute_let : forall x e n v b,
  substitute x e (LetStmt n v b)
  = LetStmt n (substitute_expr x e v)
            (if String.eqb n x then b else substitute x e b).

Lemma strip_lets_let n v b :
  fst (strip_lets (LetStmt n v b)) = let_container n v :: fst (strip_lets b).
Proof. simpl. destruct (strip_lets b). reflexivity. Qed.

Lemma strip_lets_values s :
  Forall (fun c => is_Some (c_value c)) (fst (strip_lets s)).
Proof.
  induction s; try (simpl; constructor).
  rewrite strip_lets_let. constructor; [eexists; reflexivity | exact IHs].
Qed.

Lemma substitute_all_app subs1 subs2 v :
  substitute_all substitute_expr (subs1 ++ subs2) v
  = substitute_all substitute_expr subs2 (substitute_all substitute_expr subs1 v).
Proof. unfold substitute_all. apply fold_left_app. Qed.

Lemma substitute_keeps_let x e name v s :
  let_container name v ∈ fst (strip_lets s) ->
  exists subs,
    sublist subs [(x, e)]
    /\ let_container name (substitute_all substitute_expr subs v)
       ∈ fst (strip_lets (substitute x e s)).
Proof.
  induction s; try (simpl; intros H; apply elem_of_nil in H; contradiction).
  rewrite strip_lets_let, substitute_let, strip_lets_let.
  intros H. apply elem_of_cons in H as [H | H].
  - inversion H. subst. exists [(x, e)]. split; [reflexivity|].
    apply elem_of_cons. left. reflexivity.
  - destruct (String.eqb name0 x).
    + exists []. split; [apply sublist_nil_l|].
      apply elem_of_cons. right. exact H.
    + destruct (IHs H) as (subs & Hsub & Hin).
      exists subs. split; [exact Hsub|]. apply elem_of_cons. right. exact Hin.
Qed.

Lemma apply_split_keeps_let prefix is_update innermost st sp st' name v :
  apply_split simplify is_zero likely substitute prefix is_update innermost st sp
  = Ok st' ->
  let_container name v ∈ fst (strip_lets (fst st)) ->
  exists subs,
    sublist subs (substitutions prefix sp)
    /\ let_container name (substitute_all substitute_expr subs v)
       ∈ fst (strip_lets (fst st')).
Proof.
  destruct st as [stmt known]. unfold apply_split, substitutions.
  destruct (split_type sp); simpl.
  - destruct (split_base _ _ _ _ _ _ _ _) as [[base known2]|e]; simpl;
      [|discriminate].
    intros H Hin. inversion H. subst. cbn [fst].
    destruct (substitute_keeps_let
                (prefix +:+ old_var sp)
                (Bin Add (var32 (prefix +:+ inner sp +:+ ".base"))
                         (var32 (prefix +:+ inner sp))) name v stmt Hin)
      as (subs & Hsub & Hin').
    exists subs. split; [exact Hsub|].
    rewrite !strip_lets_let. apply elem_of_cons. right.
    apply elem_of_cons. right. exact Hin'.
  - intros H Hin. inversion H. subst. cbn [fst].
    destruct (substitute_keeps_let
                (prefix +:+ old_var sp) (var32 (prefix +:+ outer sp))
                name v stmt Hin)
      as (subs & Hsub & Hin').
    exists subs. split; [exact Hsub|].
    rewrite strip_lets_let. apply elem_of_cons. right. exact Hin'.
  - intros H Hin. inversion H. subst. cbn [fst].
    set (factor_e := Bin Max (var32 (prefix +:+ inner sp +:+ ".loop_extent"))
                             (IntImm 1)) in *.
    set (inner_e := Bin Add (Bin Mod (var32 (prefix +:+ old_var sp)) factor_e)
                            (var32 (prefix +:+ inner sp +:+ ".loop_min"))) in *.
    set (outer_e := Bin Add (Bin Div (var32 (prefix +:+ old_var sp)) factor_e)
                            (var32 (prefix +:+ outer sp +:+ ".loop_min"))) in *.
    destruct (substitute_keeps_let (prefix +:+ inner sp) inner_e name v stmt Hin)
      as (subs1 & Hsub1 & Hin1).
    destruct (substitute_keeps_let (prefix +:+ outer sp) outer_e name _ _ Hin1)
      as (subs2 & Hsub2 & Hin2).
    exists (subs1 ++ subs2)%list. split.
    + exact (sublist_app _ [_] _ [_] Hsub1 Hsub2).
    + rewrite substitute_all_app, !strip_lets_let.
      apply elem_of_cons. right. apply elem_of_cons. right. exact Hin2.
Qed.

Lemma apply_splits_keeps_let prefix is_update innermost l :
  forall st st' name v,
    apply_splits simplify is_zero likely substitute prefix is_update innermost st l
    = Ok st' ->
    let_container name v ∈ fst (strip_lets (fst st)) ->
    exists subs,
      sublist subs (flat_map (substitutions prefix) l)
      /\ let_container name (substitute_all substitute_expr subs v)
         ∈ fst (strip_lets (fst st')).
Proof.
  induction l as [|sp l IH]; intros st st' name v; simpl.
  - intros H Hin. inversion H. subst. exists []. split; [constructor | exact Hin].
  - destruct (apply_split _ _ _ _ _ _ _ st sp) as [st1|e] eqn:E; simpl;
      [|discriminate].
    intros H Hin.
    destruct (apply_split_keeps_let _ _ _ _ _ _ name v E Hin)
      as (subs1 & Hsub1 & Hin1).
    destruct (IH st1 st' name _ H Hin1) as (subs2 & Hsub2 & Hin2).
    exists (subs1 ++ subs2)%list. split.
    + apply sublist_app; assumption.
    + rewrite substitute_all_app. exact Hin2.
Qed.

(** *** The containers are sorted and rewrapped *)

Lemma push_up_ok (P : Container -> Prop) (j1 : nat) :
  forall nest c v,
    nest !! j1 = Some c -> c_value c = Some v ->
    exists nest',
      push_up expr_uses_var j1 nest = Ok nest'
      /\ length nest' = length nest
      /\ (forall k, (j1 < k)%nat -> nest' !! k = nest !! k)
      /\ (forall x, x ∈ nest -> x ∈ nest')
      /\ (Forall P nest -> Forall P nest').
Proof.
  induction j1 as [|j IH]; intros nest c v Hc Hv; simpl.
  - exists nest. repeat split; auto.
  - rewrite Hc.
    destruct (lookup_lt_is_Some_2 nest j) as [c0 Hc0];
      [apply lookup_lt_Some in Hc; lia|].
    rewrite Hc0, Hv.
    destruct (expr_uses_var v (c_name c0)).
    + exists nest. repeat split; auto.
    + destruct (IH (swap_at nest (S j) j) c v) as (nest' & Hrun & Hlen & Hk & Hin & HP).
      * exact (swap_at_lookup_r nest (S j) j c c0 ltac:(lia) Hc Hc0).
      * exact Hv.
      * exists nest'. split; [exact Hrun|]. split; [|split; [|split]].
        -- rewrite Hlen. apply swap_at_length.
        -- intros k Hlt. rewrite Hk by lia.
           apply swap_at_lookup_other; lia.
        -- intros x Hx. apply Hin, swap_at_elem_of, Hx.
        -- intros H. apply HP, swap_at_Forall, H.
Qed.

Lemma resort_ok (P : Container -> Prop) (n : nat) :
  forall i nest,
    (i + n = length nest)%nat ->
    (forall k c, (i <= k)%nat -> nest !! k = Some c -> is_Some (c_value c)) ->
    exists nest',
      resort expr_uses_var n i nest = Ok nest'
      /\ (forall x, x ∈ nest -> x ∈ nest')
      /\ (Forall P nest -> Forall P nest').
Proof.
  induction n as [|n IH]; intros i nest Hlen Hlets; simpl.
  - exists nest. repeat split; auto.
  - destruct (lookup_lt_is_Some_2 nest i) as [c Hc]; [lia|].
    rewrite Hc.
    destruct (Hlets i c ltac:(lia) Hc) as [v Hv]. rewrite Hv.
    destruct (push_up_ok P i nest c v Hc Hv) as (nest1 & Hrun & Hlen1 & Hk & Hin & HP).
    rewrite Hrun. simpl.
    destruct (IH (S i) nest1) as (nest' & Hrun' & Hin' & HP').
    + lia.
    + intros k c' Hik Hc'. rewrite Hk in Hc' by lia.
      exact (Hlets k c' ltac:(lia) Hc').
    + exists nest'. split; [exact Hrun'|]. split.
      * intros x Hx. apply Hin', Hin, Hx.
      * intros H. apply HP', HP, H.
Qed.

Lemma rewrap_binds (ds : list Dim) (nest : list Container) (stmt : Stmt) :
  Forall (fun c => c_value c = None -> is_Some (ds !! Z.to_nat (dim_idx c))) nest ->
  exists stmt',
    rewrap ds nest stmt = Ok stmt'
    /\ forall name v, let_container name v ∈ nest -> binds name v stmt'.
Proof.
  induction 1 as [|c nest Hc _ IH]; simpl.
  - exists stmt. split; [reflexivity|].
    intros name v H. apply elem_of_nil in H. contradiction.
  - destruct IH as (inner_stmt & Hrun & Hbinds). rewrite Hrun. simpl.
    destruct (c_value c) as [v0|] eqn:Hv.
    + eexists. split; [reflexivity|].
      intros name v H. apply elem_of_cons in H as [H | H]; simpl.
      * left. subst c. simpl in Hv. inversion Hv. split; reflexivity.
      * right. apply Hbinds, H.
    + destruct (Hc eq_refl) as [d Hd]. rewrite Hd.
      eexists. split; [reflexivity|].
      intros name v H. apply elem_of_cons in H as [H | H]; simpl.
      * subst c. discriminate Hv.
      * apply Hbinds, H.
Qed.

Lemma loop_containers_length prefix (ds : list Dim) :
  length (loop_containers prefix ds) = length ds.
Proof. unfold loop_containers. rewrite length_rev, length_imap. reflexivity. Qed.

Lemma loop_containers_dims prefix (ds : list Dim) :
  Forall (fun c => c_value c = None -> is_Some (ds !! Z.to_nat (dim_idx c)))
         (loop_containers prefix ds).
Proof.
  unfold loop_containers. apply Forall_rev, Forall_forall.
  intros c Hc _. apply list_elem_of_lookup in Hc as [i Hi].
  rewrite list_lookup_imap in Hi.
  destruct (ds !! i) as [d|] eqn:Hd; simpl in Hi; [|discriminate].
  inversion Hi. simpl. rewrite Nat2Z.id, Hd. eexists. reflexivity.
Qed.

(** *** The lets of the bounds go around the nest *)

Lemma binds_split_bounds prefix name v (spl : list Split) stmt :
  binds name v stmt ->
  binds name v (fold_right (split_bounds likely prefix) stmt spl).
Proof.
  intros H. induction spl as [|sp spl IH]; simpl; [exact H|].
  unfold split_bounds. destruct (split_type sp); simpl; tauto.
Qed.

Lemma binds_arg_bounds prefix name v (args : list string) :
  forall stmt, binds name v stmt ->
               binds name v (fold_left (arg_bounds prefix) args stmt).
Proof.
  induction args as [|a args IH]; intros stmt H; simpl; [exact H|].
  apply IH. unfold arg_bounds. simpl. tauto.
Qed.

(** A let the loop over the splits leaves in the statement is bound in the
    nest of the stage, and the stage is built. *)
Lemma build_stage_binds f prefix site values s is_update c spl c1 final name v :
  rebalance simplify unique_name (splits s) c = Ok (spl, c1) ->
  apply_splits simplify is_zero likely substitute prefix is_update
    (innermost_non_trivial_loop indeterminate_for_type indeterminate_device_api
                                indeterminate_pure (dims s))
    (Provide (func_name f) values site, known_size_dims s) spl = Ok final ->
  let_container name v ∈ fst (strip_lets (fst final)) ->
  exists stmt,
    build_stage simplify is_zero likely substitute expr_uses_var unique_name
                indeterminate_for_type indeterminate_device_api indeterminate_pure
                f prefix site values s is_update c = Ok (stmt, c1)
    /\ binds name v stmt.
Proof.
  intros Hreb Hsplits Hin. unfold build_stage. rewrite Hreb. simpl.
  rewrite Hsplits. simpl.
  pose proof (strip_lets_values (fst final)) as Hvalues.
  destruct (strip_lets (fst final)) as [lets store]. simpl in Hin, Hvalues.
  set (P := fun c : Container =>
              c_value c = None -> is_Some (dims s !! Z.to_nat (dim_idx c))).
  destruct (resort_ok P (length (loop_containers prefix (dims s) ++ lets)
                         - length (dims s))
                      (length (dims s)) (loop_containers prefix (dims s) ++ lets))
    as (nest' & Hrun & Hin' & HP).
  - rewrite length_app, loop_containers_length. lia.
  - intros k c0 Hk Hc0.
    rewrite lookup_app_r in Hc0 by (rewrite loop_containers_length; exact Hk).
    rewrite Forall_forall in Hvalues. apply Hvalues.
    eapply list_elem_of_lookup_2. exact Hc0.
  - rewrite Hrun. simpl.
    destruct (rewrap_binds (dims s) nest' store) as (stmt1 & Hwrap & Hbinds).
    + apply HP, Forall_app. split; [apply loop_containers_dims|].
      eapply Forall_impl; [exact Hvalues|].
      intros c0 [v0 Hv0] Hnone. rewrite Hv0 in Hnone. discriminate Hnone.
    + rewrite Hwrap. simpl. eexists. split; [reflexivity|].
      apply binds_arg_bounds. unfold outermost_bounds. simpl.
      right. right. right. apply binds_split_bounds, Hbinds, Hin'.
      apply elem_of_app. right. exact Hin.
Qed.

Lemma build_provide_loop_nest_plain f prefix site values s is_update c :
  specializations s = [] ->
  build_provide_loop_nest simplify is_zero likely substitute expr_uses_var
    simplify_exprs unique_name
    indeterminate_for_type indeterminate_device_api indeterminate_pure
    f prefix site values s is_update c
  = build_stage simplify is_zero likely substitute expr_uses_var unique_name
      indeterminate_for_type indeterminate_device_api indeterminate_pure
      f prefix site values s is_update c.
Proof.
  destruct s; simpl. intros ->.
  destruct (build_stage _ _ _ _ _ _ _ _ _ _ _ _ _ _ _ _); reflexivity.
Qed.

Lemma apply_splits_middle prefix is_update innermost st0 pre split post st st1 :
  apply_splits simplify is_zero likely substitute prefix is_update innermost st0 pre
  = Ok st ->
  apply_split simplify is_zero likely substitute prefix is_update innermost st split
  = Ok st1 ->
  apply_splits simplify is_zero likely substitute prefix is_update innermost st0
               (pre ++ split :: post)
  = apply_splits simplify is_zero likely substitute prefix is_update innermost
                 st1 post.
Proof.
  intros H1 H2. rewrite apply_splits_app, H1.
  cbn [bind apply_splits]. rewrite H2. reflexivity.
Qed.

Lemma substitute_all_unchanged (subs later : list (string * Expr)) v :
  sublist subs later ->
  (forall xe, In xe later -> substitute_expr (fst xe) (snd xe) v = v) ->
  substitute_all substitute_expr subs v = v.
Proof.
  unfold substitute_all.
  induction 1 as [|x l1 l2 _ IH|x l1 l2 _ IH]; intros H; simpl.
  - reflexivity.
  - rewrite (H x (or_introl eq_refl)). apply IH.
    intros xe Hxe. apply H. right. exact Hxe.
  - apply IH. intros xe Hxe. apply H. right. exact Hxe.
Qed.



End StageFacts.

(** ** Two stages *)


